(** * Jitsu event pipeline: delivery, retry and fallback paths

    A shallow embedding of the Go sources that decide how an event reaches a
    sink or the fallback log:

    - [Coordination]: the in-memory lock service ([InMemoryService]);
    - [Adapters]: the MySQL adapter's bulk store ([BulkInsert], [BulkUpdate],
      [bulkInsertInTransaction], [bulkMergeInTransaction]);
    - [Storages]: the streaming worker loop and the Postgres storage
      ([Insert], [StoreWithParseFunc]);
    - [Fallback]: the fallback service's [Replay];
    - [BigQueryBatch]: the BigQuery batch loop ([startBatch]);
    - [CoordinationVersions], [StreamingAccounts], [Logging], [StoragesSync],
      [AdaptersTables], [AdaptersReads], [FallbackFiles], [BigQueryStore],
      [StoragesFactory]: the functions around these: table versions, the
      asynchronous logger, [SyncStore] and [Close] of the Postgres storage,
      schema changes, catalog reads and single inserts of the MySQL adapter,
      [GetFileStatuses], [StoreWithParseFunc] of the BigQuery storage and
      the default mappings of a destination.

    Go state is threaded explicitly.  Calls that leave the process (SQL
    engine, object store, clock, other goroutines) are played by oracles that
    the theorems quantify over.  Definitions come first, theorems follow in
    the second half of the file. *)

From stdpp Require Import gmap strings list fin_maps pretty sorting.
From Equations Require Import Equations.
From Stdlib Require Import Ascii ZArith Lia.

Local Open Scope string_scope.

(* ===================================================================== *)
(** * Part I: the model                                                   *)
(* ===================================================================== *)

(** ** Go values shared by the packages *)

(** Sentinel errors are compared by identity in the Go code
    ([err == schema.ErrSkipObject], [err == events.ErrQueueClosed]). *)
Inductive Sentinel := SkipObject | QueueClosed.

(** An [error] value: a sentinel, a plain error made by [errors.New] or
    [fmt.Errorf], or a [multierror] accumulating several errors. *)
#[warnings="-register-all"]
Inductive error :=
| ErrSentinel (s : Sentinel)
| Errorf (text : string)
| MultiError (errs : list error).

Definition ErrSkipObject : error := ErrSentinel SkipObject.
Definition ErrQueueClosed : error := ErrSentinel QueueClosed.

Definition is_sentinel (s : Sentinel) (e : error) : bool :=
  match e, s with
  | ErrSentinel SkipObject, SkipObject => true
  | ErrSentinel QueueClosed, QueueClosed => true
  | _, _ => false
  end.

(** Texts that are declared outside the files at hand: the messages of the
    two sentinels and the rendering of a multi-error. *)
Class ErrorTexts := {
  sentinelText : Sentinel → string;
  multiErrorText : list string → string
}.

(** [err.Error()] *)
Fixpoint Error `{ErrorTexts} (e : error) : string :=
  match e with
  | ErrSentinel s => sentinelText s
  | Errorf text => text
  | MultiError errs => multiErrorText (map Error errs)
  end.

(** [fmt.Errorf(".. %v", .., err)]: a new plain error whose text ends with
    the text of [err].  The other arguments of the format (names, query
    text, bound values) are part of [message] where they are strings and are
    left out where Go would print a value. *)
Definition Wrap `{ErrorTexts} (message : string) (err : error) : error :=
  Errorf (message +:+ Error err).

(** [multierror.Append(multiErr, err)] with [multiErr] possibly nil. *)
Definition multierror_Append (multiErr : option error) (err : error) : option error :=
  match multiErr with
  | None => Some (MultiError [err])
  | Some (MultiError errs) => Some (MultiError (errs ++ [err]))
  | Some e => Some (MultiError [e; err])
  end.

(** [err == nil] *)
Definition isNil (e : option error) : bool :=
  match e with None => true | Some _ => false end.

(** [strings.Contains(s, substr)]: some suffix of [s] starts with [substr]. *)
Fixpoint Contains (s substr : string) : bool :=
  String.prefix substr s ||
  match s with
  | EmptyString => false
  | String _ rest => Contains rest substr
  end.

(** [strings.HasPrefix(s, prefix)] *)
Definition HasPrefix (s pre : string) : bool := String.prefix pre s.

(** [map[string]interface{}] values as they reach the adapters: flattened
    events hold scalars only. *)
Inductive Value :=
| VNil
| VString (s : string)
| VInt (z : Z)
| VBool (b : bool).

#[global] Instance Value_eq_dec : EqDecision Value.
Proof. solve_decision. Defined.

(** [events.Event] and the rows handed to the adapters. *)
Abbreviation Object := (gmap string Value).

(** [time.Time] and [time.Duration], both counted in nanoseconds. *)
Definition Time := Z.
Definition Second : Z := 1000000000.

(** [len(x)] of a slice: a Go [int]. *)
Definition len {A} (l : list A) : Z := Z.of_nat (length l).

(** [strings.Join(elems, sep)] *)
Definition Join (elems : list string) (sep : string) : string :=
  String.concat sep elems.

(** [strings.Split(s, ",")]: the pieces of [s] between commas; the empty
    string gives one empty piece. *)
Fixpoint SplitComma (s : string) : list string :=
  match s with
  | EmptyString => [EmptyString]
  | String c rest =>
      if Ascii.eqb c ","%char then EmptyString :: SplitComma rest
      else match SplitComma rest with
           | piece :: pieces => String c piece :: pieces
           | [] => [String c EmptyString]
           end
  end.

(* --------------------------------------------------------------------- *)
(** ** package coordination: the in-memory lock service                   *)
(* --------------------------------------------------------------------- *)

Module Coordination.

(** [getIdentifier] *)
Definition getIdentifier (system collection : string) : string :=
  system +:+ "_" +:+ collection.

(** The state the lock functions touch: the [locks] map of
    [InMemoryService] (a [sync.Map] used as a set of identifiers), and two
    observers of the calling goroutine: every [time.Sleep] it made, in
    seconds, and the number of [LoadOrStore] attempts. *)
Record InMemoryService := {
  locks : gset string;
  sleeps : list nat;
  attempts : nat
}.

(** What [lockWithRetry] returns: the lock, or the "already locked" error
    built from the system and collection names. *)
Inductive LockResult :=
| Acquired (identifier : string)
| AlreadyLocked (system collection : string).

(** Other goroutines run while the caller sleeps.  [env k] is what they do
    to the lock map during the sleep that follows the attempt made with
    [retryCount = k]. *)
Definition Interference := nat → gset string → gset string.

(** [lockWithRetry]: [LoadOrStore]; when the identifier was already there,
    give up if [retryCount >= 3], otherwise sleep one second and call
    itself with [retryCount + 1]. *)
Equations lockWithRetry (env : Interference) (system collection : string)
    (retryCount : nat) (ims : InMemoryService) : LockResult * InMemoryService
    by wf (3 - retryCount) lt :=
  lockWithRetry env system collection retryCount ims
    with decide (getIdentifier system collection ∈ locks ims) => {
    | left _ with le_lt_dec 3 retryCount => {
      | left _ =>
          (AlreadyLocked system collection,
           {| locks := locks ims; sleeps := sleeps ims;
              attempts := S (attempts ims) |})
      | right _ =>
          lockWithRetry env system collection (S retryCount)
            {| locks := env retryCount (locks ims);
               sleeps := sleeps ims ++ [1];
               attempts := S (attempts ims) |} }
    | right _ =>
        (Acquired (getIdentifier system collection),
         {| locks := {[getIdentifier system collection]} ∪ locks ims;
            sleeps := sleeps ims;
            attempts := S (attempts ims) |}) }.
Next Obligation. lia. Qed.

(** [Lock] *)
Definition Lock (env : Interference) (system collection : string)
    (ims : InMemoryService) : LockResult * InMemoryService :=
  lockWithRetry env system collection 0 ims.

(** [TryLock] *)
Definition TryLock (env : Interference) (system collection : string)
    (ims : InMemoryService) : LockResult * InMemoryService :=
  lockWithRetry env system collection 3 ims.

(** [Unlock] *)
Definition Unlock (identifier : string) (ims : InMemoryService) : InMemoryService :=
  {| locks := locks ims ∖ {[identifier]};
     sleeps := sleeps ims; attempts := attempts ims |}.

(** [IsLocked] *)
Definition IsLocked (system collection : string) (ims : InMemoryService) : bool :=
  bool_decide (getIdentifier system collection ∈ locks ims).

(** The environment in which nobody else touches the lock map. *)
Definition idle : Interference := λ _ l, l.

(** The lock map as the attempts of one call find it: [locksFrom env r l k]
    is the map at the attempt that follows [k] sleeps, for a call entered
    with [retryCount = r] on the map [l], the other goroutines having run
    during each of the sleeps. *)
Fixpoint locksFrom (env : Interference) (retryCount : nat) (l : gset string)
    (k : nat) : gset string :=
  match k with
  | O => l
  | S k' => env (retryCount + k')%nat (locksFrom env retryCount l k')
  end.

End Coordination.


(* --------------------------------------------------------------------- *)
(** ** package adapters: the MySQL adapter's bulk store                   *)
(* --------------------------------------------------------------------- *)

Module Adapters.

(** [mysqlValuesLimit]: the cap on the number of values bound to one
    query. *)
Definition mysqlValuesLimit : Z := 65535.

Record Column := { SQLType : string }.

(** [Table]: name, columns, primary-key fields and the flag asking for the
    primary key to be dropped. *)
Record Table := {
  Name : string;
  Columns : gmap string Column;
  PKFields : gmap string bool;
  DeletePkFields : bool
}.

(** [table.GetPKFields()]: the names held by [PKFields]. *)
Definition GetPKFields (table : Table) : list string :=
  (map_to_list (PKFields table)).*1.

(** [for name := range table.Columns { header = append(header, name) }].
    Go leaves the order of a map range open; the model walks the map in
    key order, and no theorem below depends on which order it is. *)
Definition columnNames (table : Table) : list string :=
  (map_to_list (Columns table)).*1.

(** The receiver [p *Mysql]: the configured schema and the cast hints of
    the mapping stage. *)
Record Mysql := {
  Schema : string;
  mappingTypeCasts : gmap string string
}.

(** Functions of the package and of Go's library that the file calls and
    that are declared elsewhere. *)
Class Helpers := {
  removeLastComma : string → string;
  buildConstraintName : string → string → string;
  TrimSpace : string → string
}.

(** A query text is [fmt.Sprintf] of one of three templates; the model
    keeps the template and its arguments.  [header] is the column list
    that the Go code joins with commas before formatting. *)
Inductive Query :=
| insertTemplate (schema table : string) (header : list string)
    (placeholders : string)
| mergeTemplate (schema table : string) (header : list string)
    (placeholders constraint updateSection : string)
| deleteQueryTemplate (schema table condition : string).

Definition isInsert (q : Query) : bool :=
  match q with insertTemplate _ _ _ _ => true | _ => false end.

Definition isMerge (q : Query) : bool :=
  match q with mergeTemplate _ _ _ _ _ _ => true | _ => false end.

(** *** The SQL engine behind [database/sql] *)

(** A table of the engine: the columns of its primary-key constraint
    (empty when it has none) and its rows. *)
Record DbTable := {
  pkConstraint : list string;
  rows : list Object
}.

Abbreviation Db := (gmap string DbTable).

(** [value, _ := row[column]]: a missing key reads as nil. *)
Definition rowValue (row : Object) (column : string) : Value :=
  default VNil (row !! column).

Definition rowValues (header : list string) (row : Object) : list Value :=
  rowValue row <$> header.

(** The primary-key value of a stored row. *)
Definition keyOf (pk : list string) (row : Object) : list Value :=
  rowValues pk row.

(** The VALUES tuples of a statement: the bound values, [width] at a
    time. *)
Fixpoint tuples (fuel : nat) (width : nat) (args : list Value) : list (list Value) :=
  match fuel, args with
  | _, [] => []
  | O, _ => []
  | S fuel', _ => take width args :: tuples fuel' width (drop width args)
  end.

Definition toRow (header : list string) (tuple : list Value) : Object :=
  list_to_map (zip header tuple).

(** Modelled from the spec: plain INSERT of one row.  The row is appended;
    on a table with a primary-key constraint a row whose key is already
    there is refused. *)
Definition insertRow (t : DbTable) (row : Object) : option DbTable :=
  if bool_decide (pkConstraint t ≠ [] ∧ keyOf (pkConstraint t) row ∈ keyOf (pkConstraint t) <$> rows t)
  then None
  else Some {| pkConstraint := pkConstraint t; rows := rows t ++ [row] |}.

(** Modelled from the spec: INSERT .. ON CONFLICT ON CONSTRAINT .. DO
    UPDATE of one row ("merges with conflict resolution on PK").  The
    stored row with the same key takes the new values of the statement's
    columns; without such a row the new one is appended. *)
Fixpoint upsert (pk : list string) (row : Object) (stored : list Object) : list Object :=
  match stored with
  | [] => [row]
  | old :: rest =>
      if decide (keyOf pk old = keyOf pk row) then (row ∪ old) :: rest
      else old :: upsert pk row rest
  end.

Definition mergeRow (t : DbTable) (row : Object) : option DbTable :=
  match pkConstraint t with
  | [] => None
  | _ => Some {| pkConstraint := pkConstraint t;
                 rows := upsert (pkConstraint t) row (rows t) |}
  end.

Fixpoint applyRows (step : DbTable → Object → option DbTable)
    (t : DbTable) (new : list Object) : option DbTable :=
  match new with
  | [] => Some t
  | row :: rest =>
      match step t row with
      | Some t' => applyRows step t' rest
      | None => None
      end
  end.

(** The faults and choices of the engine and of the connection to it:
    whether opening, preparing, executing or committing fails for a
    reason of its own, and which rows a DELETE condition selects. *)
Record Engine := {
  beginFails : option error;
  prepareFails : Query → option error;
  execFails : Query → list Value → option error;
  commitFails : option error;
  deleteMatches : string → list Value → Object → bool
}.

(** Modelled from the spec: what a statement does to the database when
    the engine accepts it.  [None] is an error of the statement itself:
    unknown table, no tuple, a tuple of the wrong width, a key conflict
    on plain INSERT, a merge without the constraint. *)
Definition applyQuery (eng : Engine) (q : Query) (args : list Value)
    (d : Db) : option Db :=
  match q with
  | insertTemplate _ table header _ =>
      t ← d !! table;
      if bool_decide (header = [] ∨ args = [] ∨ (length args mod length header ≠ 0)%nat) then None
      else t' ← applyRows insertRow t
                  (toRow header <$> tuples (length args) (length header) args);
           Some (<[table := t']> d)
  | mergeTemplate _ table header _ _ _ =>
      t ← d !! table;
      if bool_decide (header = [] ∨ args = [] ∨ (length args mod length header ≠ 0)%nat) then None
      else t' ← applyRows mergeRow t
                  (toRow header <$> tuples (length args) (length header) args);
           Some (<[table := t']> d)
  | deleteQueryTemplate _ table condition =>
      t ← d !! table;
      Some (<[table := {| pkConstraint := pkConstraint t;
                          rows := filter (λ r, deleteMatches eng condition args r = false) (rows t) |}]> d)
  end.

(** *** Connection and transaction *)

(** What the connection saw, in order. *)
Inductive TxEvent :=
| EvBegin
| EvPrepare (q : Query) (ok : bool)
| EvExec (q : Query) (args : list Value) (ok : bool)
| EvRollback
| EvCommit (ok : bool).

(** [p.dataSource]: the committed database and the history of the
    connection. *)
Record Conn := {
  db : Db;
  events : list TxEvent
}.

(** Modelled from the spec: [Transaction], the wrapper around [*sql.Tx]
    declared in a sibling file ("a single transaction; commit on success,
    rollback on any row error").  It holds the uncommitted database. *)
Record Transaction := {
  work : Db;
  txEvents : list TxEvent
}.

(** [OpenTx] *)
Definition OpenTx (eng : Engine) (conn : Conn) : error + Transaction :=
  match beginFails eng with
  | Some err => inl err
  | None => inr {| work := db conn; txEvents := events conn ++ [EvBegin] |}
  end.

(** [wrappedTx.tx.PrepareContext] *)
Definition txPrepare (eng : Engine) (q : Query) (tx : Transaction)
    : option error * Transaction :=
  match prepareFails eng q with
  | Some err => (Some err, {| work := work tx; txEvents := txEvents tx ++ [EvPrepare q false] |})
  | None => (None, {| work := work tx; txEvents := txEvents tx ++ [EvPrepare q true] |})
  end.

(** [wrappedTx.tx.Exec] and [stmt.ExecContext] *)
Definition txExec (eng : Engine) (q : Query) (args : list Value)
    (tx : Transaction) : option error * Transaction :=
  match execFails eng q args with
  | Some err =>
      (Some err, {| work := work tx; txEvents := txEvents tx ++ [EvExec q args false] |})
  | None =>
      match applyQuery eng q args (work tx) with
      | None =>
          (Some (Errorf "statement refused by the engine"),
           {| work := work tx; txEvents := txEvents tx ++ [EvExec q args false] |})
      | Some d =>
          (None, {| work := d; txEvents := txEvents tx ++ [EvExec q args true] |})
      end
  end.

(** Modelled from the spec: [wrappedTx.Rollback()] drops the uncommitted
    database. *)
Definition Rollback (conn : Conn) (tx : Transaction) : Conn :=
  {| db := db conn; events := txEvents tx ++ [EvRollback] |}.

(** Modelled from the spec: [wrappedTx.DirectCommit()] makes the
    uncommitted database the committed one, unless the commit fails. *)
Definition DirectCommit (eng : Engine) (conn : Conn) (tx : Transaction)
    : option error * Conn :=
  match commitFails eng with
  | Some err => (Some err, {| db := db conn; events := txEvents tx ++ [EvCommit false] |})
  | None => (None, {| db := work tx; events := txEvents tx ++ [EvCommit true] |})
  end.


(** *** Reading the history of a connection *)


Definition succeeded (ev : TxEvent) : bool :=
  match ev with EvPrepare _ ok | EvExec _ _ ok => ok | _ => true end.

(** What an event did to the uncommitted database. *)
Definition effect (eng : Engine) (d : Db) (ev : TxEvent) : Db :=
  match ev with
  | EvExec q args true => default d (applyQuery eng q args d)
  | _ => d
  end.

Definition replay (eng : Engine) (evs : list TxEvent) (d : Db) : Db :=
  foldl (effect eng) d evs.

(** The values bound for a batch of rows, row after row. *)
Definition flatValues (header : list string) (batch : list Object) : list Value :=
  batch ≫= rowValues header.

(** A row as the table stores it: the columns of the header, nil where the
    object has no such key. *)
Definition stored (header : list string) (row : Object) : Object :=
  toRow header (rowValues header row).



(** *** The adapter's functions *)

Section WithHelpers.
Context `{Helpers} `{ErrorTexts}.

(** [castClause] (also written out in the loops of the bulk functions) *)
Definition castClause (p : Mysql) (field : string) : string :=
  match mappingTypeCasts p !! field with
  | Some castType => "::" +:+ castType
  | None => ""
  end.

(** The loop of [updateSectionMysql] over the split header. *)
Fixpoint updateSectionLoop (i : nat) (split : list string) (result : string) : string :=
  match split with
  | [] => result
  | columnName :: rest =>
      updateSectionLoop (S i) rest
        (TrimSpace result +:+ columnName +:+ "=$" +:+ pretty (i + 1)%nat +:+ ",")
  end.

(** [updateSectionMysql] *)
Definition updateSectionMysql (header : string) : string :=
  removeLastComma (updateSectionLoop 0 (SplitComma header) "").

(** [insertQuery]: "get insert statement or merge on conflict
    statement". *)
Definition insertQuery (p : Mysql) (pkFields : list string)
    (tableName : string) (header : list string) (placeholders : string) : Query :=
  if decide (len pkFields = 0)%Z
  then insertTemplate (Schema p) tableName header placeholders
  else mergeTemplate (Schema p) tableName header placeholders
         (buildConstraintName (Schema p) tableName)
         (updateSectionMysql (Join header ",")).

(** [executeInsert] *)
Definition executeInsert (eng : Engine) (p : Mysql) (wrappedTx : Transaction)
    (table : Table) (header : list string) (placeholdersBuilder : string)
    (valueArgs : list Value) : option error * Transaction :=
  let query := insertQuery p (GetPKFields table) (Name table) header
                 (removeLastComma placeholdersBuilder) in
  txExec eng query valueArgs wrappedTx.

(** The variables that [bulkInsertInTransaction] carries from one row to
    the next. *)
Record InsertLoop := {
  placeholdersBuilder : string;
  placeholdersCounter : nat;
  valueArgs : list Value
}.

Definition freshLoop : InsertLoop :=
  {| placeholdersBuilder := ""; placeholdersCounter := 1; valueArgs := [] |}.

(** The inner loop [for i, column := range header] of
    [bulkInsertInTransaction].  ([strings.Builder.WriteString] never
    returns an error, so the error returns after each write are dead.) *)
Fixpoint writeColumns (p : Mysql) (row : Object) (headerLen : Z) (i : Z)
    (columns : list string) (st : InsertLoop) : InsertLoop :=
  match columns with
  | [] => st
  | column :: rest =>
      let value := rowValue row column in
      let written := placeholdersBuilder st +:+
                     ("$" +:+ pretty (placeholdersCounter st) +:+ castClause p column) in
      let written := if decide (i < headerLen - 1)%Z then written +:+ "," else written in
      writeColumns p row headerLen (i + 1)%Z rest
        {| placeholdersBuilder := written;
           placeholdersCounter := S (placeholdersCounter st);
           valueArgs := valueArgs st ++ [value] |}
  end.

(** One row of the outer loop, after the flush test: "(", the columns,
    "),". *)
Definition writeRow (p : Mysql) (header : list string) (row : Object)
    (st : InsertLoop) : InsertLoop :=
  let opened := {| placeholdersBuilder := placeholdersBuilder st +:+ "(";
                   placeholdersCounter := placeholdersCounter st;
                   valueArgs := valueArgs st |} in
  let filled := writeColumns p row (len header) 0 header opened in
  {| placeholdersBuilder := placeholdersBuilder filled +:+ "),";
     placeholdersCounter := placeholdersCounter filled;
     valueArgs := valueArgs filled |}.

(** The outer loop [for _, row := range objects] of
    [bulkInsertInTransaction]. *)
Fixpoint insertRows (eng : Engine) (p : Mysql) (table : Table)
    (header : list string) (objects : list Object) (st : InsertLoop)
    (wrappedTx : Transaction) : option error * InsertLoop * Transaction :=
  match objects with
  | [] => (None, st, wrappedTx)
  | row :: rest =>
      if decide (len (valueArgs st) + len header > mysqlValuesLimit)%Z then
        match executeInsert eng p wrappedTx table header
                (placeholdersBuilder st) (valueArgs st) with
        | (Some err, tx') => (Some err, st, tx')
        | (None, tx') =>
            insertRows eng p table header rest (writeRow p header row freshLoop) tx'
        end
      else insertRows eng p table header rest (writeRow p header row st) wrappedTx
  end.

(** [bulkInsertInTransaction]: "Must be used when table has no primary
    keys. Inserts data in batches to improve performance." *)
Definition bulkInsertInTransaction (eng : Engine) (p : Mysql)
    (wrappedTx : Transaction) (table : Table) (objects : list Object)
    : option error * Transaction :=
  let header := columnNames table in
  match insertRows eng p table header objects freshLoop wrappedTx with
  | (Some err, _, tx') => (Some err, tx')
  | (None, st, tx') =>
      if decide (len (valueArgs st) > 0)%Z
      then executeInsert eng p tx' table header (placeholdersBuilder st) (valueArgs st)
      else (None, tx')
  end.

(** The first loop of [bulkMergeInTransaction]: "$1::type, $2::type, $3,
    etc". *)
Fixpoint mergePlaceholders (p : Mysql) (i : nat) (names : list string)
    (placeholders : string) : string :=
  match names with
  | [] => placeholders
  | name :: rest =>
      mergePlaceholders p (S i) rest
        (placeholders +:+ "$" +:+ pretty i +:+ castClause p name +:+ ",")
  end.

(** The second loop of [bulkMergeInTransaction]: one execution of the
    prepared statement per row. *)
Fixpoint mergeRows (eng : Engine) (table : Table) (query : Query)
    (header : list string) (objects : list Object) (wrappedTx : Transaction)
    : option error * Transaction :=
  match objects with
  | [] => (None, wrappedTx)
  | row :: rest =>
      match txExec eng query (rowValues header row) wrappedTx with
      | (Some err, tx') =>
          (Some (Wrap ("Error bulk inserting in " +:+ Name table +:+
                       " table with statement: ") err), tx')
      | (None, tx') => mergeRows eng table query header rest tx'
      end
  end.

(** [bulkMergeInTransaction]: "Must be used only if table has primary key
    fields. Slower than bulkInsert as each query executed separately." *)
Definition bulkMergeInTransaction (eng : Engine) (p : Mysql)
    (wrappedTx : Transaction) (table : Table) (objects : list Object)
    : option error * Transaction :=
  let header := columnNames table in
  let placeholders :=
    "(" +:+ removeLastComma (mergePlaceholders p 1 header "") +:+ ")" in
  let headerClause := Join header "," in
  let query := mergeTemplate (Schema p) (Name table) header placeholders
                 (buildConstraintName (Schema p) (Name table))
                 (updateSectionMysql headerClause) in
  match txPrepare eng query wrappedTx with
  | (Some err, tx') =>
      (Some (Wrap ("Error preparing bulk insert statement table " +:+
                   Name table +:+ " statement: ") err), tx')
  | (None, tx') => mergeRows eng table query header objects tx'
  end.

(** [bulkStoreInTransaction] *)
Definition bulkStoreInTransaction (eng : Engine) (p : Mysql)
    (wrappedTx : Transaction) (table : Table) (objects : list Object)
    : option error * Transaction :=
  if decide (Z.of_nat (size (PKFields table)) = 0)%Z
  then bulkInsertInTransaction eng p wrappedTx table objects
  else bulkMergeInTransaction eng p wrappedTx table objects.

(** [BulkInsert]: "insert objects into table in one transaction". *)
Definition BulkInsert (eng : Engine) (p : Mysql) (table : Table)
    (objects : list Object) (conn : Conn) : option error * Conn :=
  match OpenTx eng conn with
  | inl err => (Some err, conn)
  | inr wrappedTx =>
      match bulkStoreInTransaction eng p wrappedTx table objects with
      | (Some err, tx') => (Some err, Rollback conn tx')
      | (None, tx') => DirectCommit eng conn tx'
      end
  end.

(** [DeleteConditions], declared in a sibling file: the conditions, and
    the word that joins them. *)
Record DeleteCondition := {
  Field : string;
  Clause : string;
  CondValue : Value
}.

Record DeleteConditions := {
  Conditions : list DeleteCondition;
  JoinCondition : string
}.

(** [deleteConditions.IsEmpty()] *)
Definition IsEmpty (dc : DeleteConditions) : bool :=
  bool_decide (len (Conditions dc) = 0)%Z.

(** The loop of [toDeleteQuery]. *)
Fixpoint deleteClauses (p : Mysql) (i : nat) (conditions : list DeleteCondition)
    : list string * list Value :=
  match conditions with
  | [] => ([], [])
  | condition :: rest =>
      let '(queryConditions, values) := deleteClauses p (S i) rest in
      ((Field condition +:+ " " +:+ Clause condition +:+ " $" +:+
        pretty (i + 1)%nat +:+ castClause p (Field condition)) :: queryConditions,
       CondValue condition :: values)
  end.

(** [toDeleteQuery] *)
Definition toDeleteQuery (p : Mysql) (conditions : DeleteConditions)
    : string * list Value :=
  let '(queryConditions, values) := deleteClauses p 0 (Conditions conditions) in
  (Join queryConditions (JoinCondition conditions), values).

(** [deleteInTransaction] *)
Definition deleteInTransaction (eng : Engine) (p : Mysql)
    (wrappedTx : Transaction) (table : Table)
    (deleteConditions : DeleteConditions) : option error * Transaction :=
  let '(deleteCondition, values) := toDeleteQuery p deleteConditions in
  let query := deleteQueryTemplate (Schema p) (Name table) deleteCondition in
  match txPrepare eng query wrappedTx with
  | (Some err, tx') =>
      (Some (Wrap ("Error preparing delete table " +:+ Name table +:+
                   " statement: ") err), tx')
  | (None, tx') =>
      match txExec eng query values tx' with
      | (Some err, tx'') =>
          (Some (Wrap "Error deleting using query, error: " err), tx'')
      | (None, tx'') => (None, tx'')
      end
  end.

(** [BulkUpdate] *)
Definition BulkUpdate (eng : Engine) (p : Mysql) (table : Table)
    (objects : list Object) (deleteConditions : DeleteConditions)
    (conn : Conn) : option error * Conn :=
  match OpenTx eng conn with
  | inl err => (Some err, conn)
  | inr wrappedTx =>
      let deleted :=
        if negb (IsEmpty deleteConditions)
        then deleteInTransaction eng p wrappedTx table deleteConditions
        else (None, wrappedTx) in
      match deleted with
      | (Some err, tx') => (Some err, Rollback conn tx')
      | (None, tx') =>
          match bulkStoreInTransaction eng p tx' table objects with
          | (Some err, tx'') => (Some err, Rollback conn tx'')
          | (None, tx'') => DirectCommit eng conn tx''
          end
      end
  end.
(** The statement [bulkMergeInTransaction] prepares: the merge template
    with the constraint name of the table. *)
Definition mergeQuery (p : Mysql) (table : Table) : Query :=
  mergeTemplate (Schema p) (Name table) (columnNames table)
    ("(" +:+ removeLastComma (mergePlaceholders p 1 (columnNames table) "") +:+ ")")
    (buildConstraintName (Schema p) (Name table))
    (updateSectionMysql (Join (columnNames table) ",")).

(** [ev] is the execution of the statement [executeInsert] builds for the
    rows of [batch]. *)
Definition insertEvent (p : Mysql) (table : Table) (header : list string)
    (ev : TxEvent) (batch : list Object) : Prop :=
  ∃ placeholders ok,
    ev = EvExec (insertQuery p (GetPKFields table) (Name table) header placeholders)
           (flatValues header batch) ok.
End WithHelpers.

End Adapters.

(* --------------------------------------------------------------------- *)
(** ** package storages: streaming worker and Postgres storage            *)
(* --------------------------------------------------------------------- *)

Module Storages.

(** [schema.BatchHeader] *)
Record BatchHeader := {
  TableName : string;
  Fields : gmap string string
}.

(** Modelled from the spec: [batchHeader.Exists()], declared in package
    schema ("the derived header has zero fields"). *)
Definition Exists (batchHeader : BatchHeader) : bool :=
  negb (bool_decide (size (Fields batchHeader) = 0%nat)).

(** [events.FailedEvent]; the field [Error] is spelt [ErrorText] here. *)
Record FailedEvent := {
  Event : string;
  ErrorText : string;
  EventID : string
}.

(** [schema.ProcessedFile]: the rows of one table of a file. *)
Record ProcessedFile := {
  Header : BatchHeader;
  GetPayload : list Object
}.

Definition GetPayloadLen (fdata : ProcessedFile) : Z := len (GetPayload fdata).

(** [StoreResult] *)
Record StoreResult := {
  Err : option error;
  RowsCount : Z
}.

(** Functions of packages events and storages that are declared outside
    the files at hand. *)
Class EventHelpers := {
  Serialize : Object → string;
  ExtractEventID : Object → string;
  linesCount : string → Z
}.

(** [schema.Processor], by what its two entry points return. *)
Record Processor := {
  ProcessEvent : Object → error + (BatchHeader * Object);
  ProcessFilePayload :
    string → string → gmap string bool → (string → error + Object) →
    error + (list ProcessedFile * list FailedEvent)
}.

(** One entry of [caching.EventsCache]. *)
Inductive CacheEntry :=
| CacheError (destination eventID errorText : string)
| CacheSucceed (destination eventID : string) (object : Object)
    (table : Adapters.Table).

(** Calls into packages counters and metrics. *)
Inductive Telemetry :=
| counters_SkipEvents (destination : string) (n : Z)
| counters_ErrorEvents (destination : string) (n : Z)
| counters_SuccessEvents (destination : string) (n : Z)
| metrics_ErrorTokenEvent (tokenID destination : string)
| metrics_SuccessTokenEvent (tokenID destination : string).

(** Modelled from the spec: [events.PersistentQueue] ("QueuedEvent:
    {payload, notBefore, tokenId}", "durable FIFO"). *)
Record QueuedEvent := {
  payload : Object;
  notBefore : Time;
  tokenId : string
}.

Record PersistentQueue := {
  items : list QueuedEvent;
  queueClosed : bool
}.

Inductive Dequeued :=
| DequeueWaits
| DequeueFails (err : error)
| DequeueGives (fact : Object) (dequeuedTime : Time) (tokenID : string)
    (rest : PersistentQueue).

(** Modelled from the spec: [DequeueBlock] takes the oldest item, waits on
    an empty queue and fails on a closed one. *)
Definition DequeueBlock (q : PersistentQueue) : Dequeued :=
  if queueClosed q then DequeueFails ErrQueueClosed
  else match items q with
       | [] => DequeueWaits
       | item :: rest =>
           DequeueGives (payload item) (notBefore item) (tokenId item)
             {| items := rest; queueClosed := queueClosed q |}
       end.

(** Modelled from the spec: [ConsumeTimed] ("re-enqueue with delay"). *)
Definition ConsumeTimed (fact : Object) (t : Time) (tokenID : string)
    (q : PersistentQueue) : PersistentQueue :=
  {| items := items q ++ [{| payload := fact; notBefore := t; tokenId := tokenID |}];
     queueClosed := queueClosed q |}.

(** The calls a storage makes into its table helper and its adapter, each
    with the error it returned. *)
Inductive Call :=
| CallEnsureTable (destination : string) (table : Adapters.Table)
    (err : option error)
| CallRefreshTableSchema (destination : string) (table : Adapters.Table)
    (err : option error)
| CallInsert (table : Adapters.Table) (event : Object) (err : option error)
| CallBulkInsert (table : Adapters.Table) (objects : list Object)
    (err : option error).

Definition isCallInsert (c : Call) : bool :=
  match c with CallInsert _ _ _ => true | _ => false end.

(** The error of a call that returns a value and an error. *)
Definition errOf {A} (r : error + A) : option error :=
  match r with inl err => Some err | inr _ => None end.

(** Everything a worker and its storage can change.  [sink] is the state
    behind the table helper and the adapter: the live tables and the
    cached schemas. *)
Record World (S : Type) := {
  eventQueue : PersistentQueue;
  fallbackLogger : list FailedEvent;
  eventsCache : list CacheEntry;
  telemetry : list Telemetry;
  archiveLogger : list (Object * string);
  sink : S;
  calls : list Call;
  closed : bool
}.
Arguments eventQueue {S}.
Arguments fallbackLogger {S}.
Arguments eventsCache {S}.
Arguments telemetry {S}.
Arguments archiveLogger {S}.
Arguments sink {S}.
Arguments calls {S}.
Arguments closed {S}.

Section Updates.
Context {S : Type}.

Definition setQueue (q : PersistentQueue) (w : World S) : World S :=
  {| eventQueue := q; fallbackLogger := fallbackLogger w;
     eventsCache := eventsCache w; telemetry := telemetry w;
     archiveLogger := archiveLogger w; sink := sink w; calls := calls w;
     closed := closed w |}.

(** [fallbackLogger.ConsumeAny(failedEvent)] *)
Definition ConsumeAny (failedEvent : FailedEvent) (w : World S) : World S :=
  {| eventQueue := eventQueue w;
     fallbackLogger := fallbackLogger w ++ [failedEvent];
     eventsCache := eventsCache w; telemetry := telemetry w;
     archiveLogger := archiveLogger w; sink := sink w; calls := calls w;
     closed := closed w |}.

Definition cache (entry : CacheEntry) (w : World S) : World S :=
  {| eventQueue := eventQueue w; fallbackLogger := fallbackLogger w;
     eventsCache := eventsCache w ++ [entry]; telemetry := telemetry w;
     archiveLogger := archiveLogger w; sink := sink w; calls := calls w;
     closed := closed w |}.

Definition tell (t : Telemetry) (w : World S) : World S :=
  {| eventQueue := eventQueue w; fallbackLogger := fallbackLogger w;
     eventsCache := eventsCache w; telemetry := telemetry w ++ [t];
     archiveLogger := archiveLogger w; sink := sink w; calls := calls w;
     closed := closed w |}.

(** [archiveLogger.Consume(fact, tokenID)] *)
Definition archive (fact : Object) (tokenID : string) (w : World S) : World S :=
  {| eventQueue := eventQueue w; fallbackLogger := fallbackLogger w;
     eventsCache := eventsCache w; telemetry := telemetry w;
     archiveLogger := archiveLogger w ++ [(fact, tokenID)];
     sink := sink w; calls := calls w; closed := closed w |}.

Definition called (s : S) (c : Call) (w : World S) : World S :=
  {| eventQueue := eventQueue w; fallbackLogger := fallbackLogger w;
     eventsCache := eventsCache w; telemetry := telemetry w;
     archiveLogger := archiveLogger w; sink := s; calls := calls w ++ [c];
     closed := closed w |}.
End Updates.

(** *** The Postgres storage *)

(** The table helper and the adapter of a storage, acting on the sink. *)
Record Backend (S : Type) := {
  MapTableSchema : BatchHeader → Adapters.Table;
  EnsureTable : string → Adapters.Table → S → (error + Adapters.Table) * S;
  RefreshTableSchema : string → Adapters.Table → S → (error + Adapters.Table) * S;
  adapter_Insert : Adapters.Table → Object → S → option error * S;
  adapter_BulkInsert : Adapters.Table → list Object → S → option error * S
}.
Arguments MapTableSchema {S}.
Arguments EnsureTable {S}.
Arguments RefreshTableSchema {S}.
Arguments adapter_Insert {S}.
Arguments adapter_BulkInsert {S}.

(** The fields of [Postgres] that the functions below read. *)
Record Postgres (S : Type) := {
  name : string;
  staged : bool;
  backend : Backend S;
  processor : Processor
}.
Arguments name {S}.
Arguments staged {S}.
Arguments backend {S}.
Arguments processor {S}.

Section PostgresStorage.
Context {S : Type} `{EventHelpers} `{ErrorTexts}.

(** [p.tableHelper.EnsureTable(p.Name(), table)] *)
Definition tableHelper_EnsureTable (p : Postgres S) (table : Adapters.Table)
    (w : World S) : (error + Adapters.Table) * World S :=
  let '(r, s) := EnsureTable (backend p) (name p) table (sink w) in
  (r, called s (CallEnsureTable (name p) table (errOf r)) w).

(** [p.tableHelper.RefreshTableSchema(p.Name(), table)] *)
Definition tableHelper_RefreshTableSchema (p : Postgres S)
    (table : Adapters.Table) (w : World S) : (error + Adapters.Table) * World S :=
  let '(r, s) := RefreshTableSchema (backend p) (name p) table (sink w) in
  (r, called s (CallRefreshTableSchema (name p) table (errOf r)) w).

(** [p.adapter.Insert(dbTable, event)] *)
Definition adapterInsert (p : Postgres S) (dbTable : Adapters.Table)
    (event : Object) (w : World S) : option error * World S :=
  let '(r, s) := adapter_Insert (backend p) dbTable event (sink w) in
  (r, called s (CallInsert dbTable event r) w).

(** [p.adapter.BulkInsert(dbSchema, objects)] *)
Definition adapterBulkInsert (p : Postgres S) (dbSchema : Adapters.Table)
    (objects : list Object) (w : World S) : option error * World S :=
  let '(r, s) := adapter_BulkInsert (backend p) dbSchema objects (sink w) in
  (r, called s (CallBulkInsert dbSchema objects r) w).

(** [Postgres.Insert]: "Insert event in Postgres (1 retry if error)". *)
Definition Insert (p : Postgres S) (table : Adapters.Table) (event : Object)
    (w : World S) : option error * World S :=
  match tableHelper_EnsureTable p table w with
  | (inl err, w1) => (Some err, w1)
  | (inr dbTable, w1) =>
      match adapterInsert p dbTable event w1 with
      | (None, w2) => (None, w2)
      | (Some _, w2) =>
          (* renew current db schema and retry *)
          match tableHelper_RefreshTableSchema p table w2 with
          | (inl err, w3) => (Some err, w3)
          | (inr _, w3) =>
              match tableHelper_EnsureTable p table w3 with
              | (inl err, w4) => (Some err, w4)
              | (inr dbTable', w4) => adapterInsert p dbTable' event w4
              end
          end
      end
  end.

(** [Postgres.Fallback]: "log event with error to fallback logger". *)
Definition Fallback (failedEvents : list FailedEvent) (w : World S) : World S :=
  foldl (λ w failedEvent, ConsumeAny failedEvent w) w failedEvents.

(** [storeTable]: "check table schema and store data into one table". *)
Definition storeTable (p : Postgres S) (fdata : ProcessedFile)
    (table : Adapters.Table) (w : World S) : option error * World S :=
  match tableHelper_EnsureTable p table w with
  | (inl err, w1) => (Some err, w1)
  | (inr dbSchema, w1) => adapterBulkInsert p dbSchema (GetPayload fdata) w1
  end.

(** The "events cache" loop over the rows of one table. *)
Definition cacheRows (p : Postgres S) (err : option error)
    (table : Adapters.Table) (objects : list Object) (w : World S) : World S :=
  foldl (λ w object,
           match err with
           | Some e => cache (CacheError (name p) (ExtractEventID object) (Error e)) w
           | None => cache (CacheSucceed (name p) (ExtractEventID object) object table) w
           end) w objects.

(** The loop [for _, fdata := range flatData] of [StoreWithParseFunc],
    carrying [storeFailedEvents] and [tableResults]. *)
Fixpoint storeTables (p : Postgres S) (flatData : list ProcessedFile)
    (storeFailedEvents : bool) (tableResults : gmap string StoreResult)
    (w : World S) : bool * gmap string StoreResult * World S :=
  match flatData with
  | [] => (storeFailedEvents, tableResults, w)
  | fdata :: rest =>
      let table := MapTableSchema (backend p) (Header fdata) in
      let '(err, w1) := storeTable p fdata table w in
      let tableResults' :=
        <[Adapters.Name table := {| Err := err; RowsCount := GetPayloadLen fdata |}]>
          tableResults in
      let storeFailedEvents' :=
        match err with Some _ => false | None => storeFailedEvents end in
      storeTables p rest storeFailedEvents' tableResults'
        (cacheRows p err table (GetPayload fdata) w1)
  end.

(** "update cache with failed events" *)
Definition cacheFailedEvents (p : Postgres S) (failedEvents : list FailedEvent)
    (w : World S) : World S :=
  foldl (λ w failedEvent,
           cache (CacheError (name p) (EventID failedEvent) (ErrorText failedEvent)) w)
    w failedEvents.

(** [StoreWithParseFunc]: "return result per table, failed events count
    and err if occurred". *)
Definition StoreWithParseFunc (p : Postgres S) (fileName payload : string)
    (alreadyUploadedTables : gmap string bool)
    (parseFunc : string → error + Object) (w : World S)
    : (gmap string StoreResult * Z * option error) * World S :=
  match ProcessFilePayload (processor p) fileName payload
          alreadyUploadedTables parseFunc with
  | inl err => ((∅, linesCount payload, Some err), w)
  | inr (flatData, failedEvents) =>
      (* update cache with failed events *)
      let w1 := cacheFailedEvents p failedEvents w in
      let '(storeFailedEvents, tableResults, w2) :=
        storeTables p flatData true ∅ w1 in
      (* store failed events to fallback only if other events have been
         inserted ok *)
      let w3 := if storeFailedEvents then Fallback failedEvents w2 else w2 in
      ((tableResults, len failedEvents, None), w3)
  end.

(** *** Reading a run of the storage *)

(** The error each call of [storeTable] returned while [storeTables] went
    through [flatData], in order. *)
Fixpoint storeErrors (p : Postgres S) (flatData : list ProcessedFile)
    (w : World S) : list (option error) :=
  match flatData with
  | [] => []
  | fdata :: rest =>
      let table := MapTableSchema (backend p) (Header fdata) in
      let '(err, w1) := storeTable p fdata table w in
      err :: storeErrors p rest (cacheRows p err table (GetPayload fdata) w1)
  end.

(** The name of the table a group of rows goes to. *)
Definition tableOf (p : Postgres S) (fdata : ProcessedFile) : string :=
  Adapters.Name (MapTableSchema (backend p) (Header fdata)).

(** The results map after the loop: one entry per group, a later group
    writing over an earlier one of the same table. *)
Definition recorded (p : Postgres S) (tableResults : gmap string StoreResult)
    (flatData : list ProcessedFile) (errors : list (option error))
    : gmap string StoreResult :=
  foldl (λ m ge, <[tableOf p ge.1 := {| Err := ge.2; RowsCount := GetPayloadLen ge.1 |}]> m)
    tableResults (zip flatData errors).

(** The five ways [Insert] can go, by the calls it makes and the error it
    returns. *)
Definition insert_trace (p : Postgres S) (table : Adapters.Table) (event : Object)
    (result : option error) (trace : list Call) : Prop :=
  (∃ e, trace = [CallEnsureTable (name p) table (Some e)] ∧ result = Some e) ∨
  (∃ dbTable,
      trace = [CallEnsureTable (name p) table None; CallInsert dbTable event None] ∧
      result = None) ∨
  (∃ dbTable e1 e,
      trace = [CallEnsureTable (name p) table None;
               CallInsert dbTable event (Some e1);
               CallRefreshTableSchema (name p) table (Some e)] ∧
      result = Some e) ∨
  (∃ dbTable e1 e,
      trace = [CallEnsureTable (name p) table None;
               CallInsert dbTable event (Some e1);
               CallRefreshTableSchema (name p) table None;
               CallEnsureTable (name p) table (Some e)] ∧
      result = Some e) ∨
  (∃ dbTable e1 dbTable',
      trace = [CallEnsureTable (name p) table None;
               CallInsert dbTable event (Some e1);
               CallRefreshTableSchema (name p) table None;
               CallEnsureTable (name p) table None;
               CallInsert dbTable' event result]).
End PostgresStorage.

(** The parts of the world that a call into the table helper or the
    adapter leaves alone. *)
Definition untouched {S} (w w' : World S) : Prop :=
  eventQueue w' = eventQueue w ∧ fallbackLogger w' = fallbackLogger w ∧
  eventsCache w' = eventsCache w ∧ telemetry w' = telemetry w ∧
  archiveLogger w' = archiveLogger w ∧ closed w' = closed w.

(** *** The streaming worker *)

(** [StreamingStorage]: the interface the worker drives. *)
Record StreamingStorage (S : Type) := {
  Name : string;
  IsStaging : bool;
  storage_Insert : Adapters.Table → Object → World S → option error * World S;
  storage_Fallback : list FailedEvent → World S → World S
}.
Arguments Name {S}.
Arguments IsStaging {S}.
Arguments storage_Insert {S}.
Arguments storage_Fallback {S}.

(** [StreamingWorker].  Its queue, events cache, archive logger and
    [closed] flag are fields of the [World]. *)
Record StreamingWorker (S : Type) := {
  worker_processor : Processor;
  streamingStorage : StreamingStorage S;
  tableHelper : list (BatchHeader → Adapters.Table)
}.
Arguments worker_processor {S}.
Arguments streamingStorage {S}.
Arguments tableHelper {S}.

(** What one pass of the loop cannot decide itself: the two readings of
    [time.Now()] and the draw of [rand.Intn]. *)
Record Draw := {
  nowAtDequeue : Time;
  nowAtRequeue : Time;
  helperDraw : nat
}.

(** How one pass of the [for] loop ends. *)
Inductive Step := Break | Continue | Waits | Panics.

(** The transient set as the specification words it: "connection refused,
    EOF, broken pipe, deadline exceeded, connection reset". *)
Definition specTransient (text : string) : bool :=
  Contains text "connection refused" ||
  Contains text "EOF" ||
  Contains text "broken pipe" ||
  Contains text "deadline exceeded" ||
  Contains text "connection reset".

(** The condition of the [if] on the error of [Insert]. *)
Definition isTransient (text : string) : bool :=
  Contains text "connection refused" ||
  Contains text "EOF" ||
  Contains text "write: broken pipe" ||
  Contains text "context deadline exceeded" ||
  Contains text "connection reset by peer".

Section Worker.
Context {S : Type} `{EventHelpers} `{ErrorTexts}.

(** The [Postgres] storage as a [StreamingStorage]. *)
Definition asStreaming (p : Postgres S) : StreamingStorage S :=
  {| Name := name p; IsStaging := staged p;
     storage_Insert := Insert p; storage_Fallback := Fallback |}.

(** [newStreamingWorker], as [NewPostgres] calls it. *)
Definition newStreamingWorker (p : Postgres S) : StreamingWorker S :=
  {| worker_processor := processor p;
     streamingStorage := asStreaming p;
     tableHelper := [MapTableSchema (backend p)] |}.

(** [getTableHelper]: [rand.Intn] panics on an empty list. *)
Definition getTableHelper (sw : StreamingWorker S) (draw : nat)
    : option (BatchHeader → Adapters.Table) :=
  match tableHelper sw with
  | [] => None
  | helpers => helpers !! (draw mod length helpers)%nat
  end.

(** The branch taken when [ProcessEvent] returns an error. *)
Definition onProcessError (sw : StreamingWorker S) (fact : Object)
    (tokenID : string) (err : error) (w : World S) : World S :=
  let storage := streamingStorage sw in
  let w1 :=
    if is_sentinel SkipObject err
    then tell (counters_SkipEvents (Name storage) 1) w
    else
      let serialized := Serialize fact in
      storage_Fallback storage
        [{| Event := serialized; ErrorText := Error err;
            EventID := ExtractEventID fact |}]
        (tell (counters_ErrorEvents (Name storage) 1)
           (tell (metrics_ErrorTokenEvent tokenID (Name storage)) w)) in
  cache (CacheError (Name storage) (ExtractEventID fact) (Error err)) w1.

(** The branch taken when [Insert] returns an error. *)
Definition onInsertError (sw : StreamingWorker S) (fact flattenObject : Object)
    (tokenID : string) (now : Time) (err : error) (w : World S) : World S :=
  let storage := streamingStorage sw in
  let w1 :=
    if isTransient (Error err)
    then setQueue (ConsumeTimed fact (now + 20 * Second)%Z tokenID (eventQueue w)) w
    else storage_Fallback storage
           [{| Event := Serialize fact; ErrorText := Error err;
               EventID := ExtractEventID flattenObject |}] w in
  tell (metrics_ErrorTokenEvent tokenID (Name storage))
    (cache (CacheError (Name storage) (ExtractEventID fact) (Error err))
       (tell (counters_ErrorEvents (Name storage) 1) w1)).

(** The statements after a successful [Insert]. *)
Definition onInsertSuccess (sw : StreamingWorker S) (fact flattenObject : Object)
    (table : Adapters.Table) (tokenID : string) (w : World S) : World S :=
  let storage := streamingStorage sw in
  archive fact tokenID
    (tell (metrics_SuccessTokenEvent tokenID (Name storage))
       (cache (CacheSucceed (Name storage) (ExtractEventID fact) flattenObject table)
          (tell (counters_SuccessEvents (Name storage) 1) w))).

(** One pass of the [for] loop of [start]. *)
Definition iteration (sw : StreamingWorker S) (d : Draw) (w : World S)
    : Step * World S :=
  if IsStaging (streamingStorage sw) then (Break, w)
  else if closed w then (Break, w)
  else
    match DequeueBlock (eventQueue w) with
    | DequeueWaits => (Waits, w)
    | DequeueFails _ => (Continue, w)
    | DequeueGives fact dequeuedTime tokenID rest =>
        let w0 := setQueue rest w in
        (* dequeued event was from retry call and retry timeout hasn't come *)
        if (nowAtDequeue d <? dequeuedTime)%Z
        then (Continue,
              setQueue (ConsumeTimed fact dequeuedTime tokenID (eventQueue w0)) w0)
        else
          match ProcessEvent (worker_processor sw) fact with
          | inl err => (Continue, onProcessError sw fact tokenID err w0)
          | inr (batchHeader, flattenObject) =>
              (* don't process empty object *)
              if negb (Exists batchHeader) then (Continue, w0)
              else
                match getTableHelper sw (helperDraw d) with
                | None => (Panics, w0)
                | Some helper =>
                    let table := helper batchHeader in
                    match storage_Insert (streamingStorage sw) table flattenObject w0 with
                    | (Some err, w1) =>
                        (Continue,
                         onInsertError sw fact flattenObject tokenID
                           (nowAtRequeue d) err w1)
                    | (None, w1) =>
                        (Continue,
                         onInsertSuccess sw fact flattenObject table tokenID w1)
                    end
                end
          end
    end.

(** How a run of the loop stands after the draws given to it. *)
Inductive Run := Exited | Waiting | Panicked | Running.

(** [start]: the loop, one pass per draw. *)
Fixpoint start (sw : StreamingWorker S) (draws : list Draw) (w : World S)
    : Run * World S :=
  match draws with
  | [] => (Running, w)
  | d :: rest =>
      match iteration sw d w with
      | (Break, w') => (Exited, w')
      | (Continue, w') => start sw rest w'
      | (Waits, w') => (Waiting, w')
      | (Panics, w') => (Panicked, w')
      end
  end.
End Worker.

End Storages.

(* --------------------------------------------------------------------- *)
(** ** package fallback: replay of a fallback file                        *)
(* --------------------------------------------------------------------- *)

Module Fallback.

Definition fallbackIdentifier : string := "fallback".

(** Go library functions and package functions declared elsewhere:
    [path.Join], [filepath.Base], the result of
    [destinationIDExtractRegexp.FindStringSubmatch], and the two parsers
    of package parsers. *)
Class Library := {
  path_Join : string → string → string;
  filepath_Base : string → string;
  FindStringSubmatch : string → list string;
  ParseFallbackJSON : string → error + Object;
  ParseJSON : string → error + Object
}.

(** Modelled from the spec: one entry of [logfiles.StatusManager]
    ("per-file table-level progress across retries"). *)
Record TableStatus := {
  Uploaded : bool;
  StatusErr : string
}.

(** Calls into package metrics. *)
Inductive Metric :=
| ErrorTokenEvents (tokenID destination : string) (n : Z)
| SuccessTokenEvents (tokenID destination : string) (n : Z).

Section WithStorages.
(** [W] is the state of the storages behind the destinations. *)
Context {W : Type} `{Library} `{ErrorTexts}.

(** The methods of the [Storage] interface that [Replay] calls. *)
Record Storage := {
  Name : string;
  IsStaging : bool;
  StoreWithParseFunc :
    string → string → gmap string bool → (string → error + Object) → W →
    (gmap string Storages.StoreResult * Z * option error) * W
}.

(** What [Service] holds and what [Replay] reaches through it: the lock
    map, the status manager (file, then destination, then table), the
    destinations (a proxy is [None] until its storage is initialised),
    the files on disk by path, the paths the archiver moved away, and
    the metrics reported. *)
Record Service := {
  fallbackDir : string;
  locks : gset string;
  statusManager : gmap string (gmap string (gmap string TableStatus));
  destinationService : gmap string (option Storage);
  files : gmap string string;
  archived : list string;
  metrics : list Metric
}.

Definition setLocks (l : gset string) (s : Service) : Service :=
  {| fallbackDir := fallbackDir s; locks := l;
     statusManager := statusManager s;
     destinationService := destinationService s; files := files s;
     archived := archived s; metrics := metrics s |}.

Definition report (m : Metric) (s : Service) : Service :=
  {| fallbackDir := fallbackDir s; locks := locks s;
     statusManager := statusManager s;
     destinationService := destinationService s; files := files s;
     archived := archived s; metrics := metrics s ++ [m] |}.

Definition setStatuses (m : gmap string (gmap string (gmap string TableStatus)))
    (s : Service) : Service :=
  {| fallbackDir := fallbackDir s; locks := locks s; statusManager := m;
     destinationService := destinationService s; files := files s;
     archived := archived s; metrics := metrics s |}.

(** Modelled from the spec: [statusManager.GetTablesStatuses]. *)
Definition GetTablesStatuses (s : Service) (fileName destinationID : string)
    : gmap string TableStatus :=
  default ∅ (default ∅ (statusManager s !! fileName) !! destinationID).

(** Modelled from the spec: [statusManager.UpdateStatus] ("updates
    per-table status"): the table is uploaded when [err] is nil. *)
Definition UpdateStatus (fileName destinationID tableName : string)
    (err : option error) (s : Service) : Service :=
  let ofFile := default ∅ (statusManager s !! fileName) in
  let ofDestination := default ∅ (ofFile !! destinationID) in
  let status :=
    match err with
    | None => {| Uploaded := true; StatusErr := "" |}
    | Some e => {| Uploaded := false; StatusErr := Error e |}
    end in
  setStatuses
    (<[fileName := <[destinationID := <[tableName := status]> ofDestination]> ofFile]>
       (statusManager s)) s.

(** Modelled from the spec: [statusManager.CleanUp]. *)
Definition CleanUp (fileName : string) (s : Service) : Service :=
  setStatuses (delete fileName (statusManager s)) s.

(** Modelled from the spec: [archiver.ArchiveByPath] moves the file out
    of the fallback directory, or fails and leaves it. *)
Definition ArchiveByPath (archiveFails : option error) (filePath : string)
    (s : Service) : option error * Service :=
  match archiveFails with
  | Some err => (Some err, s)
  | None =>
      (None,
       {| fallbackDir := fallbackDir s; locks := locks s;
          statusManager := statusManager s;
          destinationService := destinationService s;
          files := delete filePath (files s);
          archived := archived s ++ [filePath]; metrics := metrics s |})
  end.

(** "handle absolute and local path": the path to read and the name the
    file goes by from there on. *)
Definition locate (s : Service) (fileName : string) : string * string :=
  if HasPrefix fileName "/"
  then (fileName, filepath_Base fileName)
  else (path_Join (fallbackDir s) fileName, fileName).

(** The destination a replay goes to: the one named, or, "get
    destinationID from filename", the one the file name encodes. *)
Definition targetID (destinationID fileName : string) : error + string :=
  if decide (destinationID = "") then
    match FindStringSubmatch fileName with
    | [_; found] => inr found
    | _ => inl (Errorf ("Error processing fallback file " +:+ fileName +:+
                        ": Malformed name"))
    end
  else inr destinationID.

(** [parserFunc]: the fallback envelope parser, or the plain one for a raw
    file. *)
Definition parserFor (rawFile : bool) : string → error + Object :=
  if rawFile then ParseJSON else ParseFallbackJSON.

(** The loop that turns the statuses into [alreadyUploadedTables]. *)
Definition alreadyUploaded (tableStatuses : gmap string TableStatus)
    : gmap string bool :=
  (λ _, true) <$> filter (λ kv, Uploaded kv.2 = true) tableStatuses.

(** The body of the loop over [resultPerTable]. *)
Definition recordResult (fileName storageName : string)
    (acc : option error * Service) (entry : string * Storages.StoreResult)
    : option error * Service :=
  let '(multiErr, s) := acc in
  let '(tableName, result) := entry in
  let '(multiErr', s1) :=
    match Storages.Err result with
    | Some e =>
        (multierror_Append multiErr e,
         report (ErrorTokenEvents fallbackIdentifier storageName
                   (Storages.RowsCount result)) s)
    | None =>
        (multiErr,
         report (SuccessTokenEvents fallbackIdentifier storageName
                   (Storages.RowsCount result)) s)
    end in
  (multiErr', UpdateStatus fileName storageName tableName (Storages.Err result) s1).

(** The status [UpdateStatus] writes for a result. *)
Definition statusOf (err : option error) : TableStatus :=
  match err with
  | None => {| Uploaded := true; StatusErr := "" |}
  | Some e => {| Uploaded := false; StatusErr := Error e |}
  end.

(** The errors among the results of the tables, in the order of the loop
    over them. *)
Definition failures (entries : list (string * Storages.StoreResult)) : list error :=
  omap (λ entry, Storages.Err entry.2) entries.

(** [Replay] from the point where the lock is held. *)
Definition replayLocked (archiveFails : option error)
    (filePath fileName destinationID : string) (rawFile : bool)
    (s : Service) (w : W) : option error * Service * W :=
  match files s !! filePath with
  | None => (Some (Errorf ("Error reading fallback file [" +:+ fileName +:+ "]")), s, w)
  | Some b =>
      match targetID destinationID fileName with
      | inl err => (Some err, s, w)
      | inr destinationID =>
          match destinationService s !! destinationID with
          | None =>
              (Some (Errorf ("Destination [" +:+ destinationID +:+ "] wasn't found")), s, w)
          | Some None =>
              (Some (Errorf ("Destination [" +:+ destinationID +:+
                             "] hasn't been initialized yet")), s, w)
          | Some (Some storage) =>
              if IsStaging storage then
                (Some (Errorf ("Error running fallback for destination [" +:+
                               destinationID +:+ "] in staged mode, " +:+
                               "cannot be used to store data (only available for dry-run)")),
                 s, w)
              else
                let tableStatuses := GetTablesStatuses s fileName (Name storage) in
                let alreadyUploadedTables := alreadyUploaded tableStatuses in
                let parserFunc := parserFor rawFile in
                let '(resultPerTable, errRowsCount, err, w1) :=
                  StoreWithParseFunc storage fileName b alreadyUploadedTables
                    parserFunc w in
                let s1 :=
                  if decide (errRowsCount > 0)%Z
                  then report (ErrorTokenEvents fallbackIdentifier (Name storage)
                                 errRowsCount) s
                  else s in
                match err with
                | Some e =>
                    (Some (Wrap ("[" +:+ Name storage +:+ "] Error storing fallback file " +:+
                                 fileName +:+ " in destination: ") e), s1, w1)
                | None =>
                    let '(multiErr, s2) :=
                      foldl (recordResult fileName (Name storage)) (None, s1)
                        (map_to_list resultPerTable) in
                    match multiErr with
                    | None =>
                        match ArchiveByPath archiveFails filePath s2 with
                        | (Some _, s3) => (None, s3, w1)
                        | (None, s3) => (None, CleanUp fileName s3, w1)
                        end
                    | Some _ => (multiErr, s2, w1)
                    end
                end
          end
      end
  end.

(** [Replay]: the per-file lock around [replayLocked]; the deferred
    [s.locks.Delete(fileName)] runs on every way out. *)
Definition Replay (archiveFails : option error)
    (fileName destinationID : string) (rawFile : bool)
    (s : Service) (w : W) : option error * Service * W :=
  if decide (fileName = "") then (Some (Errorf "File name can't be empty"), s, w)
  else
    let '(filePath, fileName) := locate s fileName in
    if decide (fileName ∈ locks s) then
      (Some (Errorf ("File [" +:+ fileName +:+ "] is being processed")), s, w)
    else
      let '(result, s', w') :=
        replayLocked archiveFails filePath fileName destinationID rawFile
          (setLocks ({[fileName]} ∪ locks s) s) w in
      (result, setLocks (locks s' ∖ {[fileName]}) s', w').
End WithStorages.
Arguments Storage : clear implicits.
Arguments Service : clear implicits.

End Fallback.

(* --------------------------------------------------------------------- *)
(** ** package storages (BigQuery): the batch loop                        *)
(* --------------------------------------------------------------------- *)

Module BigQueryBatch.

(** [extractDataFromFileName], declared in a sibling file: table name,
    token id and rows count encoded in a staged file's name. *)
Class FileNames := {
  extractDataFromFileName : string → error + (string * string * Z)
}.

(** Calls into packages metrics and counters. *)
Inductive BatchTelemetry :=
| metrics_ErrorTokenEvents (tokenId destination : string) (n : Z)
| counters_ErrorEvents (destination : string) (n : Z)
| metrics_SuccessTokenEvents (tokenId destination : string) (n : Z)
| counters_SuccessEvents (destination : string) (n : Z).

(** What the loop reaches: the staged objects in the bucket, the load
    jobs BigQuery has run (file key and table, oldest first), the
    telemetry, the seconds slept and the [closed] flag. *)
Record Cloud := {
  bucket : list string;
  loads : list (string * string);
  telemetry : list BatchTelemetry;
  slept : Z;
  closed : bool
}.

(** What one pass cannot decide itself: whether listing, a load or a
    delete fails, and whether the process dies right after a load. *)
Record Oracle := {
  listFails : option error;
  copyFails : string → string → option error;
  deleteFails : string → option error;
  diesAfterCopy : string → bool
}.

Definition count (t : BatchTelemetry) (w : Cloud) : Cloud :=
  {| bucket := bucket w; loads := loads w; telemetry := telemetry w ++ [t];
     slept := slept w; closed := closed w |}.

(** A successful [bq.bqAdapter.Copy(fileKey, tableName)]. *)
Definition Copy (fileKey tableName : string) (w : Cloud) : Cloud :=
  {| bucket := bucket w; loads := loads w ++ [(fileKey, tableName)];
     telemetry := telemetry w; slept := slept w; closed := closed w |}.

(** A successful [bq.gcsAdapter.DeleteObject(fileKey)]. *)
Definition DeleteObject (fileKey : string) (w : Cloud) : Cloud :=
  {| bucket := filter (λ k, k ≠ fileKey) (bucket w); loads := loads w;
     telemetry := telemetry w; slept := slept w; closed := closed w |}.

Definition Sleep (seconds : Z) (w : Cloud) : Cloud :=
  {| bucket := bucket w; loads := loads w; telemetry := telemetry w;
     slept := (slept w + seconds)%Z; closed := closed w |}.

Section Batch.
Context `{FileNames}.

(** The loop [for _, fileKey := range filesKeys] of [startBatch].  The
    boolean is false when the process died in the loop. *)
Fixpoint processFiles (name : string) (o : Oracle) (filesKeys : list string)
    (w : Cloud) : bool * Cloud :=
  match filesKeys with
  | [] => (true, w)
  | fileKey :: rest =>
      match extractDataFromFileName fileKey with
      | inl _ => processFiles name o rest w
      | inr (tableName, tokenId, rowsCount) =>
          match copyFails o fileKey tableName with
          | Some _ =>
              processFiles name o rest
                (count (counters_ErrorEvents name rowsCount)
                   (count (metrics_ErrorTokenEvents tokenId name rowsCount) w))
          | None =>
              let w1 := Copy fileKey tableName w in
              if diesAfterCopy o fileKey then (false, w1)
              else
                let w2 := count (counters_SuccessEvents name rowsCount)
                            (count (metrics_SuccessTokenEvents tokenId name rowsCount) w1) in
                match deleteFails o fileKey with
                | Some _ =>
                    (* "file %s wasn't deleted from google cloud storage
                       and will be inserted in db again" *)
                    processFiles name o rest w2
                | None => processFiles name o rest (DeleteObject fileKey w2)
                end
          end
      end
  end.

Inductive Pass := Break | Continue | Died.

(** One pass of the [for] loop of [startBatch]. *)
Definition tick (name : string) (o : Oracle) (w : Cloud) : Pass * Cloud :=
  if closed w then (Break, w)
  else
    let w0 := Sleep 30 w in
    match listFails o with
    | Some _ => (Continue, w0)
    | None =>
        let filesKeys := bucket w0 in
        if decide (len filesKeys = 0)%Z then (Continue, w0)
        else
          match processFiles name o filesKeys w0 with
          | (true, w1) => (Continue, w1)
          | (false, w1) => (Died, w1)
          end
    end.

(** [startBatch]: the loop, one pass per oracle, until it breaks or the
    process dies. *)
Fixpoint startBatch (name : string) (oracles : list Oracle) (w : Cloud) : Cloud :=
  match oracles with
  | [] => w
  | o :: rest =>
      match tick name o w with
      | (Continue, w') => startBatch name rest w'
      | (_, w') => w'
      end
  end.

(** The load job a pass runs for a listed file: none when the name does
    not parse or the load fails. *)
Definition loaded (o : Oracle) (fileKey : string) : option (string * string) :=
  match extractDataFromFileName fileKey with
  | inl _ => None
  | inr (tableName, _, _) =>
      match copyFails o fileKey tableName with
      | Some _ => None
      | None => Some (fileKey, tableName)
      end
  end.

(** The listed files a pass removes from the bucket: loaded, then
    deleted. *)
Definition removed (o : Oracle) (fileKey : string) : bool :=
  match loaded o fileKey, deleteFails o fileKey with
  | Some _, None => true
  | _, _ => false
  end.
End Batch.

End BigQueryBatch.

(* --------------------------------------------------------------------- *)
(** ** Sample inputs                                                      *)
(* --------------------------------------------------------------------- *)

(** Concrete values for what the model leaves open, so that the functions
    can be run on inputs.  No general theorem depends on them. *)
Module Samples.

(** A [removeLastComma] that drops one trailing comma. *)
Fixpoint dropLastComma (s : string) : string :=
  match s with
  | EmptyString => EmptyString
  | String c rest =>
      match rest with
      | EmptyString => if Ascii.eqb c ","%char then EmptyString else s
      | _ => String c (dropLastComma rest)
      end
  end.

#[export] Instance texts : ErrorTexts := {|
  sentinelText := λ s, match s with
                       | SkipObject => "object is skipped"
                       | QueueClosed => "queue is closed"
                       end;
  multiErrorText := λ errs, Join errs "; "
|}.

#[export] Instance helpers : Adapters.Helpers := {|
  Adapters.removeLastComma := dropLastComma;
  Adapters.buildConstraintName := λ schema table, schema +:+ "_" +:+ table +:+ "_pk";
  Adapters.TrimSpace := λ s, s
|}.

(** An engine without faults of its own. *)
Definition reliable : Adapters.Engine := {|
  Adapters.beginFails := None;
  Adapters.prepareFails := λ _, None;
  Adapters.execFails := λ _ _, None;
  Adapters.commitFails := None;
  Adapters.deleteMatches := λ _ _ _, false
|}.

Definition mysql : Adapters.Mysql := {|
  Adapters.Schema := "public";
  Adapters.mappingTypeCasts := {["id" := "bigint"]}
|}.

Definition text : Adapters.Column := {| Adapters.SQLType := "text" |}.

(** A table without primary key, one with the primary key [email], and a
    table without any column. *)
Definition events_table : Adapters.Table := {|
  Adapters.Name := "events";
  Adapters.Columns := {["id" := {| Adapters.SQLType := "bigint" |}; "name" := text]};
  Adapters.PKFields := ∅;
  Adapters.DeletePkFields := false
|}.

Definition users_table : Adapters.Table := {|
  Adapters.Name := "users";
  Adapters.Columns := {["email" := text; "name" := text]};
  Adapters.PKFields := {["email" := true]};
  Adapters.DeletePkFields := false
|}.

Definition bare_table : Adapters.Table := {|
  Adapters.Name := "events";
  Adapters.Columns := ∅;
  Adapters.PKFields := ∅;
  Adapters.DeletePkFields := false
|}.

Definition event1 : Object := {["id" := VInt 1; "name" := VString "click"]}.
Definition user1 : Object := {["email" := VString "a@x"; "name" := VString "A"]}.

(** An engine with the two tables, both empty, and a transaction just
    opened on it. *)
Definition database : Adapters.Db :=
  {["events" := {| Adapters.pkConstraint := []; Adapters.rows := [] |};
    "users" := {| Adapters.pkConstraint := ["email"]; Adapters.rows := [] |}]}.

Definition opened : Adapters.Transaction :=
  {| Adapters.work := database; Adapters.txEvents := [Adapters.EvBegin] |}.


#[export] Instance eventHelpers : Storages.EventHelpers := {|
  Storages.Serialize := λ o,
    match o !! "eventn_ctx_event_id" with
    | Some (VString id) => "{event " +:+ id +:+ "}"
    | _ => "{}"
    end;
  Storages.ExtractEventID := λ o,
    match o !! "eventn_ctx_event_id" with
    | Some (VString id) => id
    | _ => ""
    end;
  Storages.linesCount := λ _, 1%Z
|}.

(** A sink that remembers the rows each table received. *)
Definition Sink := list (string * Object).

(** A backend whose table helper always succeeds, whose streaming insert
    always fails with [text], and whose bulk insert fails with [text] on
    the table [broken] only. *)
Definition backend (text : string) : Storages.Backend Sink := {|
  Storages.MapTableSchema := λ h,
    {| Adapters.Name := Storages.TableName h;
       Adapters.Columns := (λ t, {| Adapters.SQLType := t |}) <$> Storages.Fields h;
       Adapters.PKFields := ∅;
       Adapters.DeletePkFields := false |};
  Storages.EnsureTable := λ _ t s, (inr t, s);
  Storages.RefreshTableSchema := λ _ t s, (inr t, s);
  Storages.adapter_Insert := λ _ _ s, (Some (Errorf text), s);
  Storages.adapter_BulkInsert := λ t objects s,
    if decide (Adapters.Name t = "broken") then (Some (Errorf text), s)
    else (None, (s ++ (pair (Adapters.Name t) <$> objects))%list)
|}.

Definition click : Object := {["eventn_ctx_event_id" := VString "e1"]}.
Definition view : Object := {["eventn_ctx_event_id" := VString "e2"]}.

Definition header (table : string) : Storages.BatchHeader :=
  {| Storages.TableName := table;
     Storages.Fields := {["eventn_ctx_event_id" := "text"]} |}.

Definition failedLine : Storages.FailedEvent :=
  {| Storages.Event := "{not json"; Storages.ErrorText := "parse error";
     Storages.EventID := "" |}.

(** A processor that sends every event to the table [events], and splits
    every file into one row for [events], one row for [broken] and one
    line it could not parse, leaving out the tables already uploaded. *)
Definition processor : Storages.Processor := {|
  Storages.ProcessEvent := λ e, inr (header "events", e);
  Storages.ProcessFilePayload := λ _ _ alreadyUploadedTables _,
    inr (filter (λ g, alreadyUploadedTables
                        !! Storages.TableName (Storages.Header g) ≠ Some true)
           [{| Storages.Header := header "events"; Storages.GetPayload := [click] |};
            {| Storages.Header := header "broken"; Storages.GetPayload := [view] |}],
         [failedLine])
|}.

Definition postgres (text : string) : Storages.Postgres Sink := {|
  Storages.name := "pg";
  Storages.staged := false;
  Storages.backend := backend text;
  Storages.processor := processor
|}.

Definition stagedPostgres : Storages.Postgres Sink := {|
  Storages.name := "pg";
  Storages.staged := true;
  Storages.backend := backend "";
  Storages.processor := processor
|}.

Definition queued : Storages.QueuedEvent :=
  {| Storages.payload := click; Storages.notBefore := 0%Z; Storages.tokenId := "t1" |}.

(** A world with one due event in the queue and nothing else. *)
Definition world : Storages.World Sink := {|
  Storages.eventQueue := {| Storages.items := [queued]; Storages.queueClosed := false |};
  Storages.fallbackLogger := [];
  Storages.eventsCache := [];
  Storages.telemetry := [];
  Storages.archiveLogger := [];
  Storages.sink := [];
  Storages.calls := [];
  Storages.closed := false
|}.

(** A pass of the loop at second 100. *)
Definition draw : Storages.Draw :=
  {| Storages.nowAtDequeue := (100 * Second)%Z;
     Storages.nowAtRequeue := (100 * Second)%Z;
     Storages.helperDraw := 7 |}.


Definition failedFile : string := "failed.dst=pg-2021-03-01T10-00-00.log".

#[export] Instance library : Fallback.Library := {|
  Fallback.path_Join := λ dir name, dir +:+ "/" +:+ name;
  Fallback.filepath_Base := λ name, name;
  Fallback.FindStringSubmatch := λ name,
    if decide (name = failedFile)
    then ["failed.dst=pg-2021-03-01T"; "pg"] else [];
  Fallback.ParseFallbackJSON := λ _, inl (Errorf "not parsed");
  Fallback.ParseJSON := λ _, inl (Errorf "not parsed")
|}.

(** The Postgres storage behind the [Storage] interface. *)
Definition storage (p : Storages.Postgres Sink)
    : Fallback.Storage (Storages.World Sink) := {|
  Fallback.Name := Storages.name p;
  Fallback.IsStaging := Storages.staged p;
  Fallback.StoreWithParseFunc := Storages.StoreWithParseFunc p
|}.

(** A fallback service with one file on disk and the destination [pg], and
    the same with the destination staged. *)
Definition service (p : Storages.Postgres Sink)
    : Fallback.Service (Storages.World Sink) := {|
  Fallback.fallbackDir := "/logs/failed";
  Fallback.locks := ∅;
  Fallback.statusManager := ∅;
  Fallback.destinationService := {["pg" := Some (storage p)]};
  Fallback.files := {["/logs/failed/" +:+ failedFile := "{not json"]};
  Fallback.archived := [];
  Fallback.metrics := []
|}.


#[export] Instance fileNames : BigQueryBatch.FileNames := {|
  BigQueryBatch.extractDataFromFileName := λ fileKey,
    if decide (fileKey = "events-t1-5-2021-03-01T10-00-00.ndjson")
    then inr ("events", "t1", 5%Z)
    else inl (Errorf "wrong format")
|}.

(** A bucket with one staged file, nothing loaded yet. *)
Definition staging : BigQueryBatch.Cloud := {|
  BigQueryBatch.bucket := ["events-t1-5-2021-03-01T10-00-00.ndjson"];
  BigQueryBatch.loads := [];
  BigQueryBatch.telemetry := [];
  BigQueryBatch.slept := 0;
  BigQueryBatch.closed := false
|}.

(** A pass in which everything works, one in which the process dies right
    after a load, and one in which deleting the staged object fails. *)
Definition smooth : BigQueryBatch.Oracle := {|
  BigQueryBatch.listFails := None;
  BigQueryBatch.copyFails := λ _ _, None;
  BigQueryBatch.deleteFails := λ _, None;
  BigQueryBatch.diesAfterCopy := λ _, false
|}.

Definition crashing : BigQueryBatch.Oracle := {|
  BigQueryBatch.listFails := None;
  BigQueryBatch.copyFails := λ _ _, None;
  BigQueryBatch.deleteFails := λ _, None;
  BigQueryBatch.diesAfterCopy := λ _, true
|}.

Definition undeletable : BigQueryBatch.Oracle := {|
  BigQueryBatch.listFails := None;
  BigQueryBatch.copyFails := λ _ _, None;
  BigQueryBatch.deleteFails := λ _, Some (Errorf "googleapi: Error 503");
  BigQueryBatch.diesAfterCopy := λ _, false
|}.

End Samples.

(* --------------------------------------------------------------------- *)
(** ** package coordination: instances and table versions                *)
(* --------------------------------------------------------------------- *)

Module CoordinationVersions.
Import Coordination.

(** [int64] arithmetic: [atomic.AddInt64] wraps around at the ends of the
    range. *)
Definition wrap64 (z : Z) : Z := ((z + 2 ^ 63) mod 2 ^ 64 - 2 ^ 63)%Z.

(** The fields of [InMemoryService] that the lock functions leave alone:
    the server names and the table versions ([map[string]*int64]). *)
Record VersionTable := {
  serverNameSingleArray : list string;
  systemCollectionVersions : gmap string Z
}.

(** [NewInMemoryService]: no version and no lock yet. *)
Definition NewInMemoryService (names : list string)
    : InMemoryService * VersionTable :=
  ({| locks := ∅; sleeps := []; attempts := 0 |},
   {| serverNameSingleArray := names; systemCollectionVersions := ∅ |}).

(** [GetInstances] *)
Definition GetInstances (ims : VersionTable) : list string * option error :=
  (serverNameSingleArray ims, None).

(** [GetVersion]: zero for a pair that was never incremented. *)
Definition GetVersion (system collection : string) (ims : VersionTable)
    : Z * option error :=
  let identifier := getIdentifier system collection in
  match systemCollectionVersions ims !! identifier with
  | None => (0%Z, None)
  | Some version => (version, None)
  end.

(** [IncrementVersion]: a missing counter is created at zero, then one is
    added atomically. *)
Definition IncrementVersion (system collection : string) (ims : VersionTable)
    : (Z * option error) * VersionTable :=
  let identifier := getIdentifier system collection in
  let version := default 0%Z (systemCollectionVersions ims !! identifier) in
  let result := wrap64 (version + 1) in
  ((result, None),
   {| serverNameSingleArray := serverNameSingleArray ims;
      systemCollectionVersions :=
        <[identifier := result]> (systemCollectionVersions ims) |}).

End CoordinationVersions.

(* --------------------------------------------------------------------- *)
(** ** package storages: where the events of a worker end up             *)
(* --------------------------------------------------------------------- *)

Module StreamingAccounts.
Import Storages.

(** [counters.SkipEvents] among the telemetry calls. *)
Definition isSkip (t : Telemetry) : bool :=
  match t with counters_SkipEvents _ _ => true | _ => false end.

(** The events counted as skipped. *)
Definition skipped (ts : list Telemetry) : nat :=
  length (filter (λ t, isSkip t = true) ts).

Section Accounts.
Context {S : Type}.

(** The places an event taken from the queue can end up in: back on the
    queue, on the fallback logger, on the archive logger, or counted as
    skipped. *)
Definition accounted (w : World S) : nat :=
  length (items (eventQueue w)) + length (fallbackLogger w) +
  length (archiveLogger w) + skipped (telemetry w).

End Accounts.

End StreamingAccounts.

(* --------------------------------------------------------------------- *)
(** ** package logging: the asynchronous logger                          *)
(* --------------------------------------------------------------------- *)

Module Logging.

(** [encoding/json] on the events put on a logger: [json.Marshal], which
    can fail, and [json.MarshalIndent]. *)
Class Json (A : Type) := {
  Marshal : A → error + string;
  MarshalIndent : A → string
}.

(** [io.WriteCloser]: a write or a close changes the writer and may
    return an error. *)
Record WriteCloser (W : Type) := {
  Write : string → W → option error * W;
  CloseWriter : W → option error * W
}.
Arguments Write {W}.
Arguments CloseWriter {W}.

(** Lines of the global logger. *)
Inductive GlobalLine :=
| Info (text : string)
| Errorf_line (text : string).

(** [AsyncLogger]; [globalLog] is what it sent to the global logger. *)
Record AsyncLogger (A W : Type) := {
  writer : W;
  logCh : list A;
  showInGlobalLogger : bool;
  loggerClosed : bool;
  globalLog : list GlobalLine
}.
Arguments writer {A W}.
Arguments logCh {A W}.
Arguments showInGlobalLogger {A W}.
Arguments loggerClosed {A W}.
Arguments globalLog {A W}.

(** The capacity of [logCh]: [make(chan interface{}, 20000)]. *)
Definition logChCapacity : Z := 20000.

(** The line feed written after each event. *)
Definition lineFeed : string := String "010"%char EmptyString.

Section Logger.
Context {A W : Type} `{Json A} `{ErrorTexts} (io : WriteCloser W).

(** [NewAsyncLogger], before its goroutine has run. *)
Definition NewAsyncLogger (w : W) (showInGlobalLogger : bool) : AsyncLogger A W :=
  {| writer := w; logCh := []; showInGlobalLogger := showInGlobalLogger;
     loggerClosed := false; globalLog := [] |}.

(** [ConsumeAny] (and [Consume], which drops its token): the send
    [al.logCh <- object].  [None] when the channel is full and the caller
    blocks. *)
Definition ConsumeAny (object : A) (al : AsyncLogger A W) : option (AsyncLogger A W) :=
  if decide (len (logCh al) < logChCapacity)%Z
  then Some {| writer := writer al; logCh := (logCh al ++ [object])%list;
               showInGlobalLogger := showInGlobalLogger al;
               loggerClosed := loggerClosed al; globalLog := globalLog al |}
  else None.

(** The body of the goroutine's loop for one received event. *)
Definition logEvent (event : A) (w : W) (show : bool) (log : list GlobalLine)
    : W * list GlobalLine :=
  match Marshal event with
  | inl err => (w, (log ++ [Errorf_line ("Error marshaling event to json: " +:+ Error err)])%list)
  | inr bts =>
      let log1 := if show then (log ++ [Info (MarshalIndent event)])%list else log in
      match Write io (bts +:+ lineFeed) w with
      | (Some err, w') =>
          (w', (log1 ++ [Errorf_line ("Error writing event to log file: " +:+ Error err)])%list)
      | (None, w') => (w', log1)
      end
  end.

(** The goroutine of [NewAsyncLogger], from the top of its loop, over the
    events now in the channel, until it blocks on the empty channel. *)
Fixpoint drainLoop (pending : list A) (w : W) (show : bool) (log : list GlobalLine)
    : W * list GlobalLine :=
  match pending with
  | [] => (w, log)
  | event :: rest =>
      let '(w', log') := logEvent event w show log in
      drainLoop rest w' show log'
  end.

Definition drain (al : AsyncLogger A W) : AsyncLogger A W :=
  if loggerClosed al then al
  else
    let '(w', log') := drainLoop (logCh al) (writer al) (showInGlobalLogger al) (globalLog al) in
    {| writer := w'; logCh := []; showInGlobalLogger := showInGlobalLogger al;
       loggerClosed := false; globalLog := log' |}.

(** What [AsyncLogger.Close] returns for the error of [al.writer.Close()]. *)
Definition closeResult (err : option error) : option error :=
  match err with
  | Some e => Some (Wrap "Error closing writer: " e)
  | None => None
  end.

(** [AsyncLogger.Close]: "Close underlying log file writer". *)
Definition Close (al : AsyncLogger A W) : option error * AsyncLogger A W :=
  let '(err, w') := CloseWriter io (writer al) in
  (closeResult err,
   {| writer := w'; logCh := logCh al; showInGlobalLogger := showInGlobalLogger al;
      loggerClosed := true; globalLog := globalLog al |}).

(** The line written for an event: its JSON and a line feed; none for an
    event that cannot be marshalled. *)
Definition lineOf (event : A) : option string :=
  match Marshal event with
  | inl _ => None
  | inr bts => Some (bts +:+ lineFeed)
  end.
End Logger.

End Logging.

(* --------------------------------------------------------------------- *)
(** ** package storages (Postgres): SyncStore, Update and Close          *)
(* --------------------------------------------------------------------- *)

Module StoragesSync.
Import Storages.

(** Functions of packages schema and adapters that [SyncStore] calls and
    that are declared outside the files at hand: [Fields.Add], which merges
    the fields of a header into another, and
    [DeleteByTimeChunkCondition]. *)
Class SyncHelpers := {
  Fields_Add : gmap string string → gmap string string → gmap string string;
  DeleteByTimeChunkCondition : string → Adapters.DeleteConditions
}.

(** What [SyncStore] reaches besides the table helper: the processor's
    [ProcessObjects] and the adapter's [BulkUpdate]. *)
Record SyncBackend (S : Type) := {
  ProcessObjects : list Object → error + list ProcessedFile;
  adapter_BulkUpdate :
    Adapters.Table → list Object → Adapters.DeleteConditions → S → option error * S
}.
Arguments ProcessObjects {S}.
Arguments adapter_BulkUpdate {S}.

(** The calls [SyncStore] makes, each with the error it returned. *)
Inductive SyncCall :=
| SyncEnsureTable (destination : string) (table : Adapters.Table) (err : option error)
| SyncBulkUpdate (table : Adapters.Table) (objects : list Object)
    (deleteConditions : Adapters.DeleteConditions) (err : option error).

Section Sync.
Context {S : Type} `{SyncHelpers}.

(** The sink and the calls made so far. *)
Definition SyncState : Type := S * list SyncCall.

(** [p.tableHelper.EnsureTable(p.Name(), table)] followed, when it
    succeeds, by [p.adapter.BulkUpdate(dbSchema, data, deleteConditions)]. *)
Definition ensureAndUpdate (p : Postgres S) (b : SyncBackend S)
    (table : Adapters.Table) (data : list Object)
    (deleteConditions : Adapters.DeleteConditions) (st : SyncState)
    : option error * SyncState :=
  let '(r, s1) := EnsureTable (backend p) (name p) table st.1 in
  let log1 := (st.2 ++ [SyncEnsureTable (name p) table (errOf r)])%list in
  match r with
  | inl err => (Some err, (s1, log1))
  | inr dbSchema =>
      let '(err, s2) := adapter_BulkUpdate b dbSchema data deleteConditions s1 in
      (err, (s2, (log1 ++ [SyncBulkUpdate dbSchema data deleteConditions err])%list))
  end.

(** [table.Name = overriddenDataSchema.TableName] *)
Definition renamed (tableName : string) (table : Adapters.Table) : Adapters.Table :=
  {| Adapters.Name := tableName; Adapters.Columns := Adapters.Columns table;
     Adapters.PKFields := Adapters.PKFields table;
     Adapters.DeletePkFields := Adapters.DeletePkFields table |}.

(** The table of one group in the "plain flow": mapped from the group's
    header, under the overridden name when there is one. *)
Definition plainTable (p : Postgres S) (overriddenDataSchema : option BatchHeader)
    (fdata : ProcessedFile) : Adapters.Table :=
  let table := MapTableSchema (backend p) (Header fdata) in
  match overriddenDataSchema with
  | Some overridden =>
      if decide (TableName overridden ≠ "") then renamed (TableName overridden) table
      else table
  | None => table
  end.

(** The loop of the "plain flow". *)
Fixpoint plainFlow (p : Postgres S) (b : SyncBackend S)
    (overriddenDataSchema : option BatchHeader)
    (deleteConditions : Adapters.DeleteConditions)
    (flatData : list ProcessedFile) (st : SyncState) : option error * SyncState :=
  match flatData with
  | [] => (None, st)
  | fdata :: rest =>
      match ensureAndUpdate p b (plainTable p overriddenDataSchema fdata)
              (GetPayload fdata) deleteConditions st with
      | (Some err, st') => (Some err, st')
      | (None, st') => plainFlow p b overriddenDataSchema deleteConditions rest st'
      end
  end.

(** The loop "ignore table multiplexing from mapping step": the rows of
    all groups, and the overridden header enriched with their fields. *)
Definition gathered (overridden : BatchHeader) (flatData : list ProcessedFile)
    : list Object * BatchHeader :=
  foldl (λ acc fdata,
           ((acc.1 ++ GetPayload fdata)%list,
            {| TableName := TableName acc.2;
               Fields := Fields_Add (Fields acc.2) (Fields (Header fdata)) |}))
    ([], overridden) flatData.

(** The loop that sums the rows of the groups. *)
Definition countRows (flatData : list ProcessedFile) : Z :=
  foldl (λ rowsCount fdata, (rowsCount + GetPayloadLen fdata)%Z) 0%Z flatData.

(** [SyncStore]: "return rows count and err if can't store or rows count
    and nil if stored". *)
Definition SyncStore (p : Postgres S) (b : SyncBackend S)
    (overriddenDataSchema : option BatchHeader) (objects : list Object)
    (timeIntervalValue : string) (st : SyncState)
    : (Z * option error) * SyncState :=
  match ProcessObjects b objects with
  | inl err => ((len objects, Some err), st)
  | inr flatData =>
      let rowsCount := countRows flatData in
      let deleteConditions := DeleteByTimeChunkCondition timeIntervalValue in
      match overriddenDataSchema with
      | Some overridden =>
          if decide (Z.of_nat (size (Fields overridden)) > 0)%Z then
            (* table schema overridden *)
            let '(data, enriched) := gathered overridden flatData in
            let table := MapTableSchema (backend p) enriched in
            let '(err, st') := ensureAndUpdate p b table data deleteConditions st in
            ((rowsCount, err), st')
          else
            let '(err, st') :=
              plainFlow p b overriddenDataSchema deleteConditions flatData st in
            ((rowsCount, err), st')
      | None =>
          let '(err, st') :=
            plainFlow p b overriddenDataSchema deleteConditions flatData st in
          ((rowsCount, err), st')
      end
  end.

(** [Update] *)
Definition Update (p : Postgres S) (b : SyncBackend S) (object : Object)
    (st : SyncState) : option error * SyncState :=
  let '((_, err), st') := SyncStore p b None [object] "" st in
  (err, st').

(** Reading the calls: the tables ensured, and the rows of the updates
    that went through. *)
Definition ensured (calls : list SyncCall) : list Adapters.Table :=
  omap (λ c, match c with SyncEnsureTable _ table _ => Some table | _ => None end) calls.

Definition updates (calls : list SyncCall) : list (list Object) :=
  omap (λ c, match c with
             | SyncBulkUpdate _ objects _ None => Some objects
             | _ => None
             end) calls.

Definition conditionsOf (c : SyncCall) : option Adapters.DeleteConditions :=
  match c with
  | SyncBulkUpdate _ _ deleteConditions _ => Some deleteConditions
  | _ => None
  end.
End Sync.

(** The three things [Postgres.Close] closes. *)
Inductive Closeable := TheAdapter | TheStreamingWorker | TheFallbackLogger.

(** What closing can run into: the error of each [Close] underneath. *)
Record Closing := {
  adapterClose : option error;
  archiveWriterClose : option error;
  fallbackWriterClose : option error
}.

Section Close.
Context {S : Type} `{ErrorTexts}.

(** [StreamingWorker.Close]: raise [closed], close the archive logger. *)
Definition StreamingWorker_Close (o : Closing) (w : World S) : option error * World S :=
  (Logging.closeResult (archiveWriterClose o),
   {| eventQueue := eventQueue w; fallbackLogger := fallbackLogger w;
      eventsCache := eventsCache w; telemetry := telemetry w;
      archiveLogger := archiveLogger w; sink := sink w; calls := calls w;
      closed := true |}).

(** [Postgres.Close]: "Close adapters.Postgres", the streaming worker when
    there is one, and the fallback logger.  The list says what was closed,
    in order. *)
Definition Close (p : Postgres S) (streamMode : bool) (o : Closing) (w : World S)
    : option error * list Closeable * World S :=
  let multiErr1 :=
    match adapterClose o with
    | Some err =>
        multierror_Append None
          (Wrap ("[" +:+ name p +:+ "] Error closing postgres datasource: ") err)
    | None => None
    end in
  let '(multiErr2, done2, w2) :=
    if streamMode then
      match StreamingWorker_Close o w with
      | (Some err, w') =>
          (multierror_Append multiErr1
             (Wrap ("[" +:+ name p +:+ "] Error closing streaming worker: ") err),
           [TheAdapter; TheStreamingWorker], w')
      | (None, w') => (multiErr1, [TheAdapter; TheStreamingWorker], w')
      end
    else (multiErr1, [TheAdapter], w) in
  let multiErr3 :=
    match Logging.closeResult (fallbackWriterClose o) with
    | Some err =>
        multierror_Append multiErr2
          (Wrap ("[" +:+ name p +:+ "] Error closing fallback logger: ") err)
    | None => multiErr2
    end in
  (multiErr3, (done2 ++ [TheFallbackLogger])%list, w2).
End Close.

End StoragesSync.

(* --------------------------------------------------------------------- *)
(** ** package adapters (MySQL): schema changes                          *)
(* --------------------------------------------------------------------- *)

Module AdaptersTables.
Import Adapters.

(** *** Data definition statements *)

(** A DDL text is [fmt.Sprintf] of one of the package's templates; the
    model keeps the template and its arguments. *)
Inductive DDL :=
| createDbSchemaIfNotExistsTemplate (dbSchemaName : string)
| createTableTemplate (schema table columnsDDL : string)
| addColumnTemplate (schema table columnDDL : string)
| dropPrimaryKeyTemplate (schema table constraint : string)
| alterPrimaryKeyTemplate (schema table constraint pkFields : string).

(** What the connection saw of a schema change, in order. *)
Inductive SchemaEvent :=
| SchBegin
| SchPrepare (q : DDL) (ok : bool)
| SchExec (q : DDL) (ok : bool)
| SchRollback
| SchCommit (ok : bool).

(** The faults of the engine on schema changes. *)
Record SchemaEngine := {
  schBeginFails : option error;
  schPrepareFails : DDL → option error;
  schExecFails : DDL → option error;
  schCommitFails : option error
}.

(** [sort.Strings]: increasing order of Go's string comparison, which is
    the order of the bytes. *)
Definition String_le (a b : string) : Prop := String.leb a b = true.

#[global] Instance String_le_dec (a b : string) : Decision (String_le a b).
Proof. unfold String_le. apply _. Defined.

Definition sort_Strings (l : list string) : list string := merge_sort String_le l.

Section WithHelpers.
Context `{Helpers} `{ErrorTexts}.

(** [getDefaultValueStatement]: "return default value statement for
    creating column". *)
Definition getDefaultValueStatement (sqlType : string) : string :=
  if Contains sqlType "var" || Contains sqlType "text" then "default ''"
  else "default 0".

(** [columnDDL]: "return column DDL (column name, mapped sql type and 'not
    null' if pk field)". *)
Definition columnDDL (p : Mysql) (name : string) (column : Column)
    (pkFields : gmap string bool) : string :=
  let sqlType :=
    match mappingTypeCasts p !! name with
    | Some castedSQLType => castedSQLType
    | None => SQLType column
    end in
  let notNullClause :=
    match pkFields !! name with
    | Some _ => "not null " +:+ getDefaultValueStatement sqlType
    | None => ""
    end in
  name +:+ " " +:+ sqlType +:+ " " +:+ notNullClause.

(** [wrappedTx.tx.ExecContext(p.ctx, query)] of a DDL statement. *)
Definition schExec (eng : SchemaEngine) (q : DDL) (log : list SchemaEvent)
    : option error * list SchemaEvent :=
  match schExecFails eng q with
  | Some err => (Some err, (log ++ [SchExec q false])%list)
  | None => (None, (log ++ [SchExec q true])%list)
  end.

(** [createPrimaryKeyInTransaction]: "create primary key constraint". *)
Definition createPrimaryKeyInTransaction (eng : SchemaEngine) (p : Mysql)
    (table : Table) (log : list SchemaEvent) : option error * list SchemaEvent :=
  if decide (Z.of_nat (size (PKFields table)) = 0)%Z then (None, log)
  else
    let query := alterPrimaryKeyTemplate (Schema p) (Name table)
                   (buildConstraintName (Schema p) (Name table))
                   (Join (GetPKFields table) ",") in
    match schExec eng query log with
    | (Some err, log') =>
        (Some (Wrap ("Error setting primary key [" +:+ Join (GetPKFields table) "," +:+
                     "] " +:+ Name table +:+ " table: ") err), log')
    | (None, log') => (None, log')
    end.


(** Ending a schema transaction: [Rollback], and [Commit] (which
    [DirectCommit] wraps). *)
Definition schRollback (log : list SchemaEvent) : list SchemaEvent :=
  (log ++ [SchRollback])%list.

Definition schCommit (eng : SchemaEngine) (log : list SchemaEvent)
    : option error * list SchemaEvent :=
  match schCommitFails eng with
  | Some err => (Some err, (log ++ [SchCommit false])%list)
  | None => (None, (log ++ [SchCommit true])%list)
  end.

(** [createTableInTransaction]: "create table columns and pk key".
    [columns] is [table.Columns] in the order in which Go ranges over the
    map, which the language leaves open; [PKFields table] plays
    [table.GetPKFieldsMap()]. *)
Definition createTableInTransaction (eng : SchemaEngine) (p : Mysql)
    (columns : list (string * Column)) (table : Table) (log : list SchemaEvent)
    : option error * list SchemaEvent :=
  let pkFields := PKFields table in
  let columnsDDL := (λ nc, columnDDL p nc.1 nc.2 pkFields) <$> columns in
  (* sorting columns asc *)
  let query := createTableTemplate (Schema p) (Name table)
                 (Join (sort_Strings columnsDDL) ",") in
  match schExec eng query log with
  | (Some err, log1) =>
      (Some (Wrap ("Error creating [" +:+ Name table +:+ "] table: ") err),
       schRollback log1)
  | (None, log1) =>
      match createPrimaryKeyInTransaction eng p table log1 with
      | (Some err, log2) => (Some err, schRollback log2)
      | (None, log2) => schCommit eng log2
      end
  end.



(** [OpenTx] on the schema side of the connection. *)
Definition schOpenTx (eng : SchemaEngine) (log : list SchemaEvent)
    : error + list SchemaEvent :=
  match schBeginFails eng with
  | Some err => inl err
  | None => inr (log ++ [SchBegin])%list
  end.

(** [CreateTable]: "create database table with name,columns provided in
    Table representation". *)
Definition CreateTable (eng : SchemaEngine) (p : Mysql)
    (columns : list (string * Column)) (table : Table) (log : list SchemaEvent)
    : option error * list SchemaEvent :=
  match schOpenTx eng log with
  | inl err => (Some err, log)
  | inr wrappedTx => createTableInTransaction eng p columns table wrappedTx
  end.


(** [createDbSchemaInTransactionMysql]: "create database and commit
    transaction". *)
Definition createDbSchemaInTransactionMysql (eng : SchemaEngine)
    (dbSchemaName : string) (log : list SchemaEvent)
    : option error * list SchemaEvent :=
  let query := createDbSchemaIfNotExistsTemplate dbSchemaName in
  match schPrepareFails eng query with
  | Some err =>
      (Some (Wrap ("Error preparing create db schema " +:+ dbSchemaName +:+
                   " statement: ") err),
       schRollback (log ++ [SchPrepare query false])%list)
  | None =>
      match schExec eng query (log ++ [SchPrepare query true])%list with
      | (Some err, log') =>
          (Some (Wrap ("Error creating [" +:+ dbSchemaName +:+ "] db schema: ") err),
           schRollback log')
      | (None, log') => schCommit eng log'
      end
  end.

(** [CreateDbSchema]: "create database schema instance if doesn't
    exist". *)
Definition CreateDbSchema (eng : SchemaEngine) (dbSchemaName : string)
    (log : list SchemaEvent) : option error * list SchemaEvent :=
  match schOpenTx eng log with
  | inl err => (Some err, log)
  | inr wrappedTx => createDbSchemaInTransactionMysql eng dbSchemaName wrappedTx
  end.





End WithHelpers.

End AdaptersTables.

(* --------------------------------------------------------------------- *)
(** ** package adapters (MySQL): catalog reads and single inserts        *)
(* --------------------------------------------------------------------- *)

Module AdaptersReads.
Import Adapters.

(** *** Reading the catalog *)

(** One step of [rows.Next()] and [rows.Scan(..)]: a row, or the error of
    the scan. *)
Inductive Scan (A : Type) :=
| Scanned (a : A)
| ScanFails (err : error).
Arguments Scanned {A}.
Arguments ScanFails {A}.

(** [*sql.Rows]: what the iteration gives, and [rows.Err()] after it. *)
Record Rows (A : Type) := {
  fetched : list (Scan A);
  rowsErr : option error
}.
Arguments fetched {A}.
Arguments rowsErr {A}.

(** The answers of the engine to the three catalog queries of the
    adapter, by their bound values. *)
Record Catalog := {
  tableSchemaQuery : string → string → error + Rows (string * string);
  primaryKeyFieldsQuery : string → string → error + Rows string;
  tableNamesQuery : string → error + Rows string
}.

(** The catalog queries sent, with their bound values. *)
Inductive CatalogQuery :=
| AskedTableSchema (schema tableName : string)
| AskedPrimaryKeyFields (regclass schema : string)
| AskedTableNames (schema : string).

Section WithTexts.
Context `{ErrorTexts}.

(** The loop [for rows.Next()] of [getTable]. *)
Fixpoint scanColumns (rows : list (Scan (string * string)))
    (columns : gmap string Column) : error + gmap string Column :=
  match rows with
  | [] => inr columns
  | ScanFails err :: _ => inl (Wrap "Error scanning result: " err)
  | Scanned (columnName, columnMysqlType) :: rest =>
      if decide (columnMysqlType = "-")
      then (* skip dropped mysql field *) scanColumns rest columns
      else scanColumns rest (<[columnName := {| SQLType := columnMysqlType |}]> columns)
  end.

(** [getTable] *)
Definition getTable (cat : Catalog) (p : Mysql) (tableName : string)
    : (error + Table) * list CatalogQuery :=
  let asked := [AskedTableSchema (Schema p) tableName] in
  match tableSchemaQuery cat (Schema p) tableName with
  | inl err =>
      (inl (Wrap ("Error querying table [" +:+ tableName +:+ "] schema: ") err), asked)
  | inr rows =>
      match scanColumns (fetched rows) ∅ with
      | inl err => (inl err, asked)
      | inr columns =>
          match rowsErr rows with
          | Some err => (inl (Wrap "Last rows.Err: " err), asked)
          | None =>
              (inr {| Name := tableName; Columns := columns; PKFields := ∅;
                      DeletePkFields := false |}, asked)
          end
      end
  end.

(** The loop [for pkFieldsRows.Next()] of [getPrimaryKeys]. *)
Fixpoint scanFields (rows : list (Scan string)) (pkFields : list string)
    : error + list string :=
  match rows with
  | [] => inr pkFields
  | ScanFails err :: _ => inl (Wrap "error scanning primary key result: " err)
  | Scanned fieldName :: rest => scanFields rest (pkFields ++ [fieldName])%list
  end.

(** [getPrimaryKeys] *)
Definition getPrimaryKeys (cat : Catalog) (p : Mysql) (tableName : string)
    : (error + gmap string bool) * list CatalogQuery :=
  let asked := [AskedPrimaryKeyFields (Schema p +:+ "." +:+ tableName) (Schema p)] in
  match primaryKeyFieldsQuery cat (Schema p +:+ "." +:+ tableName) (Schema p) with
  | inl err =>
      (inl (Wrap ("Error querying primary keys for [" +:+ Schema p +:+ "." +:+
                  tableName +:+ "] table: ") err), asked)
  | inr pkFieldsRows =>
      match scanFields (fetched pkFieldsRows) [] with
      | inl err => (inl err, asked)
      | inr pkFields =>
          match rowsErr pkFieldsRows with
          | Some err => (inl (Wrap "pk last rows.Err: " err), asked)
          | None =>
              (inr (foldl (λ primaryKeys field, <[field := true]> primaryKeys) ∅ pkFields),
               asked)
          end
      end
  end.

(** [GetTableSchema]: "return table (name,columns with name and types)
    representation wrapped in Table struct". *)
Definition GetTableSchema (cat : Catalog) (p : Mysql) (tableName : string)
    : (error + Table) * list CatalogQuery :=
  match getTable cat p tableName with
  | (inl err, asked) => (inl err, asked)
  | (inr table, asked) =>
      (* don't select primary keys of non-existent table *)
      if decide (Z.of_nat (size (Columns table)) = 0)%Z then (inr table, asked)
      else
        match getPrimaryKeys cat p tableName with
        | (inl err, asked') => (inl err, (asked ++ asked')%list)
        | (inr pkFields, asked') =>
            (inr {| Name := Name table; Columns := Columns table; PKFields := pkFields;
                    DeletePkFields := DeletePkFields table |},
             (asked ++ asked')%list)
        end
  end.

(** The loop [for rows.Next()] of [TablesList]. *)
Fixpoint scanNames (rows : list (Scan string)) (tableNames : list string)
    : list string * option error :=
  match rows with
  | [] => (tableNames, None)
  | ScanFails err :: _ => (tableNames, Some (Wrap "Error scanning table name: " err))
  | Scanned tableName :: rest => scanNames rest (tableNames ++ [tableName])%list
  end.

(** [TablesList]: "return slice of mysql table names". *)
Definition TablesList (cat : Catalog) (p : Mysql) : list string * option error :=
  match tableNamesQuery cat (Schema p) with
  | inl err => ([], Some (Wrap "Error querying tables names: " err))
  | inr rows =>
      match scanNames (fetched rows) [] with
      | (tableNames, Some err) => (tableNames, Some err)
      | (tableNames, None) =>
          match rowsErr rows with
          | Some err => (tableNames, Some (Wrap "Last rows.Err: " err))
          | None => (tableNames, None)
          end
      end
  end.
End WithTexts.

(** *** Single-row insert *)

Section WithHelpers.
Context `{Helpers} `{ErrorTexts}.

(** [p.dataSource.ExecContext(p.ctx, query, values...)]: a statement
    outside any transaction is committed on its own. *)
Definition connExec (eng : Engine) (q : Query) (args : list Value) (conn : Conn)
    : option error * Conn :=
  match execFails eng q args with
  | Some err =>
      (Some err, {| db := db conn; events := (events conn ++ [EvExec q args false])%list |})
  | None =>
      match applyQuery eng q args (db conn) with
      | None =>
          (Some (Errorf "statement refused by the engine"),
           {| db := db conn; events := (events conn ++ [EvExec q args false])%list |})
      | Some d =>
          (None, {| db := d; events := (events conn ++ [EvExec q args true])%list |})
      end
  end.

(** The loop of [buildQueryPayload], carrying [i]. *)
Fixpoint payloadLoop (p : Mysql) (i : nat) (entries : list (string * Value))
    : list string * list string * list Value :=
  match entries with
  | [] => ([], [], [])
  | (name, value) :: rest =>
      let '(header, placeholders, values) := payloadLoop p (S i) rest in
      (name :: header,
       (* $1::type, $2::type, $3, etc ($0 - wrong) *)
       ("$" +:+ pretty (i + 1)%nat +:+ castClause p name) :: placeholders,
       value :: values)
  end.

(** [buildQueryPayload], before the three slices are joined with ", ".
    The map is walked in the order of [map_to_list] (Go leaves the order
    open). *)
Definition buildQueryPayload (p : Mysql) (valuesMap : Object)
    : list string * list string * list Value :=
  payloadLoop p 0 (map_to_list valuesMap).

(** [insertQuery] when the header reaches it already joined: the text is
    used for the update section only. *)
Definition insertQueryJoined (p : Mysql) (pkFields : list string)
    (tableName : string) (header : list string) (joined placeholders : string)
    : Query :=
  if decide (len pkFields = 0)%Z
  then insertTemplate (Schema p) tableName header placeholders
  else mergeTemplate (Schema p) tableName header placeholders
         (buildConstraintName (Schema p) tableName)
         (updateSectionMysql joined).

(** [Mysql.Insert]: "Insert provided object in mysql with typecasts". *)
Definition Insert (eng : Engine) (p : Mysql) (table : Table) (valuesMap : Object)
    (conn : Conn) : option error * Conn :=
  let '(header, placeholders, values) := buildQueryPayload p valuesMap in
  let query := insertQueryJoined p (GetPKFields table) (Name table) header
                 (Join header ", ") ("(" +:+ Join placeholders ", " +:+ ")") in
  match connExec eng query values conn with
  | (Some err, conn') =>
      (Some (Wrap ("Error inserting in " +:+ Name table +:+
                   " table with statement: ") err), conn')
  | (None, conn') => (None, conn')
  end.
End WithHelpers.

End AdaptersReads.

(* --------------------------------------------------------------------- *)
(** ** package fallback: the files waiting for a replay                  *)
(* --------------------------------------------------------------------- *)

Module FallbackFiles.
Import Fallback.

(** [FileStatus], with the fields [GetFileStatuses] fills. *)
Record FileStatus := {
  FileName : string;
  DestinationID : string;
  TablesStatus : gmap string TableStatus
}.

Section WithLibrary.
Context {W : Type} `{Library} `{ErrorTexts}.

(** [os.Remove(filePath)], whose error the caller drops: the file is gone
    when the removal works. *)
Definition Remove (removes : string → bool) (filePath : string) (s : Service W)
    : Service W :=
  if removes filePath
  then {| fallbackDir := fallbackDir s; locks := locks s;
          statusManager := statusManager s;
          destinationService := destinationService s;
          files := delete filePath (files s);
          archived := archived s; metrics := metrics s |}
  else s.

(** The body of the loop of [GetFileStatuses]. *)
Definition fileStatus (removes : string → bool) (destinationsFilter : gmap string bool)
    (acc : list FileStatus * Service W) (filePath : string)
    : list FileStatus * Service W :=
  let fileName := filepath_Base filePath in
  match files acc.2 !! filePath with
  | None => acc
  | Some b =>
      if decide (String.length b = 0)
      then (acc.1, CleanUp fileName (Remove removes filePath acc.2))
      else
        (* get destinationID from filename *)
        match FindStringSubmatch fileName with
        | [_; destinationID] =>
            if decide ((Z.of_nat (size destinationsFilter) > 0)%Z ∧
                       destinationsFilter !! destinationID = None)
            then acc
            else ((acc.1 ++
                   [{| FileName := fileName; DestinationID := destinationID;
                       TablesStatus := GetTablesStatuses acc.2 fileName destinationID |}])%list,
                  acc.2)
        | _ => acc
        end
  end.

(** [GetFileStatuses]; [glob] is what [filepath.Glob(s.fileMask)]
    returns. *)
Definition GetFileStatuses (removes : string → bool) (glob : error + list string)
    (destinationsFilter : gmap string bool) (s : Service W)
    : list FileStatus * Service W :=
  match glob with
  | inl _ => ([], s)
  | inr paths => foldl (fileStatus removes destinationsFilter) ([], s) paths
  end.

(** The file and destination a path is listed under: none for a path that
    cannot be read, an empty file, a name that does not encode a
    destination, or a destination outside a non-empty filter. *)
Definition listed (s : Service W) (destinationsFilter : gmap string bool)
    (filePath : string) : option (string * string) :=
  match files s !! filePath with
  | None => None
  | Some b =>
      if decide (b = "") then None
      else match FindStringSubmatch (filepath_Base filePath) with
           | [_; destinationID] =>
               if decide (destinationsFilter = ∅ ∨
                          is_Some (destinationsFilter !! destinationID))
               then Some (filepath_Base filePath, destinationID)
               else None
           | _ => None
           end
  end.

Definition entryOf (status : FileStatus) : string * string :=
  (FileName status, DestinationID status).

(** What the loop of [GetFileStatuses] keeps after the paths [paths]. *)
Definition surveyed (removes : string → bool) (destinationsFilter : gmap string bool)
    (s : Service W) (paths : list string) (acc : list FileStatus * Service W) : Prop :=
  entryOf <$> acc.1 = omap (listed s destinationsFilter) paths ∧
  (∀ status, status ∈ acc.1 →
     TablesStatus status = GetTablesStatuses s (FileName status) (DestinationID status) ∨
     (TablesStatus status = ∅ ∧
      ∃ path, path ∈ paths ∧ files s !! path = Some "" ∧
              filepath_Base path = FileName status)) ∧
  (∀ path, files acc.2 !! path = files s !! path ∨
           (files acc.2 !! path = None ∧ files s !! path = Some "" ∧
            path ∈ paths ∧ removes path = true)) ∧
  (∀ path, path ∈ paths → files s !! path = Some "" → removes path = true →
           files acc.2 !! path = None) ∧
  (∀ name, statusManager acc.2 !! name = statusManager s !! name ∨
           (statusManager acc.2 !! name = None ∧
            ∃ path, path ∈ paths ∧ files s !! path = Some "" ∧
                    filepath_Base path = name)) ∧
  (∀ path, path ∈ paths → files s !! path = Some "" →
           statusManager acc.2 !! filepath_Base path = None) ∧
  locks acc.2 = locks s ∧ destinationService acc.2 = destinationService s ∧
  archived acc.2 = archived s ∧ metrics acc.2 = metrics s ∧
  fallbackDir acc.2 = fallbackDir s.
(** The ways in which [Replay] is turned down before it reaches a
    storage. *)
Definition refused (s : Service W) (fileName destinationID : string) : Prop :=
  fileName = "" ∨
  (locate s fileName).2 ∈ locks s ∨
  files s !! (locate s fileName).1 = None ∨
  match targetID destinationID (locate s fileName).2 with
  | inl _ => True
  | inr id =>
      match destinationService s !! id with
      | Some (Some storage) => IsStaging storage = true
      | _ => True
      end
  end.
End WithLibrary.

End FallbackFiles.

(* --------------------------------------------------------------------- *)
(** ** package storages (BigQuery): storing a file                       *)
(* --------------------------------------------------------------------- *)

Module BigQueryStore.
Import Storages.

(** [schema.ProcessedFile] as this storage reads it: the rows of one
    table of a file, with the schema of the table. *)
Record ProcessedFile := {
  DataSchema : Adapters.Table;
  GetPayload : list Object
}.

Definition GetPayloadLen (fdata : ProcessedFile) : Z := len (GetPayload fdata).

(** [schema.Processor], by what the entry points used here return.
    [ApplyDBTyping] changes its argument in place: it returns it as it
    leaves it. *)
Record Processor := {
  ProcessFilePayload :
    string → string → bool → (string → error + Object) →
    error + (list ProcessedFile * list FailedEvent);
  ApplyDBTyping : Adapters.Table → ProcessedFile → option error * ProcessedFile
}.

(** [fdata.GetPayloadBytes(schema.JsonMarshallerInstance)] and
    [buildDataIntoFileName], declared outside the file at hand. *)
Class FileBuilder := {
  GetPayloadBytes : ProcessedFile → string * Z;
  buildDataIntoFileName : ProcessedFile → Z → string
}.

(** The table helper and the Google Cloud Storage adapter, acting on the
    state [S] behind them. *)
Record Clients (S : Type) := {
  tableHelper_EnsureTable : string → Adapters.Table → S → (error + Adapters.Table) * S;
  gcsAdapter_UploadBytes : string → string → S → option error * S
}.
Arguments tableHelper_EnsureTable {S}.
Arguments gcsAdapter_UploadBytes {S}.

(** The fields of [BigQuery] that the functions below read. *)
Record BigQuery (S : Type) := {
  name : string;
  clients : Clients S;
  schemaProcessor : Processor;
  breakOnError : bool
}.
Arguments name {S}.
Arguments clients {S}.
Arguments schemaProcessor {S}.
Arguments breakOnError {S}.

(** The calls the storage makes into its clients, each with the error it
    returned. *)
Inductive ClientCall :=
| EnsuredTable (destination : string) (table : Adapters.Table) (err : option error)
| UploadedBytes (fileName b : string) (err : option error).

Definition isUpload (c : ClientCall) : bool :=
  match c with UploadedBytes _ _ _ => true | _ => false end.

(** Everything the storage can change. *)
Record Warehouse (S : Type) := {
  fallbackLogger : list FailedEvent;
  eventsCache : list CacheEntry;
  telemetry : list Telemetry;
  remote : S;
  clientCalls : list ClientCall
}.
Arguments fallbackLogger {S}.
Arguments eventsCache {S}.
Arguments telemetry {S}.
Arguments remote {S}.
Arguments clientCalls {S}.

Section BigQueryStorage.
Context {S : Type} `{EventHelpers} `{ErrorTexts} `{FileBuilder}.

Definition reached (s : S) (c : ClientCall) (w : Warehouse S) : Warehouse S :=
  {| fallbackLogger := fallbackLogger w; eventsCache := eventsCache w;
     telemetry := telemetry w; remote := s;
     clientCalls := clientCalls w ++ [c] |}.

Definition cache (entry : CacheEntry) (w : Warehouse S) : Warehouse S :=
  {| fallbackLogger := fallbackLogger w;
     eventsCache := eventsCache w ++ [entry];
     telemetry := telemetry w; remote := remote w;
     clientCalls := clientCalls w |}.

Definition tell (t : Telemetry) (w : Warehouse S) : Warehouse S :=
  {| fallbackLogger := fallbackLogger w; eventsCache := eventsCache w;
     telemetry := telemetry w ++ [t]; remote := remote w;
     clientCalls := clientCalls w |}.

(** [bq.tableHelper.EnsureTable(bq.Name(), dataSchema)] *)
Definition EnsureTable (bq : BigQuery S) (dataSchema : Adapters.Table)
    (w : Warehouse S) : (error + Adapters.Table) * Warehouse S :=
  let '(r, s) := tableHelper_EnsureTable (clients bq) (name bq) dataSchema (remote w) in
  (r, reached s (EnsuredTable (name bq) dataSchema (errOf r)) w).

(** [bq.gcsAdapter.UploadBytes(fileName, b)] *)
Definition UploadBytes (bq : BigQuery S) (fileName b : string)
    (w : Warehouse S) : option error * Warehouse S :=
  let '(r, s) := gcsAdapter_UploadBytes (clients bq) fileName b (remote w) in
  (r, reached s (UploadedBytes fileName b r) w).

(** [BigQuery.Fallback]: "log event with error to fallback logger". *)
Definition Fallback (failedFacts : list FailedEvent) (w : Warehouse S) : Warehouse S :=
  foldl (λ w failedFact,
           {| fallbackLogger := fallbackLogger w ++ [failedFact];
              eventsCache := eventsCache w; telemetry := telemetry w;
              remote := remote w; clientCalls := clientCalls w |})
    w failedFacts.

(** The first loop over [flatData] in [StoreWithParseFunc]: the table of
    each group is ensured and the group typed.  The groups are returned as
    the typing left them. *)
Fixpoint ensureTables (bq : BigQuery S) (flatData : list ProcessedFile)
    (w : Warehouse S) : option error * list ProcessedFile * Warehouse S :=
  match flatData with
  | [] => (None, [], w)
  | fdata :: rest =>
      match EnsureTable bq (DataSchema fdata) w with
      | (inl err, w1) => (Some err, fdata :: rest, w1)
      | (inr dbSchema, w1) =>
          match ApplyDBTyping (schemaProcessor bq) dbSchema fdata with
          | (Some err, fdata') => (Some err, fdata' :: rest, w1)
          | (None, fdata') =>
              let '(err, rest', w2) := ensureTables bq rest w1 in
              (err, fdata' :: rest', w2)
          end
      end
  end.

(** The second loop over [flatData]: one upload per group, up to the first
    that fails; the result is the [fileRows] and the error returned
    there. *)
Fixpoint uploadFiles (bq : BigQuery S) (flatData : list ProcessedFile)
    (w : Warehouse S) : option (Z * error) * Warehouse S :=
  match flatData with
  | [] => (None, w)
  | fdata :: rest =>
      let '(b, fileRows) := GetPayloadBytes fdata in
      match UploadBytes bq (buildDataIntoFileName fdata fileRows) b w with
      | (Some err, w1) => (Some (fileRows, err), w1)
      | (None, w1) => uploadFiles bq rest w1
      end
  end.

(** The deferred "events cache" loop.  The [err] it tests is the one
    declared with [flatData] and [failedEvents]; the loops below declare
    their own, so it is nil whenever the closure runs. *)
Definition cacheObjects (bq : BigQuery S) (err : option error)
    (flatData : list ProcessedFile) (w : Warehouse S) : Warehouse S :=
  foldl (λ w fdata,
           foldl (λ w object,
                    match err with
                    | Some e =>
                        cache (CacheError (name bq) (ExtractEventID object) (Error e)) w
                    | None =>
                        cache (CacheSucceed (name bq) (ExtractEventID object) object
                                    (DataSchema fdata)) w
                    end) w (GetPayload fdata))
    w flatData.

(** [rowsCount], summed over [flatData]. *)
Definition rowsCount (flatData : list ProcessedFile) : Z :=
  foldl (λ n fdata, (n + GetPayloadLen fdata)%Z) 0%Z flatData.

(** [StoreWithParseFunc]: "return rowsCount and err if err occurred but
    return 0 and nil if no err". *)
Definition StoreWithParseFunc (bq : BigQuery S) (fileName payload : string)
    (parseFunc : string → error + Object) (w : Warehouse S)
    : (Z * option error) * Warehouse S :=
  match ProcessFilePayload (schemaProcessor bq) fileName payload (breakOnError bq) parseFunc with
  | inl err => ((linesCount payload, Some err), w)
  | inr (flatData, failedEvents) =>
      let err : option error := None in
      let rowsCount := rowsCount flatData in
      match ensureTables bq flatData w with
      | (Some e, flatData', w1) => ((rowsCount, Some e), cacheObjects bq err flatData' w1)
      | (None, flatData', w1) =>
          match uploadFiles bq flatData' w1 with
          | (Some (fileRows, e), w2) => ((fileRows, Some e), cacheObjects bq err flatData' w2)
          | (None, w2) =>
              (* send failed events to fallback only if other events have
                 been inserted ok *)
              let w3 := Fallback failedEvents w2 in
              let w4 := tell (counters_ErrorEvents (name bq) (len failedEvents)) w3 in
              let w5 :=
                foldl (λ w failedFact,
                         cache (CacheError (name bq) (EventID failedFact)
                                     (ErrorText failedFact)) w)
                  w4 failedEvents in
              ((0%Z, None), cacheObjects bq err flatData' w5)
          end
      end
  end.

(** [Store]: "call StoreWithParseFunc with parsers.ParseJson func". *)
Definition Store `{Fallback.Library} (bq : BigQuery S) (fileName payload : string)
    (w : Warehouse S) : (Z * option error) * Warehouse S :=
  StoreWithParseFunc bq fileName payload Fallback.ParseJSON w.

(** The groups as the typing loop leaves them, the file each is uploaded
    as, and the cache entry of each row. *)
Definition typedData (bq : BigQuery S) (flatData : list ProcessedFile) (w : Warehouse S)
    : list ProcessedFile :=
  (ensureTables bq flatData w).1.2.

Definition fileOf (fdata : ProcessedFile) : string * string :=
  (buildDataIntoFileName fdata (GetPayloadBytes fdata).2, (GetPayloadBytes fdata).1).

Definition succeeded (bq : BigQuery S) (fdata : ProcessedFile) : list CacheEntry :=
  (λ object, CacheSucceed (name bq) (ExtractEventID object) object (DataSchema fdata))
    <$> GetPayload fdata.

Definition failed (bq : BigQuery S) (failedFact : FailedEvent) : CacheEntry :=
  CacheError (name bq) (EventID failedFact) (ErrorText failedFact).

(** The uploads among the calls, with their outcome. *)
Definition uploadsIn (cs : list ClientCall) : list (string * string * option error) :=
  omap (λ c, match c with
             | UploadedBytes fileName b err => Some (fileName, b, err)
             | _ => None
             end) cs.

(** The logs a call into a client leaves alone. *)
Definition quiet (w w' : Warehouse S) : Prop :=
  fallbackLogger w' = fallbackLogger w ∧ eventsCache w' = eventsCache w ∧
  telemetry w' = telemetry w.
End BigQueryStorage.

End BigQueryStore.

(* --------------------------------------------------------------------- *)
(** ** package storages: the default mappings of a destination           *)
(* --------------------------------------------------------------------- *)

Module StoragesFactory.

(** The destination types, constants of the package that are declared
    outside the file at hand. *)
Class DestinationTypes := {
  RedshiftType : string;
  BigQueryType : string;
  PostgresType : string;
  ClickHouseType : string;
  SnowflakeType : string;
  S3Type : string
}.

(** [schema.MappingField] and [schema.Mapping], by the fields read and
    written here; [Action] is the type of [schema.MOVE]. *)
Record MappingField (Action : Type) := {
  Src : string;
  Dst : string;
  FieldAction : Action
}.
Arguments Src {Action}.
Arguments Dst {Action}.
Arguments FieldAction {Action}.

Record Mapping (Action : Type) := {
  KeepUnmapped : option bool;
  Fields : list (MappingField Action)
}.
Arguments KeepUnmapped {Action}.
Arguments Fields {Action}.

(** The lines written to the log. *)
Inductive MappingLog (Action : Type) :=
| NoMappingRules (destinationID : string)
| AddedDefault (destinationID : string) (field : MappingField Action)
| MappingMode (destinationID mappingMode : string)
| MappingRule (destinationID : string) (field : MappingField Action).
Arguments NoMappingRules {Action}.
Arguments AddedDefault {Action}.
Arguments MappingMode {Action}.
Arguments MappingRule {Action}.

Section WithTypes.
Context `{DestinationTypes} {Action : Type} (MOVE : Action).

Definition isSQLType (destinationType : string) : bool :=
  bool_decide (destinationType = RedshiftType) ||
  bool_decide (destinationType = BigQueryType) ||
  bool_decide (destinationType = PostgresType) ||
  bool_decide (destinationType = ClickHouseType) ||
  bool_decide (destinationType = SnowflakeType) ||
  (* S3 can be SQL (S3 as intermediate layer) *)
  bool_decide (destinationType = S3Type).

(** The loop that looks for the system fields among the configured ones,
    carrying [configuredEventId] and [configuredTimestamp]. *)
Definition configured (fields : list (MappingField Action)) : bool * bool :=
  foldl (λ '(configuredEventId, configuredTimestamp) f,
           (if bool_decide (Src f = "/eventn_ctx/event_id") &&
               (bool_decide (Dst f = "/eventn_ctx/event_id") ||
                bool_decide (Dst f = "/eventn_ctx_event_id"))
            then true else configuredEventId,
            if bool_decide (Src f = "/_timestamp") && bool_decide (Dst f = "/_timestamp")
            then true else configuredTimestamp))
    (false, false) fields.

Definition eventIdMapping : MappingField Action :=
  {| Src := "/eventn_ctx/event_id"; Dst := "/eventn_ctx/event_id"; FieldAction := MOVE |}.

Definition timestampMapping : MappingField Action :=
  {| Src := "/_timestamp"; Dst := "/_timestamp"; FieldAction := MOVE |}.

(** [enrichAndLogMappings]: "Add system fields as default mappings, write
    current mapping configuration to logs".  The mapping is changed in
    place; it is returned as the caller finds it afterwards. *)
Definition enrichAndLogMappings (destinationID destinationType : string)
    (mapping : option (Mapping Action))
    : option (Mapping Action) * list (MappingLog Action) :=
  match mapping with
  | None => (None, [NoMappingRules destinationID])
  | Some m =>
      if decide (len (Fields m) = 0)%Z then (Some m, [NoMappingRules destinationID])
      else
        let keepUnmapped :=
          match KeepUnmapped m with Some b => b | None => true end in
        (* check system fields and add default mappings if destination is
           SQL and not keep unmapped *)
        let '(fields, warnings) :=
          if isSQLType destinationType && negb keepUnmapped then
            let '(configuredEventId, configuredTimestamp) := configured (Fields m) in
            let '(fields1, warnings1) :=
              if negb configuredEventId
              then ((Fields m ++ [eventIdMapping])%list,
                    [AddedDefault destinationID eventIdMapping])
              else (Fields m, []) in
            if negb configuredTimestamp
            then ((fields1 ++ [timestampMapping])%list,
                  (warnings1 ++ [AddedDefault destinationID timestampMapping])%list)
            else (fields1, warnings1)
          else (Fields m, []) in
        let mappingMode :=
          if negb keepUnmapped then "remove unmapped fields" else "keep unmapped fields" in
        (Some {| KeepUnmapped := KeepUnmapped m; Fields := fields |},
         (warnings ++ [MappingMode destinationID mappingMode] ++
          (MappingRule destinationID <$> fields))%list)
  end.

(** A field that counts as the mapping of the event id, and one that
    counts as the mapping of the timestamp. *)
Definition mapsEventId (f : MappingField Action) : bool :=
  bool_decide (Src f = "/eventn_ctx/event_id") &&
  (bool_decide (Dst f = "/eventn_ctx/event_id") ||
   bool_decide (Dst f = "/eventn_ctx_event_id")).

Definition mapsTimestamp (f : MappingField Action) : bool :=
  bool_decide (Src f = "/_timestamp") && bool_decide (Dst f = "/_timestamp").

(** The mappings that get the defaults: those of an SQL destination that
    have fields and do not keep unmapped fields. *)
Definition strict (destinationType : string) (m : Mapping Action) : bool :=
  isSQLType destinationType && bool_decide (KeepUnmapped m = Some false) &&
  negb (bool_decide (Fields m = [])).
End WithTypes.

End StoragesFactory.

(* --------------------------------------------------------------------- *)
(** ** More sample values                                                 *)
(* --------------------------------------------------------------------- *)

Module MoreSamples.
Import Samples.

(** The service of one node, just created. *)
Definition fresh : Coordination.InMemoryService :=
  (CoordinationVersions.NewInMemoryService ["node-1"]).1.

Definition versions : CoordinationVersions.VersionTable :=
  (CoordinationVersions.NewInMemoryService ["node-1"]).2.

(** Two events that are due at second 200, and a world with nothing but
    the given events on the queue. *)
Definition later (tokenID : string) : Storages.QueuedEvent :=
  {| Storages.payload := click; Storages.notBefore := (200 * Second)%Z;
     Storages.tokenId := tokenID |}.

Definition queueing (its : list Storages.QueuedEvent) : Storages.World Sink := {|
  Storages.eventQueue := {| Storages.items := its; Storages.queueClosed := false |};
  Storages.fallbackLogger := [];
  Storages.eventsCache := [];
  Storages.telemetry := [];
  Storages.archiveLogger := [];
  Storages.sink := [];
  Storages.calls := [];
  Storages.closed := false
|}.

(** A processor that rejects every event with [err], and one that derives
    a header without fields. *)
Definition rejecting (err : error) : Storages.Processor := {|
  Storages.ProcessEvent := λ _, inl err;
  Storages.ProcessFilePayload := Storages.ProcessFilePayload processor
|}.

Definition blankHeader : Storages.BatchHeader :=
  {| Storages.TableName := "events"; Storages.Fields := ∅ |}.

Definition blank : Storages.Processor := {|
  Storages.ProcessEvent := λ e, inr (blankHeader, e);
  Storages.ProcessFilePayload := Storages.ProcessFilePayload processor
|}.

(** A backend whose streaming insert stores the row. *)
Definition accepting : Storages.Backend Sink := {|
  Storages.MapTableSchema := Storages.MapTableSchema (backend "");
  Storages.EnsureTable := Storages.EnsureTable (backend "");
  Storages.RefreshTableSchema := Storages.RefreshTableSchema (backend "");
  Storages.adapter_Insert := λ t object s,
    (None, (s ++ [(Adapters.Name t, object)])%list);
  Storages.adapter_BulkInsert := Storages.adapter_BulkInsert (backend "")
|}.

Definition postgresOf (b : Storages.Backend Sink) (pr : Storages.Processor)
    : Storages.Postgres Sink := {|
  Storages.name := "pg";
  Storages.staged := false;
  Storages.backend := b;
  Storages.processor := pr
|}.

(** Helpers for [SyncStore]: fields are added by union, and a time chunk
    is deleted by its interval. *)
#[export] Instance syncHelpers : StoragesSync.SyncHelpers := {|
  StoragesSync.Fields_Add := λ fields more, fields ∪ more;
  StoragesSync.DeleteByTimeChunkCondition := λ timeIntervalValue,
    {| Adapters.Conditions :=
         [{| Adapters.Field := "_time_interval"; Adapters.Clause := "=";
             Adapters.CondValue := VString timeIntervalValue |}];
       Adapters.JoinCondition := "AND" |}
|}.

(** A processor that sends all objects to the table [events], and an
    adapter whose update stores the rows. *)
Definition syncBackend : StoragesSync.SyncBackend Sink := {|
  StoragesSync.ProcessObjects := λ objects,
    inr [{| Storages.Header := header "events"; Storages.GetPayload := objects |}];
  StoragesSync.adapter_BulkUpdate := λ t objects _ s,
    (None, (s ++ (pair (Adapters.Name t) <$> objects))%list)
|}.

(** An engine that refuses no schema change. *)
Definition schemaEngine : AdaptersTables.SchemaEngine := {|
  AdaptersTables.schBeginFails := None;
  AdaptersTables.schPrepareFails := λ _, None;
  AdaptersTables.schExecFails := λ _, None;
  AdaptersTables.schCommitFails := None
|}.

(** A catalog with one live column, one dropped column and the primary
    key [id]. *)
Definition catalog : AdaptersReads.Catalog := {|
  AdaptersReads.tableSchemaQuery := λ _ _,
    inr {| AdaptersReads.fetched :=
             [AdaptersReads.Scanned ("id", "bigint"); AdaptersReads.Scanned ("old", "-")];
           AdaptersReads.rowsErr := None |};
  AdaptersReads.primaryKeyFieldsQuery := λ _ _,
    inr {| AdaptersReads.fetched := [AdaptersReads.Scanned "id"];
           AdaptersReads.rowsErr := None |};
  AdaptersReads.tableNamesQuery := λ _,
    inr {| AdaptersReads.fetched := [AdaptersReads.Scanned "events"];
           AdaptersReads.rowsErr := None |}
|}.

Definition events_schema : Adapters.Table := {|
  Adapters.Name := "events";
  Adapters.Columns := {["id" := {| Adapters.SQLType := "bigint" |}]};
  Adapters.PKFields := {["id" := true]};
  Adapters.DeletePkFields := false
|}.

(** A connection to the engine with the two empty tables. *)
Definition connection : Adapters.Conn :=
  {| Adapters.db := database; Adapters.events := [] |}.

Definition noConditions : Adapters.DeleteConditions :=
  {| Adapters.Conditions := []; Adapters.JoinCondition := "AND" |}.

(** Events that are their own JSON, the empty one being impossible to
    marshal, and a writer that keeps the lines written to it. *)
#[export] Instance json : Logging.Json string := {|
  Logging.Marshal := λ event,
    if decide (event = "") then inl (Errorf "json: unsupported value")
    else inr event;
  Logging.MarshalIndent := λ event, event
|}.

Definition lines : Logging.WriteCloser (list string) := {|
  Logging.Write := λ line w, (None, (w ++ [line])%list);
  Logging.CloseWriter := λ w, (None, w)
|}.

Definition logger : Logging.AsyncLogger string (list string) := {|
  Logging.writer := [];
  Logging.logCh := ["{a}"; ""; "{b}"];
  Logging.showInGlobalLogger := false;
  Logging.loggerClosed := false;
  Logging.globalLog := []
|}.

(** A BigQuery storage that ensures every table and whose uploads all
    fail, with a processor that finds one row for [events] and one line it
    cannot parse. *)
#[export] Instance fileBuilder : BigQueryStore.FileBuilder := {|
  BigQueryStore.GetPayloadBytes := λ fdata,
    ("{rows}", len (BigQueryStore.GetPayload fdata));
  BigQueryStore.buildDataIntoFileName := λ fdata _,
    Adapters.Name (BigQueryStore.DataSchema fdata) +:+ ".ndjson"
|}.

Definition bigQuery : BigQueryStore.BigQuery (list string) := {|
  BigQueryStore.name := "bq";
  BigQueryStore.clients :=
    {| BigQueryStore.tableHelper_EnsureTable := λ _ table s, (inr table, s);
       BigQueryStore.gcsAdapter_UploadBytes := λ _ _ s,
         (Some (Errorf "googleapi: Error 503"), s) |};
  BigQueryStore.schemaProcessor :=
    {| BigQueryStore.ProcessFilePayload := λ _ _ _ _,
         inr ([{| BigQueryStore.DataSchema := events_table;
                  BigQueryStore.GetPayload := [click] |}], [failedLine]);
       BigQueryStore.ApplyDBTyping := λ _ fdata, (None, fdata) |};
  BigQueryStore.breakOnError := false
|}.

Definition warehouse : BigQueryStore.Warehouse (list string) := {|
  BigQueryStore.fallbackLogger := [];
  BigQueryStore.eventsCache := [];
  BigQueryStore.telemetry := [];
  BigQueryStore.remote := [];
  BigQueryStore.clientCalls := []
|}.

(** A fallback service with a failed file, an empty file that has a
    status, and no destination. *)
Definition inbox : Fallback.Service (Storages.World Sink) := {|
  Fallback.fallbackDir := "";
  Fallback.locks := ∅;
  Fallback.statusManager := {["empty.log" := ∅]};
  Fallback.destinationService := ∅;
  Fallback.files := {[failedFile := "{not json"; "empty.log" := ""]};
  Fallback.archived := [];
  Fallback.metrics := []
|}.

#[export] Instance destinationTypes : StoragesFactory.DestinationTypes := {|
  StoragesFactory.RedshiftType := "redshift";
  StoragesFactory.BigQueryType := "bigquery";
  StoragesFactory.PostgresType := "postgres";
  StoragesFactory.ClickHouseType := "clickhouse";
  StoragesFactory.SnowflakeType := "snowflake";
  StoragesFactory.S3Type := "s3"
|}.

(** A mapping that removes unmapped fields and maps the event id only. *)
Definition strictMapping : StoragesFactory.Mapping string := {|
  StoragesFactory.KeepUnmapped := Some false;
  StoragesFactory.Fields :=
    [{| StoragesFactory.Src := "/eventn_ctx/event_id";
        StoragesFactory.Dst := "/eventn_ctx_event_id";
        StoragesFactory.FieldAction := "move" |}]
|}.

End MoreSamples.

(* ===================================================================== *)
(** * Part II: properties                                                 *)
(* ===================================================================== *)

(** ** Strings *)

Lemma append_cons (c : ascii) (s t : string) :
  String c s +:+ t = String c (s +:+ t).
Proof. reflexivity. Qed.

Lemma append_empty (t : string) : "" +:+ t = t.
Proof. reflexivity. Qed.

Lemma prefix_spec (p s : string) :
  String.prefix p s = true ↔ ∃ rest, s = p +:+ rest.
Proof.
  revert s; induction p as [|a p IH]; intros s.
  - split; [intros _; exists s; reflexivity | destruct s; reflexivity].
  - destruct s as [|b s]; simpl.
    + split; [discriminate | intros [rest Hrest]; discriminate].
    + destruct (Ascii.ascii_dec a b) as [->|Hne].
      * rewrite IH. split; intros [rest Hrest]; exists rest.
        -- rewrite append_cons; congruence.
        -- rewrite append_cons in Hrest; congruence.
      * split; [discriminate|].
        intros [rest Hrest]; rewrite append_cons in Hrest; congruence.
Qed.

(** [Contains] is Go's substring test: [substr] occurs somewhere in [s]. *)
Lemma Contains_spec (s substr : string) :
  Contains s substr = true ↔ ∃ before after, s = before +:+ substr +:+ after.
Proof.
  induction s as [|c s IH].
  - change (Contains "" substr) with (String.prefix substr "" || false).
    rewrite orb_true_iff, prefix_spec. split.
    + intros [[rest Hrest] | Hf]; [|discriminate].
      exists "", rest. exact Hrest.
    + intros ([|b before] & after & Heq); [left; exists after; exact Heq|].
      rewrite append_cons in Heq; discriminate.
  - change (Contains (String c s) substr)
      with (String.prefix substr (String c s) || Contains s substr).
    rewrite orb_true_iff, prefix_spec, IH. split.
    + intros [[rest Hrest] | (before & after & Heq)].
      * exists "", rest. exact Hrest.
      * exists (String c before), after. rewrite append_cons. congruence.
    + intros ([|b before] & after & Heq).
      * left. exists after. exact Heq.
      * right. rewrite append_cons in Heq. exists before, after. congruence.
Qed.

(* --------------------------------------------------------------------- *)
(** ** The in-memory lock service                                         *)
(* --------------------------------------------------------------------- *)

Module CoordinationFacts.
Import Coordination.

(** The body of [lockWithRetry], one call deep. *)
Lemma lockWithRetry_unfold env system collection retryCount ims :
  lockWithRetry env system collection retryCount ims =
  if decide (getIdentifier system collection ∈ locks ims) then
    if le_lt_dec 3 retryCount then
      (AlreadyLocked system collection,
       {| locks := locks ims; sleeps := sleeps ims; attempts := S (attempts ims) |})
    else lockWithRetry env system collection (S retryCount)
           {| locks := env retryCount (locks ims); sleeps := sleeps ims ++ [1%nat];
              attempts := S (attempts ims) |}
  else (Acquired (getIdentifier system collection),
        {| locks := {[getIdentifier system collection]} ∪ locks ims;
           sleeps := sleeps ims; attempts := S (attempts ims) |}).
Proof.
  rewrite lockWithRetry_unfold_eq.
  unfold lockWithRetry_unfold, lockWithRetry_unfold_clause_1,
    lockWithRetry_unfold_clause_1_clause_1.
  destruct (decide _) as [Hin|Hout]; [|reflexivity].
  destruct (le_lt_dec 3 retryCount); reflexivity.
Qed.

(** With [budget] retries left, [lockWithRetry] sleeps [k <= budget] times,
    one second each, makes [k + 1] attempts, and gives up only after using
    the whole budget. *)
Lemma lockWithRetry_bounded env system collection :
  ∀ budget retryCount ims,
    (retryCount + budget = 3)%nat →
    ∃ k, (k ≤ budget)%nat ∧
      sleeps (lockWithRetry env system collection retryCount ims).2
        = (sleeps ims ++ replicate k 1%nat)%list ∧
      attempts (lockWithRetry env system collection retryCount ims).2
        = (attempts ims + k + 1)%nat ∧
      match (lockWithRetry env system collection retryCount ims).1 with
      | AlreadyLocked s c => s = system ∧ c = collection ∧ k = budget
      | Acquired i =>
          i = getIdentifier system collection ∧
          i ∈ locks (lockWithRetry env system collection retryCount ims).2
      end.
Proof.
  induction budget as [|budget IH]; intros retryCount ims Hsum;
    rewrite lockWithRetry_unfold.
  - destruct (decide _) as [Hin|Hout].
    + destruct (le_lt_dec 3 retryCount); [|lia].
      exists 0%nat; simpl. rewrite app_nil_r. repeat split; lia.
    + exists 0%nat; simpl. rewrite app_nil_r. repeat split; try lia. set_solver.
  - destruct (decide _) as [Hin|Hout].
    + destruct (le_lt_dec 3 retryCount); [lia|].
      destruct (IH (S retryCount)
                  {| locks := env retryCount (locks ims); sleeps := sleeps ims ++ [1%nat];
                     attempts := S (attempts ims) |}) as (k & Hk & Hs & Ha & Hr); [lia|].
      exists (S k). simpl in *. split; [lia|]. split.
      { rewrite Hs, <- app_assoc. reflexivity. }
      split; [lia|].
      destruct (lockWithRetry _ _ _ _ _).1; intuition lia.
    + exists 0%nat; simpl. rewrite app_nil_r. repeat split; try lia. set_solver.
Qed.

(** While the holder keeps the lock, [lockWithRetry] gives up. *)
Lemma lockWithRetry_held env system collection :
  (∀ k l, getIdentifier system collection ∈ l →
          getIdentifier system collection ∈ env k l) →
  ∀ budget retryCount ims,
    (retryCount + budget = 3)%nat →
    getIdentifier system collection ∈ locks ims →
    (lockWithRetry env system collection retryCount ims).1
      = AlreadyLocked system collection.
Proof.
  intros Hkeep. induction budget as [|budget IH]; intros retryCount ims Hsum Hin;
    rewrite lockWithRetry_unfold; destruct (decide _) as [_|Hout]; try tauto.
  - destruct (le_lt_dec 3 retryCount); [reflexivity|lia].
  - destruct (le_lt_dec 3 retryCount); [reflexivity|].
    apply IH; [lia|]. simpl. apply Hkeep, Hin.
Qed.

Lemma locksFrom_next env retryCount l : ∀ k,
  locksFrom env (S retryCount) (env retryCount l) k = locksFrom env retryCount l (S k).
Proof.
  induction k as [|k IH]; cbn [locksFrom].
  - by rewrite Nat.add_0_r.
  - rewrite IH. cbn [locksFrom]. by replace (S retryCount + k)%nat with (retryCount + S k)%nat by lia.
Qed.

Lemma lockWithRetry_exact env system collection :
  ∀ budget retryCount ims,
    (retryCount + budget = 3)%nat →
    ∃ k, (k ≤ budget)%nat ∧
      (∀ j, (j < k)%nat →
            getIdentifier system collection ∈ locksFrom env retryCount (locks ims) j) ∧
      sleeps (lockWithRetry env system collection retryCount ims).2
        = (sleeps ims ++ replicate k 1%nat)%list ∧
      attempts (lockWithRetry env system collection retryCount ims).2
        = (attempts ims + k + 1)%nat ∧
      match (lockWithRetry env system collection retryCount ims).1 with
      | AlreadyLocked s c =>
          s = system ∧ c = collection ∧ k = budget ∧
          getIdentifier system collection ∈ locksFrom env retryCount (locks ims) k ∧
          (locks (lockWithRetry env system collection retryCount ims).2
           = locksFrom env retryCount (locks ims) k)
      | Acquired i =>
          i = getIdentifier system collection ∧
          (getIdentifier system collection ∉ locksFrom env retryCount (locks ims) k) ∧
          locks (lockWithRetry env system collection retryCount ims).2
            = ({[getIdentifier system collection]} ∪
               locksFrom env retryCount (locks ims) k)
      end.
Proof.
  induction budget as [|budget IH]; intros retryCount ims Hsum;
    rewrite lockWithRetry_unfold.
  - destruct (decide _) as [Hin|Hout].
    + destruct (le_lt_dec 3 retryCount); [|lia].
      exists 0%nat; cbn. rewrite app_nil_r.
      split; [lia|]. split; [intros j Hj; lia|]. split; [done|]. split; [lia|]. done.
    + exists 0%nat; cbn. rewrite app_nil_r.
      split; [lia|]. split; [intros j Hj; lia|]. split; [done|]. split; [lia|]. done.
  - destruct (decide _) as [Hin|Hout].
    + destruct (le_lt_dec 3 retryCount); [lia|].
      destruct (IH (S retryCount)
                  {| locks := env retryCount (locks ims); sleeps := sleeps ims ++ [1%nat];
                     attempts := S (attempts ims) |}) as (k & Hk & Hseen & Hs & Ha & Hr); [lia|].
      exists (S k). cbn [locks sleeps attempts] in *. split; [lia|]. split.
      { intros [|j] Hj; [done|]. rewrite <- locksFrom_next. apply Hseen. lia. }
      split. { rewrite Hs, <- app_assoc. reflexivity. }
      split; [lia|].
      destruct (lockWithRetry _ _ _ _ _).1.
      * destruct Hr as (-> & Hout & Hl). rewrite locksFrom_next in Hout, Hl. done.
      * destruct Hr as (-> & -> & -> & Hin' & Hl). rewrite locksFrom_next in Hin', Hl. done.
    + exists 0%nat; cbn. rewrite app_nil_r.
      split; [lia|]. split; [intros j Hj; lia|]. split; [done|]. split; [lia|]. done.
Qed.

(** C3, as the code has it.  [TryLock] makes exactly one attempt and never
    sleeps: it returns the lock when the identifier is free and the
    already-locked error when it is taken.  [Lock] is the bounded one: it
    attempts again, after a sleep of one second (no growing delay), as
    long as it finds the identifier taken, up to four attempts.  It sleeps
    [k <= 3] times and makes [k + 1] attempts, where [k] is the first
    attempt that finds the identifier free, which is then added to the
    lock map; it returns the already-locked error, leaving the lock map as
    the others left it, exactly when all four attempts find the identifier
    taken.  In particular, while the holder keeps the lock, [Lock] returns
    the error after three sleeps and four attempts. *)
Theorem lock_retry_policy env system collection ims :
  TryLock env system collection ims =
    (if decide (getIdentifier system collection ∈ locks ims)
     then (AlreadyLocked system collection,
           {| locks := locks ims; sleeps := sleeps ims;
              attempts := S (attempts ims) |})
     else (Acquired (getIdentifier system collection),
           {| locks := {[getIdentifier system collection]} ∪ locks ims;
              sleeps := sleeps ims; attempts := S (attempts ims) |}))
  ∧ (∃ k, (k ≤ 3)%nat ∧
      (∀ j, (j < k)%nat →
            getIdentifier system collection ∈ locksFrom env 0 (locks ims) j) ∧
      sleeps (Lock env system collection ims).2
        = (sleeps ims ++ replicate k 1%nat)%list ∧
      attempts (Lock env system collection ims).2 = (attempts ims + k + 1)%nat ∧
      match (Lock env system collection ims).1 with
      | AlreadyLocked s c =>
          s = system ∧ c = collection ∧ k = 3%nat ∧
          getIdentifier system collection ∈ locksFrom env 0 (locks ims) 3 ∧
          (locks (Lock env system collection ims).2 = locksFrom env 0 (locks ims) 3)
      | Acquired i =>
          i = getIdentifier system collection ∧
          i ∈ locks (Lock env system collection ims).2 ∧
          (getIdentifier system collection ∉ locksFrom env 0 (locks ims) k) ∧
          locks (Lock env system collection ims).2
            = ({[getIdentifier system collection]} ∪ locksFrom env 0 (locks ims) k)
      end)
  ∧ ((∀ j, (j ≤ 3)%nat →
           getIdentifier system collection ∈ locksFrom env 0 (locks ims) j) ↔
     (Lock env system collection ims).1 = AlreadyLocked system collection)
  ∧ ((∀ k l, getIdentifier system collection ∈ l →
             getIdentifier system collection ∈ env k l) →
     getIdentifier system collection ∈ locks ims →
     (Lock env system collection ims).1 = AlreadyLocked system collection ∧
     sleeps (Lock env system collection ims).2 = (sleeps ims ++ [1; 1; 1])%nat%list ∧
     attempts (Lock env system collection ims).2 = (attempts ims + 4)%nat).
Proof.
  pose proof (lockWithRetry_exact env system collection 3 0 ims eq_refl)
    as (k & Hk & Hseen & Hs & Ha & Hr).
  fold (Lock env system collection ims) in Hs, Ha, Hr.
  split.
  { unfold TryLock. rewrite lockWithRetry_unfold.
    destruct (decide _); [|reflexivity].
    destruct (le_lt_dec 3 3); [reflexivity|lia]. }
  split.
  { exists k. split; [done|]. split; [done|]. split; [done|]. split; [done|].
    destruct (Lock env system collection ims).1.
    - destruct Hr as (-> & Hout & Hl). split; [done|]. split; [|done].
      rewrite Hl. apply elem_of_union_l. by apply elem_of_singleton.
    - by destruct Hr as (-> & -> & -> & ? & ?). }
  assert ((∀ j, (j ≤ 3)%nat →
             getIdentifier system collection ∈ locksFrom env 0 (locks ims) j) ↔
          (Lock env system collection ims).1 = AlreadyLocked system collection) as Hiff.
  { destruct (Lock env system collection ims).1 as [i|s c].
    - destruct Hr as (-> & Hout & _). split; [|done].
      intros Hall. exfalso. apply Hout, Hall, Hk.
    - destruct Hr as (-> & -> & -> & Hlast & _). split; [done|]. intros _ j Hj.
      destruct (decide (j = 3)) as [->|Hne]; [done|]. apply Hseen. lia. }
  split; [exact Hiff|].
  intros Hkeep Hin.
  assert (∀ j, getIdentifier system collection ∈ locksFrom env 0 (locks ims) j) as Hall.
  { induction j as [|j IH]; [done|]. cbn [locksFrom]. by apply Hkeep. }
  assert ((Lock env system collection ims).1 = AlreadyLocked system collection) as Herr
    by (apply Hiff; intros j _; apply Hall).
  split; [done|]. rewrite Herr in Hr. destruct Hr as (_ & _ & -> & _).
  split; [done|]. rewrite Ha. lia.
Qed.

(** C3 as stated fails on a lock that its holder keeps: [Lock] does return
    the already-locked error, after three sleeps of one second each, and
    [TryLock] returns it at once, with no retry and no sleep. *)
Lemma lock_claim_counterexample :
  let ims := {| locks := {["dst_users"]}; sleeps := []; attempts := 0 |} in
  (Lock idle "dst" "users" ims).1 = AlreadyLocked "dst" "users" ∧
  sleeps (Lock idle "dst" "users" ims).2 = [1; 1; 1]%nat ∧
  (TryLock idle "dst" "users" ims).1 = AlreadyLocked "dst" "users" ∧
  sleeps (TryLock idle "dst" "users" ims).2 = [] ∧
  attempts (TryLock idle "dst" "users" ims).2 = 1%nat.
Proof. vm_compute. repeat split. Qed.

End CoordinationFacts.

(* --------------------------------------------------------------------- *)
(** ** The MySQL adapter's bulk store                                     *)
(* --------------------------------------------------------------------- *)

Module AdaptersFacts.
Import Adapters.

Section Facts.
Context `{Helpers} `{ErrorTexts}.

Lemma txExec_spec eng q args tx :
  txEvents (txExec eng q args tx).2
    = (txEvents tx ++ [EvExec q args (isNil (txExec eng q args tx).1)])%list ∧
  work (txExec eng q args tx).2 = effect eng (work tx) (EvExec q args (isNil (txExec eng q args tx).1)).
Proof.
  unfold txExec. destruct (execFails eng q args); simpl; [done|].
  destruct (applyQuery eng q args (work tx)) eqn:E; simpl; rewrite ?E; done.
Qed.

Lemma writeColumns_valueArgs p row n : ∀ columns i st,
  valueArgs (writeColumns p row n i columns st)
    = (valueArgs st ++ rowValues columns row)%list.
Proof.
  induction columns as [|c columns IH]; intros i st; simpl.
  - by rewrite app_nil_r.
  - rewrite IH. simpl. by rewrite <- app_assoc.
Qed.

Lemma writeRow_valueArgs p header row st :
  valueArgs (writeRow p header row st) = (valueArgs st ++ rowValues header row)%list.
Proof. unfold writeRow. simpl. by rewrite writeColumns_valueArgs. Qed.

Lemma txExec_inv eng q args tx err tx' :
  txExec eng q args tx = (err, tx') →
  txEvents tx' = (txEvents tx ++ [EvExec q args (isNil err)])%list ∧
  work tx' = effect eng (work tx) (EvExec q args (isNil err)).
Proof.
  intros E. pose proof (txExec_spec eng q args tx) as Hs. rewrite E in Hs. exact Hs.
Qed.

Lemma insertRows_spec eng p table header :
  ∀ objects pending st tx err st' tx',
    valueArgs st = flatValues header pending →
    ((0 < len header ≤ mysqlValuesLimit)%Z → (len (valueArgs st) ≤ mysqlValuesLimit)%Z) →
    insertRows eng p table header objects st tx = (err, st', tx') →
    ∃ new batches pending',
      txEvents tx' = (txEvents tx ++ new)%list ∧
      work tx' = replay eng new (work tx) ∧
      Forall2 (insertEvent p table header) new batches ∧
      ((0 < len header ≤ mysqlValuesLimit)%Z →
       Forall (λ b, b ≠ [] ∧ (len (flatValues header b) ≤ mysqlValuesLimit)%Z) batches) ∧
      match err with
      | None =>
          Forall (λ ev, succeeded ev = true) new ∧
          (pending ++ objects = concat batches ++ pending')%list ∧
          valueArgs st' = flatValues header pending' ∧
          ((0 < len header ≤ mysqlValuesLimit)%Z → (len (valueArgs st') ≤ mysqlValuesLimit)%Z)
      | Some _ =>
          (∃ ev, last new = Some ev ∧ succeeded ev = false) ∧
          concat batches `prefix_of` (pending ++ objects)%list
      end.
Proof.
  induction objects as [|row rest IH]; intros pending st tx err st' tx' Hst Hlen Hrun.
  - simpl in Hrun. injection Hrun as <- <- <-. exists [], [], pending. simpl. rewrite !app_nil_r.
    repeat split; try done; constructor.
  - simpl in Hrun. destruct (decide _) as [Hflush|Hroom].
    + unfold executeInsert in Hrun.
      destruct (txExec _ _ _ _) as [[e|] tx1] eqn:Hexec;
        apply txExec_inv in Hexec as [Hev Hwork]; simpl in Hev, Hwork.
      * injection Hrun as <- <- <-.
        exists [EvExec (insertQuery p (GetPKFields table) (Name table) header
           (removeLastComma (placeholdersBuilder st))) (valueArgs st) false], [pending], rest.
        simpl. rewrite app_nil_r. repeat split; try done.
        -- repeat constructor. rewrite Hst. by eexists _, _.
        -- intros Hh. constructor; [|constructor]. split; [|rewrite <- Hst; auto].
           intros ->. rewrite Hst in Hflush. unfold flatValues, len in *. simpl in *. lia.
        -- eexists; split; done.
        -- by apply prefix_app_r.
      * destruct (IH [row] (writeRow p header row freshLoop) tx1 err st' tx')
          as (new & batches & pending' & Hev' & Hwork' & Hf2 & Hfa & Hres); [| |done|].
        { rewrite writeRow_valueArgs. simpl. unfold flatValues. simpl. by rewrite app_nil_r. }
        { intros Hh. rewrite writeRow_valueArgs. simpl. unfold rowValues, len in *.
          rewrite length_fmap. lia. }
        exists (EvExec (insertQuery p (GetPKFields table) (Name table) header
           (removeLastComma (placeholdersBuilder st))) (valueArgs st) true :: new),
          (pending :: batches), pending'.
        rewrite Hev', Hwork', Hev, Hwork, <- app_assoc. simpl.
        repeat split; try done.
        -- constructor; [|done]. rewrite Hst. by eexists _, _.
        -- intros Hh. constructor; [|auto]. split; [|rewrite <- Hst; auto].
           intros ->. rewrite Hst in Hflush. unfold flatValues, len in *. simpl in *. lia.
        -- destruct err.
           ++ destruct Hres as [(ev & Hlast & Hfail) Hpre]. split.
              ** exists ev. split; [|done]. destruct new; [done|]. done.
              ** by apply prefix_app.
           ++ destruct Hres as (Hok & Hcat & Hrest). split; [by constructor|].
              split; [|done]. rewrite <- app_assoc, <- Hcat. done.
    + destruct (IH (pending ++ [row])%list (writeRow p header row st) tx err st' tx')
          as (new & batches & pending' & Hev' & Hwork' & Hf2 & Hfa & Hres); [| |done|].
      { rewrite writeRow_valueArgs, Hst. unfold flatValues.
        rewrite bind_app. simpl. by rewrite app_nil_r. }
      { intros Hh. rewrite writeRow_valueArgs. unfold rowValues, len in *.
        rewrite length_app, length_fmap. lia. }
      exists new, batches, pending'.
      repeat split; try done.
      destruct err.
      * destruct Hres as [Hl Hpre]. split; [done|]. by rewrite <- app_assoc in Hpre.
      * destruct Hres as (Hok & Hcat & Hv & Hle). split; [done|].
        split; [by rewrite <- app_assoc in Hcat|]. done.
Qed.

Lemma flatValues_nil_inv header batch :
  (0 < len header)%Z → flatValues header batch = [] → batch = [].
Proof.
  intros Hh. destruct batch as [|row rest]; [done|]. unfold flatValues. simpl.
  intros Hnil. apply (f_equal length) in Hnil.
  rewrite length_app in Hnil. unfold rowValues, len in *.
  rewrite length_fmap in Hnil. simpl in Hnil. lia.
Qed.

Lemma bulkInsertInTransaction_spec eng p tx table objects err tx' :
  bulkInsertInTransaction eng p tx table objects = (err, tx') →
  ∃ new batches,
    txEvents tx' = (txEvents tx ++ new)%list ∧
    work tx' = replay eng new (work tx) ∧
    Forall2 (insertEvent p table (columnNames table)) new batches ∧
    ((0 < len (columnNames table) ≤ mysqlValuesLimit)%Z →
     Forall (λ b, b ≠ [] ∧
                  (len (flatValues (columnNames table) b) ≤ mysqlValuesLimit)%Z) batches) ∧
    match err with
    | None =>
        Forall (λ ev, succeeded ev = true) new ∧
        ((0 < len (columnNames table))%Z → concat batches = objects)
    | Some _ =>
        (∃ ev, last new = Some ev ∧ succeeded ev = false) ∧
        concat batches `prefix_of` objects
    end.
Proof.
  unfold bulkInsertInTransaction. intros Hrun.
  destruct (insertRows _ _ _ _ _ _ _) as [[e st] tx1] eqn:Hrows.
  apply (insertRows_spec _ _ _ _ _ []) in Hrows
    as (new & batches & pending' & Hev & Hwork & Hf2 & Hfa & Hres);
    [|done|intros _; unfold len, mysqlValuesLimit; simpl; lia].
  simpl in Hres. destruct e as [e|].
  - injection Hrun as <- <-. exists new, batches. done.
  - destruct Hres as (Hok & Hcat & Hst & Hlen).
    destruct (decide _) as [Hsome|Hnone].
    + unfold executeInsert in Hrun.
      pose proof Hrun as Hexec. apply txExec_inv in Hexec as [Hev' Hwork'].
      exists (new ++ [EvExec (insertQuery p (GetPKFields table) (Name table)
                        (columnNames table) (removeLastComma (placeholdersBuilder st)))
                        (valueArgs st) (isNil err)])%list, (batches ++ [pending'])%list.
      rewrite Hev', Hwork', Hev, Hwork, <- app_assoc.
      split; [done|]. split.
      { unfold replay. by rewrite foldl_app. }
      split.
      { apply Forall2_app; [done|]. repeat constructor. rewrite Hst. by eexists _, _. }
      split.
      { intros Hh. apply Forall_app. split; [auto|]. repeat constructor.
        - intros ->. rewrite Hst in Hsome. unfold flatValues, len in Hsome. simpl in Hsome. lia.
        - rewrite <- Hst. auto. }
      destruct err; simpl.
      * split.
        -- eexists. rewrite last_snoc. done.
        -- rewrite Hcat, concat_app. simpl. by rewrite app_nil_r.
      * split.
        -- apply Forall_app. split; [done|]. by repeat constructor.
        -- intros _. rewrite Hcat, concat_app. simpl. by rewrite app_nil_r.
    + injection Hrun as <- <-. exists new, batches. repeat split; try done.
      intros Hh. rewrite Hcat.
      assert (pending' = []) as ->; [|by rewrite app_nil_r].
      apply (flatValues_nil_inv (columnNames table)); [done|].
      rewrite <- Hst. destruct (valueArgs st); [done|].
      unfold len in Hnone. simpl in Hnone. lia.
Qed.







(** The merge loop runs the prepared statement once per row, in order, and
    stops at the first failure. *)
Lemma mergeRows_spec eng table query header :
  ∀ objects tx err tx',
    mergeRows eng table query header objects tx = (err, tx') →
    ∃ new attempted,
      txEvents tx' = (txEvents tx ++ new)%list ∧
      work tx' = replay eng new (work tx) ∧
      Forall2 (λ ev row, ∃ ok, ev = EvExec query (rowValues header row) ok)
        new attempted ∧
      attempted `prefix_of` objects ∧
      match err with
      | None => attempted = objects ∧ Forall (λ ev, succeeded ev = true) new
      | Some _ => ∃ ev, last new = Some ev ∧ succeeded ev = false
      end.
Proof.
  induction objects as [|row rest IH]; intros tx err tx' Hrun; simpl in Hrun.
  - injection Hrun as <- <-. exists [], []. rewrite app_nil_r.
    repeat split; try done; constructor.
  - destruct (txExec _ _ _ _) as [[e|] tx1] eqn:Hexec;
      apply txExec_inv in Hexec as [Hev Hwork]; simpl in Hev, Hwork.
    + injection Hrun as <- <-.
      exists [EvExec query (rowValues header row) false], [row].
      repeat split; try done.
      * repeat constructor. by eexists.
      * by apply (prefix_app_r [row] [row] rest).
      * by eexists.
    + apply IH in Hrun as (new & attempted & Hev' & Hwork' & Hf2 & Hpre & Hres).
      exists (EvExec query (rowValues header row) true :: new), (row :: attempted).
      rewrite Hev', Hwork', Hev, Hwork, <- app_assoc. repeat split; try done.
      * constructor; [by eexists|done].
      * by apply (prefix_app [row]).
      * destruct err.
        -- destruct Hres as (ev & Hlast & Hfail). exists ev. split; [|done].
           destruct new; done.
        -- destruct Hres as [-> Hok]. split; [done|by constructor].
Qed.

Lemma bulkMergeInTransaction_spec eng p tx table objects err tx' :
  bulkMergeInTransaction eng p tx table objects = (err, tx') →
  ∃ prepared new attempted,
    txEvents tx' = (txEvents tx ++ EvPrepare (mergeQuery p table) prepared :: new)%list ∧
    work tx' = replay eng new (work tx) ∧
    Forall2 (λ ev row, ∃ ok, ev = EvExec (mergeQuery p table)
                                     (rowValues (columnNames table) row) ok)
      new attempted ∧
    attempted `prefix_of` objects ∧
    match err with
    | None => prepared = true ∧ attempted = objects ∧
              Forall (λ ev, succeeded ev = true) new
    | Some _ => (prepared = false ∧ new = []) ∨
                (prepared = true ∧ ∃ ev, last new = Some ev ∧ succeeded ev = false)
    end.
Proof.
  unfold bulkMergeInTransaction. fold (mergeQuery p table). unfold txPrepare.
  destruct (prepareFails eng (mergeQuery p table)) as [e|]; intros Hrun.
  - injection Hrun as <- <-. exists false, [], []. simpl.
    split; [done|]. split; [done|]. split; [constructor|].
    split; [apply prefix_nil|by left].
  - apply mergeRows_spec in Hrun as (new & attempted & Hev & Hwork & Hf2 & Hpre & Hres).
    exists true, new, attempted. simpl in *. rewrite Hev, <- app_assoc.
    repeat split; try done. destruct err; [by right|done].
Qed.






(** *** What the engine does with the statements *)

Lemma length_flatValues header batch :
  length (flatValues header batch) = (length batch * length header)%nat.
Proof.
  unfold flatValues. induction batch as [|row rest IH]; [done|].
  rewrite bind_cons, length_app, IH. unfold rowValues. rewrite length_fmap.
  simpl. lia.
Qed.

Lemma tuples_step fuel width args :
  args ≠ [] →
  tuples (S fuel) width args = take width args :: tuples fuel width (drop width args).
Proof. by destruct args. Qed.

Lemma tuples_flatValues header : ∀ batch fuel,
  (0 < length header)%nat →
  (length (flatValues header batch) ≤ fuel)%nat →
  tuples fuel (length header) (flatValues header batch) = rowValues header <$> batch.
Proof.
  induction batch as [|row rest IH]; intros fuel Hh Hfuel.
  - by destruct fuel.
  - assert (length (rowValues header row) = length header) as Hrow
      by (unfold rowValues; by rewrite length_fmap).
    change (flatValues header (row :: rest))
      with (rowValues header row ++ flatValues header rest)%list in *.
    rewrite length_app, Hrow in Hfuel.
    destruct fuel as [|fuel]; [lia|].
    rewrite tuples_step.
    + rewrite take_app_length', drop_app_length' by done.
      rewrite IH; [done|done|lia].
    + intros Hnil. apply (f_equal length) in Hnil.
      rewrite length_app, Hrow in Hnil. simpl in Hnil. lia.
Qed.

Lemma applyRows_insert t new :
  pkConstraint t = [] →
  applyRows insertRow t new = Some {| pkConstraint := []; rows := (rows t ++ new)%list |}.
Proof.
  revert t. induction new as [|row rest IH]; intros t Hpk; simpl.
  - rewrite app_nil_r, <- Hpk. by destruct t.
  - unfold insertRow. rewrite bool_decide_eq_false_2; [|rewrite Hpk; tauto].
    rewrite IH; [|done]. simpl. by rewrite <- app_assoc.
Qed.

Lemma applyQuery_insert eng schema name header placeholders batch d t :
  d !! name = Some t → pkConstraint t = [] → header ≠ [] → batch ≠ [] →
  applyQuery eng (insertTemplate schema name header placeholders)
    (flatValues header batch) d
  = Some (<[name := {| pkConstraint := [];
                       rows := (rows t ++ (stored header <$> batch))%list |}]> d).
Proof.
  intros Ht Hpk Hh Hb. unfold applyQuery. rewrite Ht. simpl.
  assert (0 < length header)%nat as Hlen by (destruct header; [done|simpl; lia]).
  rewrite bool_decide_eq_false_2.
  - rewrite tuples_flatValues; [|done|done].
    rewrite <- list_fmap_compose.
    rewrite applyRows_insert; [|done]. done.
  - rewrite length_flatValues. intros [?|[Hnil|Hmod]]; [done| |].
    + apply (f_equal length) in Hnil. rewrite length_flatValues in Hnil.
      destruct batch; [done|]. simpl in Hnil. lia.
    + rewrite Nat.Div0.mod_mul in Hmod. done.
Qed.

Lemma insertQuery_plain p table header placeholders :
  PKFields table = ∅ →
  insertQuery p (GetPKFields table) (Name table) header placeholders
  = insertTemplate (Schema p) (Name table) header placeholders.
Proof.
  intros Hpk. unfold insertQuery, GetPKFields. rewrite Hpk, map_to_list_empty.
  by destruct (decide _).
Qed.

Lemma replay_inserts eng p table header :
  PKFields table = ∅ → header ≠ [] →
  ∀ new batches d t,
    Forall2 (insertEvent p table header) new batches →
    Forall (λ ev, succeeded ev = true) new →
    Forall (λ b, b ≠ []) batches →
    d !! Name table = Some t → pkConstraint t = [] →
    replay eng new d !! Name table
    = Some {| pkConstraint := [];
              rows := (rows t ++ (stored header <$> concat batches))%list |}.
Proof.
  intros Hpk Hh new batches d t Hf2. revert d t.
  induction Hf2 as [|ev b new batches (ph & ok & ->) _ IH]; intros d t Hok Hne Ht Hnopk.
  - simpl. rewrite app_nil_r, Ht, <- Hnopk. by destruct t.
  - apply Forall_cons in Hok as [Hokev Hok]. apply Forall_cons in Hne as [Hb Hne].
    simpl in Hokev. subst ok. simpl.
    rewrite insertQuery_plain by done.
    rewrite (applyQuery_insert _ _ _ _ _ _ _ t) by done. simpl.
    erewrite IH; [|done|done|apply lookup_insert_eq|done].
    simpl. by rewrite fmap_app, app_assoc.
Qed.

(** Keys under upsert: the key of the new row joins the keys unless it is
    there already; no other key moves. *)
Lemma keyOf_union pk row old :
  keyOf pk old = keyOf pk row → keyOf pk (row ∪ old) = keyOf pk row.
Proof.
  unfold keyOf, rowValues. induction pk as [|c pk IH]; [done|].
  rewrite !fmap_cons. intros [= Hc Hrest]. rewrite IH by done. f_equal.
  unfold rowValue in *. rewrite lookup_union.
  destruct (row !! c) as [v|] eqn:Hrow; destruct (old !! c) as [v'|] eqn:Hold; simpl in *; done.
Qed.

Lemma upsert_keys pk row : ∀ storedRows : list Object,
  keyOf pk <$> upsert pk row storedRows
  = if decide (keyOf pk row ∈ keyOf pk <$> storedRows)
    then keyOf pk <$> storedRows
    else ((keyOf pk <$> storedRows) ++ [keyOf pk row])%list.
Proof.
  induction storedRows as [|old rest IH].
  - rewrite decide_False; [done|]. rewrite fmap_nil. apply not_elem_of_nil.
  - cbn [upsert]. rewrite !fmap_cons.
    destruct (decide (keyOf pk old = keyOf pk row)) as [Heq|Hne].
    + rewrite fmap_cons, keyOf_union by done. rewrite <- Heq.
      rewrite decide_True; [done|]. by left.
    + rewrite fmap_cons, IH.
      destruct (decide (keyOf pk row ∈ keyOf pk <$> rest)) as [Hin|Hout].
      * rewrite decide_True; [done|]. by right.
      * rewrite decide_False; [done|].
        intros [Heq|Hin]%elem_of_cons; [by symmetry in Heq|done].
Qed.

Lemma upsert_NoDup pk row (storedRows : list Object) :
  NoDup (keyOf pk <$> storedRows) → NoDup (keyOf pk <$> upsert pk row storedRows).
Proof.
  intros Hnd. rewrite upsert_keys. destruct (decide _) as [Hin|Hout]; [done|].
  apply NoDup_app. split; [done|]. split; [|apply NoDup_singleton].
  intros k Hk ->%list_elem_of_singleton. done.
Qed.

Lemma upsert_elem_of pk row (storedRows : list Object) k :
  k ∈ keyOf pk <$> upsert pk row storedRows ↔
  k = keyOf pk row ∨ k ∈ keyOf pk <$> storedRows.
Proof.
  rewrite upsert_keys. destruct (decide _) as [Hin|Hout].
  - split; [by right|]. intros [->|?]; done.
  - rewrite elem_of_app, list_elem_of_singleton. tauto.
Qed.

Lemma applyQuery_merge eng schema name header ph c u row d d' :
  applyQuery eng (mergeTemplate schema name header ph c u) (rowValues header row) d
    = Some d' →
  ∃ t, d !! name = Some t ∧ pkConstraint t ≠ [] ∧
       d' = <[name := {| pkConstraint := pkConstraint t;
                         rows := upsert (pkConstraint t) (stored header row) (rows t) |}]> d.
Proof.
  unfold applyQuery. destruct (d !! name) as [t|] eqn:Ht; simpl; [|done].
  destruct (bool_decide _) eqn:Hguard; [done|].
  apply bool_decide_eq_false in Hguard.
  assert (header ≠ []) as Hh by tauto.
  assert (0 < length header)%nat as Hlen by (destruct header; [done|simpl; lia]).
  replace (rowValues header row) with (flatValues header [row])
    by (unfold flatValues; simpl; by rewrite app_nil_r).
  rewrite tuples_flatValues; [|done|done]. simpl.
  unfold mergeRow. fold (stored header row).
  destruct (pkConstraint t) as [|k ks] eqn:Hpk; simpl; [done|].
  intros [= <-]. exists t. rewrite Hpk. done.
Qed.

Lemma mergeRows_db eng table schema name header ph c u :
  ∀ objects tx tx' t,
    mergeRows eng table (mergeTemplate schema name header ph c u) header objects tx
      = (None, tx') →
    work tx !! name = Some t →
    NoDup (keyOf (pkConstraint t) <$> rows t) →
    ∃ t', work tx' !! name = Some t' ∧
          pkConstraint t' = pkConstraint t ∧
          NoDup (keyOf (pkConstraint t) <$> rows t') ∧
          (∀ k, k ∈ keyOf (pkConstraint t) <$> rows t →
                k ∈ keyOf (pkConstraint t) <$> rows t') ∧
          (∀ row, row ∈ objects →
                  keyOf (pkConstraint t) (stored header row)
                    ∈ keyOf (pkConstraint t) <$> rows t').
Proof.
  induction objects as [|row rest IH]; intros tx tx' t Hrun Ht Hnd; simpl in Hrun.
  - injection Hrun as <-. exists t. repeat split; try done.
    intros row Hin. by apply elem_of_nil in Hin.
  - unfold txExec in Hrun.
    destruct (execFails eng _ _); [done|].
    destruct (applyQuery _ _ _ _) as [d'|] eqn:Happly; [|done].
    apply applyQuery_merge in Happly as (t0 & Ht0 & Hpk & ->).
    rewrite Ht in Ht0. injection Ht0 as <-.
    apply IH with (t := {| pkConstraint := pkConstraint t;
                           rows := upsert (pkConstraint t) (stored header row) (rows t) |})
      in Hrun as (t' & Ht' & Hpk' & Hnd' & Hmono & Hall).
    + exists t'. simpl in *. repeat split; try done.
      * intros k Hk. apply Hmono, upsert_elem_of. by right.
      * intros r [->|Hin]%elem_of_cons; [|by apply Hall].
        apply Hmono, upsert_elem_of. by left.
    + simpl. apply lookup_insert_eq.
    + simpl. by apply upsert_NoDup.
Qed.
(** C7, as the code has it.  For a table without primary keys whose column
    count is between 1 and [mysqlValuesLimit], the rows are cut into
    consecutive batches, one executed INSERT per batch: each statement is
    the plain insert template, binds the values of its batch row after
    row, holds at least one row and binds at most 65,535 values.  The
    batches, put end to end, are a prefix of the input, and the whole
    input when no error is returned: every row is in exactly one
    statement, in the original order. *)
Theorem bulk_insert_batches eng p tx table objects :
  PKFields table = ∅ →
  (0 < len (columnNames table) ≤ mysqlValuesLimit)%Z →
  ∃ new batches,
    txEvents (bulkStoreInTransaction eng p tx table objects).2
      = (txEvents tx ++ new)%list ∧
    Forall2 (λ ev batch, ∃ placeholders ok,
               ev = EvExec (insertTemplate (Schema p) (Name table)
                              (columnNames table) placeholders)
                      (flatValues (columnNames table) batch) ok) new batches ∧
    Forall (λ batch, batch ≠ [] ∧
                     (len (flatValues (columnNames table) batch) ≤ 65535)%Z) batches ∧
    concat batches `prefix_of` objects ∧
    ((bulkStoreInTransaction eng p tx table objects).1 = None →
     concat batches = objects).
Proof.
  intros Hpk Hh. unfold bulkStoreInTransaction.
  rewrite Hpk, map_size_empty. destruct (decide _) as [_|Hne]; [|done].
  destruct (bulkInsertInTransaction _ _ _ _ _) as [err tx'] eqn:Hrun.
  apply bulkInsertInTransaction_spec in Hrun
    as (new & batches & Hev & _ & Hf2 & Hfa & Hres).
  exists new, batches. simpl. split; [done|]. split.
  { eapply Forall2_impl; [exact Hf2|]. intros ev b (ph & ok & ->).
    exists ph, ok. by rewrite insertQuery_plain. }
  split; [by apply Hfa|].
  destruct err as [e|].
  - split; [tauto|done].
  - destruct Hres as [_ Hcat]. rewrite Hcat by lia. done.
Qed.

(** With an empty header no value is ever bound, so no statement is
    executed. *)
Lemma insertRows_bare eng p table : ∀ objects st tx,
  valueArgs st = [] →
  ∃ st', insertRows eng p table [] objects st tx = (None, st', tx) ∧ valueArgs st' = [].
Proof.
  induction objects as [|row rest IH]; intros st tx Hst; cbn [insertRows].
  - by exists st.
  - rewrite Hst. destruct (decide _) as [Hover|_]; [by vm_compute in Hover|].
    apply IH. by rewrite writeRow_valueArgs, Hst.
Qed.

Lemma bulkStoreInTransaction_bare eng p tx table objects :
  PKFields table = ∅ → columnNames table = [] →
  bulkStoreInTransaction eng p tx table objects = (None, tx).
Proof.
  intros Hpk Hbare. unfold bulkStoreInTransaction.
  rewrite Hpk, map_size_empty. destruct (decide _) as [_|Hne]; [|done].
  unfold bulkInsertInTransaction. rewrite Hbare.
  destruct (insertRows_bare eng p table objects freshLoop tx eq_refl) as (st' & -> & Hst).
  rewrite Hst. by destruct (decide _).
Qed.

(** C4, as the code has it.  Without primary-key fields every statement
    issued is the plain insert template; on a table with between 1 and
    [mysqlValuesLimit] columns and an engine table without a constraint a
    successful call appends one stored row per input row, in order, so
    repeated rows both appear; on a table without columns the call returns
    nil and issues no statement at all.  With primary-key fields the one
    statement prepared and executed, once per row, is the merge template
    with the table's constraint name; on an engine table whose keys are
    distinct a successful call leaves the keys distinct and the key of
    every input row present, so rows sharing a key collapse to one. *)
Theorem bulk_store_plain_or_merge eng p tx table objects :
  (PKFields table = ∅ →
   (∃ new, txEvents (bulkStoreInTransaction eng p tx table objects).2
             = (txEvents tx ++ new)%list ∧
           Forall (λ ev, ∃ placeholders args ok,
                     ev = EvExec (insertTemplate (Schema p) (Name table)
                                    (columnNames table) placeholders) args ok) new) ∧
   ∀ t, (bulkStoreInTransaction eng p tx table objects).1 = None →
        (0 < len (columnNames table) ≤ mysqlValuesLimit)%Z →
        work tx !! Name table = Some t → pkConstraint t = [] →
        work (bulkStoreInTransaction eng p tx table objects).2 !! Name table
        = Some {| pkConstraint := [];
                  rows := (rows t ++ (stored (columnNames table) <$> objects))%list |})
  ∧
  (PKFields table ≠ ∅ →
   (∃ prepared new,
       txEvents (bulkStoreInTransaction eng p tx table objects).2
         = (txEvents tx ++ EvPrepare (mergeQuery p table) prepared :: new)%list ∧
       isMerge (mergeQuery p table) = true ∧
       Forall (λ ev, ∃ row ok,
                 row ∈ objects ∧
                 ev = EvExec (mergeQuery p table)
                        (rowValues (columnNames table) row) ok) new) ∧
   ∀ t, (bulkStoreInTransaction eng p tx table objects).1 = None →
        work tx !! Name table = Some t →
        NoDup (keyOf (pkConstraint t) <$> rows t) →
        ∃ t', work (bulkStoreInTransaction eng p tx table objects).2 !! Name table
                = Some t' ∧
              pkConstraint t' = pkConstraint t ∧
              NoDup (keyOf (pkConstraint t) <$> rows t') ∧
              ∀ row, row ∈ objects →
                     keyOf (pkConstraint t) (stored (columnNames table) row)
                       ∈ keyOf (pkConstraint t) <$> rows t')
  ∧
  (PKFields table = ∅ → columnNames table = [] →
   bulkStoreInTransaction eng p tx table objects = (None, tx)).
Proof.
  split; [|split; [|by apply bulkStoreInTransaction_bare]];
    intros Hpk; unfold bulkStoreInTransaction.
  - rewrite Hpk, map_size_empty. destruct (decide _) as [_|Hne]; [|done].
    destruct (bulkInsertInTransaction _ _ _ _ _) as [err tx'] eqn:Hrun.
    apply bulkInsertInTransaction_spec in Hrun
      as (new & batches & Hev & Hwork & Hf2 & Hfa & Hres).
    simpl. split.
    + exists new. split; [done|]. clear -Hf2 Hpk.
      induction Hf2 as [|ev b new batches (ph & ok & ->) _ IH]; constructor; [|done].
      rewrite insertQuery_plain by done. by eexists _, _, _.
    + intros t -> Hh Ht Hnopk. destruct Hres as [Hok Hcat].
      rewrite Hwork, <- Hcat by lia.
      apply (replay_inserts eng p table); try done.
      * intros Hnil. unfold len in Hh. rewrite Hnil in Hh. simpl in Hh. lia.
      * eapply Forall_impl; [by apply Hfa|]. by intros b [? _].
  - destruct (decide _) as [Hzero|_].
    { exfalso. apply Hpk. apply map_size_empty_iff. lia. }
    destruct (bulkMergeInTransaction _ _ _ _ _) as [err tx'] eqn:Hrun. simpl. split.
    + apply bulkMergeInTransaction_spec in Hrun
        as (prepared & new & attempted & Hev & _ & Hf2 & Hpre & _).
      exists prepared, new. split; [done|]. split; [done|].
      destruct Hpre as [rest ->]. clear -Hf2.
      induction Hf2 as [|ev row new attempted (ok & ->) _ IH]; constructor.
      * exists row, ok. split; [by left|done].
      * eapply Forall_impl; [exact IH|]. intros ev (r & ok' & Hin & ->).
        exists r, ok'. split; [by right|done].
    + intros t -> Ht Hnd. unfold bulkMergeInTransaction in Hrun.
      fold (mergeQuery p table) in Hrun. unfold txPrepare in Hrun.
      destruct (prepareFails eng (mergeQuery p table)); [done|].
      unfold mergeQuery in Hrun.
      eapply mergeRows_db in Hrun; [|exact Ht|exact Hnd].
      destruct Hrun as (t' & Ht' & Hpk' & Hnd' & _ & Hall). by exists t'.
Qed.
End Facts.

End AdaptersFacts.

(** *** The bulk store on sample inputs *)

Module AdaptersExamples.
Import Adapters AdaptersFacts Samples.

(** Two equal rows into the table without primary key: one INSERT binding
    four values, and both rows are stored. *)
Example insert_twice :
  rows <$> (work (bulkStoreInTransaction reliable mysql opened events_table
                    [event1; event1]).2 !! "events")
  = Some [event1; event1].
Proof. vm_compute. reflexivity. Qed.

(** Five equal rows into the table with primary key [email]: one row. *)
Example merge_five_times :
  rows <$> (work (bulkStoreInTransaction reliable mysql opened users_table
                    [user1; user1; user1; user1; user1]).2 !! "users")
  = Some [user1].
Proof. vm_compute. reflexivity. Qed.

Lemma bulk_insert_batches_witness :
  PKFields events_table = ∅ ∧
  (0 < len (columnNames events_table) ≤ mysqlValuesLimit)%Z ∧
  ∃ new batches,
    txEvents (bulkStoreInTransaction reliable mysql opened events_table
                [event1; event1]).2 = (txEvents opened ++ new)%list ∧
    Forall2 (λ ev batch, ∃ placeholders ok,
               ev = EvExec (insertTemplate (Schema mysql) (Name events_table)
                              (columnNames events_table) placeholders)
                      (flatValues (columnNames events_table) batch) ok) new batches ∧
    Forall (λ batch, batch ≠ [] ∧
                     (len (flatValues (columnNames events_table) batch) ≤ 65535)%Z)
      batches ∧
    concat batches `prefix_of` [event1; event1] ∧
    ((bulkStoreInTransaction reliable mysql opened events_table
        [event1; event1]).1 = None →
     concat batches = [event1; event1]).
Proof.
  split; [reflexivity|]. split; [vm_compute; split; [reflexivity|discriminate]|].
  apply (bulk_insert_batches reliable mysql opened events_table [event1; event1]).
  - reflexivity.
  - vm_compute. split; [reflexivity|discriminate].
Defined.

(** C7 as stated fails on a table without columns: the call succeeds
    without executing any statement, so the row it was given is in no
    statement at all. *)
Lemma bulk_insert_claim_counterexample :
  PKFields bare_table = ∅ ∧
  bulkStoreInTransaction reliable mysql opened bare_table [event1] = (None, opened) ∧
  BulkInsert reliable mysql bare_table [event1]
    {| db := database; events := [] |}
  = (None, {| db := database; events := [EvBegin; EvCommit true] |}).
Proof. vm_compute. repeat split. Qed.

Lemma bulk_store_plain_or_merge_witness :
  work (bulkStoreInTransaction reliable mysql opened events_table
          [event1; event1]).2 !! Name events_table
  = Some {| pkConstraint := [];
            rows := ([] ++ (stored (columnNames events_table) <$> [event1; event1]))%list |}
  ∧
  ∃ t', work (bulkStoreInTransaction reliable mysql opened users_table
                [user1; user1]).2 !! Name users_table = Some t' ∧
        pkConstraint t' = ["email"] ∧
        NoDup (keyOf ["email"] <$> rows t') ∧
        ∀ row, row ∈ [user1; user1] →
               keyOf ["email"] (stored (columnNames users_table) row)
                 ∈ keyOf ["email"] <$> rows t'.
Proof.
  split.
  - apply (proj2 (proj1 (bulk_store_plain_or_merge reliable mysql opened events_table
                           [event1; event1]) eq_refl)
             {| pkConstraint := []; rows := [] |}).
    + vm_compute. reflexivity.
    + vm_compute. split; [reflexivity|discriminate].
    + vm_compute. reflexivity.
    + reflexivity.
  - apply (proj2 (proj1 (proj2 (bulk_store_plain_or_merge reliable mysql opened
                                  users_table [user1; user1]))
                    ltac:(vm_compute; discriminate))
             {| pkConstraint := ["email"]; rows := [] |}).
    + vm_compute. reflexivity.
    + vm_compute. reflexivity.
    + simpl. constructor.
Defined.

(** C4 as stated fails on a table without columns and without primary
    key: given the same row twice the call returns nil, but it issues no
    INSERT and the engine table holds neither row. *)
Lemma bulk_store_claim_counterexample :
  PKFields bare_table = ∅ ∧
  (bulkStoreInTransaction reliable mysql opened bare_table [event1; event1]).1 = None ∧
  txEvents (bulkStoreInTransaction reliable mysql opened bare_table [event1; event1]).2
    = txEvents opened ∧
  rows <$> (work (bulkStoreInTransaction reliable mysql opened bare_table
                    [event1; event1]).2 !! Name bare_table)
  = Some [].
Proof. vm_compute. repeat split. Qed.

(** The merge statement of the table with primary key [email]: the
    conflict is resolved on the constraint of the table, and the update
    section sets every column of the header from its own placeholder. *)
Example merge_statement_text :
  mergeQuery mysql users_table
  = mergeTemplate "public" "users" ["email"; "name"] "($1,$2)"
      "public_users_pk" "email=$1,name=$2".
Proof. vm_compute. reflexivity. Qed.

End AdaptersExamples.

(* --------------------------------------------------------------------- *)
(** ** The streaming worker and the Postgres storage                      *)
(* --------------------------------------------------------------------- *)

Module StoragesFacts.
Import Storages.

Section Facts.
Context {S : Type} `{EventHelpers} `{ErrorTexts}.

Lemma untouched_refl (w : World S) : untouched w w.
Proof. by repeat split. Qed.

Lemma untouched_trans (w1 w2 w3 : World S) :
  untouched w1 w2 → untouched w2 w3 → untouched w1 w3.
Proof.
  intros (?&?&?&?&?&?) (?&?&?&?&?&?). repeat split; congruence.
Qed.

Lemma untouched_called (s : S) c (w : World S) : untouched w (called s c w).
Proof. by repeat split. Qed.

Lemma EnsureTable_inv (p : Postgres S) table w r w' :
  tableHelper_EnsureTable p table w = (r, w') →
  calls w' = (calls w ++ [CallEnsureTable (name p) table (errOf r)])%list ∧
  untouched w w'.
Proof.
  unfold tableHelper_EnsureTable. destruct (EnsureTable _ _ _ _) as [r0 s].
  intros [= <- <-]. split; [done|apply untouched_called].
Qed.

Lemma RefreshTableSchema_inv (p : Postgres S) table w r w' :
  tableHelper_RefreshTableSchema p table w = (r, w') →
  calls w' = (calls w ++ [CallRefreshTableSchema (name p) table (errOf r)])%list ∧
  untouched w w'.
Proof.
  unfold tableHelper_RefreshTableSchema. destruct (RefreshTableSchema _ _ _ _) as [r0 s].
  intros [= <- <-]. split; [done|apply untouched_called].
Qed.

Lemma adapterInsert_inv (p : Postgres S) dbTable event w r w' :
  adapterInsert p dbTable event w = (r, w') →
  calls w' = (calls w ++ [CallInsert dbTable event r])%list ∧ untouched w w'.
Proof.
  unfold adapterInsert. destruct (adapter_Insert _ _ _ _) as [r0 s].
  intros [= <- <-]. split; [done|apply untouched_called].
Qed.

Lemma adapterBulkInsert_inv (p : Postgres S) dbSchema objects w r w' :
  adapterBulkInsert p dbSchema objects w = (r, w') →
  calls w' = (calls w ++ [CallBulkInsert dbSchema objects r])%list ∧ untouched w w'.
Proof.
  unfold adapterBulkInsert. destruct (adapter_BulkInsert _ _ _ _) as [r0 s].
  intros [= <- <-]. split; [done|apply untouched_called].
Qed.

Lemma Insert_spec (p : Postgres S) table event w :
  ∃ trace,
    calls (Insert p table event w).2 = (calls w ++ trace)%list ∧
    insert_trace p table event (Insert p table event w).1 trace ∧
    untouched w (Insert p table event w).2.
Proof.
  unfold Insert.
  destruct (tableHelper_EnsureTable p table w) as [[e|dbTable] w1] eqn:E1;
    apply EnsureTable_inv in E1 as [C1 U1]; simpl in C1.
  { eexists. split; [exact C1|]. split; [|done]. left. by exists e. }
  destruct (adapterInsert p dbTable event w1) as [[e1|] w2] eqn:E2;
    apply adapterInsert_inv in E2 as [C2 U2]; rewrite C1 in C2.
  2:{ eexists. simpl. split; [by rewrite C2, <- app_assoc|].
      split; [|by eapply untouched_trans]. right; left. by exists dbTable. }
  destruct (tableHelper_RefreshTableSchema p table w2) as [[e|fresh] w3] eqn:E3;
    apply RefreshTableSchema_inv in E3 as [C3 U3]; simpl in C3; rewrite C2 in C3.
  { eexists. simpl. split; [by rewrite C3, <- !app_assoc|].
    split; [|by repeat (eapply untouched_trans; [|done])].
    right; right; left. by exists dbTable, e1, e. }
  destruct (tableHelper_EnsureTable p table w3) as [[e|dbTable'] w4] eqn:E4;
    apply EnsureTable_inv in E4 as [C4 U4]; simpl in C4; rewrite C3 in C4.
  { eexists. simpl. split; [by rewrite C4, <- !app_assoc|].
    split; [|by repeat (eapply untouched_trans; [|done])].
    right; right; right; left. by exists dbTable, e1, e. }
  destruct (adapterInsert p dbTable' event w4) as [r w5] eqn:E5;
    apply adapterInsert_inv in E5 as [C5 U5]; rewrite C4 in C5.
  eexists. simpl. split; [by rewrite C5, <- !app_assoc|].
  split; [|by repeat (eapply untouched_trans; [|done])].
  right; right; right; right. by exists dbTable, e1, dbTable'.
Qed.

(** *** The worker *)

Lemma getTableHelper_new (p : Postgres S) draw :
  getTableHelper (newStreamingWorker p) draw = Some (MapTableSchema (backend p)).
Proof.
  unfold getTableHelper. cbn [tableHelper newStreamingWorker length].
  by rewrite Nat.mod_1_r.
Qed.

(** A pass of the loop that finds a due event at the head of the queue,
    processes it into a non-empty header and reaches [Insert]. *)
Lemma iteration_reaches_insert (p : Postgres S) d w item rest header flattenObject :
  staged p = false → closed w = false →
  eventQueue w = {| items := item :: rest; queueClosed := false |} →
  (notBefore item ≤ nowAtDequeue d)%Z →
  ProcessEvent (processor p) (payload item) = inr (header, flattenObject) →
  Exists header = true →
  iteration (newStreamingWorker p) d w =
    let table := MapTableSchema (backend p) header in
    match Insert p table flattenObject
            (setQueue {| items := rest; queueClosed := false |} w) with
    | (Some err, w1) =>
        (Continue, onInsertError (newStreamingWorker p) (payload item) flattenObject
                     (tokenId item) (nowAtRequeue d) err w1)
    | (None, w1) =>
        (Continue, onInsertSuccess (newStreamingWorker p) (payload item) flattenObject
                     table (tokenId item) w1)
    end.
Proof.
  intros Hstaged Hclosed Hq Hdue Hproc Hex. unfold iteration.
  cbn [streamingStorage newStreamingWorker asStreaming IsStaging worker_processor].
  rewrite Hstaged, Hclosed. unfold DequeueBlock. rewrite Hq. cbn [queueClosed items].
  destruct (Z.ltb_spec (nowAtDequeue d) (notBefore item)) as [Hlt|_]; [lia|].
  rewrite Hproc, Hex. cbn [negb]. rewrite getTableHelper_new.
  cbn [storage_Insert]. reflexivity.
Qed.

Lemma Fallback_spec (failedEvents : list FailedEvent) (w : World S) :
  fallbackLogger (Fallback failedEvents w) = (fallbackLogger w ++ failedEvents)%list ∧
  eventQueue (Fallback failedEvents w) = eventQueue w ∧
  eventsCache (Fallback failedEvents w) = eventsCache w ∧
  telemetry (Fallback failedEvents w) = telemetry w ∧
  calls (Fallback failedEvents w) = calls w ∧
  sink (Fallback failedEvents w) = sink w.
Proof.
  unfold Fallback. revert w. induction failedEvents as [|fe rest IH]; intros w; simpl.
  - by rewrite app_nil_r.
  - destruct (IH (ConsumeAny fe w)) as (-> & -> & -> & -> & -> & ->). simpl.
    by rewrite <- app_assoc.
Qed.

(** What the worker does with an event whose [Insert] returned [err]. *)
Lemma onInsertError_spec (p : Postgres S) fact flattenObject tokenID now err w :
  let w' := onInsertError (newStreamingWorker p) fact flattenObject tokenID now err w in
  (if isTransient (Error err)
   then items (eventQueue w')
          = (items (eventQueue w) ++
             [{| payload := fact; notBefore := (now + 20 * Second)%Z;
                 tokenId := tokenID |}])%list ∧
        fallbackLogger w' = fallbackLogger w
   else items (eventQueue w') = items (eventQueue w) ∧
        fallbackLogger w'
          = (fallbackLogger w ++
             [{| Event := Serialize fact; ErrorText := Error err;
                 EventID := ExtractEventID flattenObject |}])%list) ∧
  telemetry w'
    = (telemetry w ++ [counters_ErrorEvents (name p) 1;
                       metrics_ErrorTokenEvent tokenID (name p)])%list ∧
  eventsCache w'
    = (eventsCache w ++ [CacheError (name p) (ExtractEventID fact) (Error err)])%list.
Proof.
  unfold onInsertError.
  cbn [streamingStorage newStreamingWorker asStreaming Name storage_Fallback].
  destruct (isTransient (Error err)); simpl.
  - by rewrite <- app_assoc.
  - by rewrite <- app_assoc.
Qed.

Lemma Insert_untouched (p : Postgres S) table event w :
  untouched w (Insert p table event w).2.
Proof. by destruct (Insert_spec p table event w) as (trace & _ & _ & Hu). Qed.

(** The worker's treatment of an event whose [Insert] failed, from the
    world before the pass. *)
Lemma worker_routes_insert_error (p : Postgres S) d w item rest header flattenObject err :
  staged p = false → closed w = false →
  eventQueue w = {| items := item :: rest; queueClosed := false |} →
  (notBefore item ≤ nowAtDequeue d)%Z →
  ProcessEvent (processor p) (payload item) = inr (header, flattenObject) →
  Exists header = true →
  (Insert p (MapTableSchema (backend p) header) flattenObject
     (setQueue {| items := rest; queueClosed := false |} w)).1 = Some err →
  (iteration (newStreamingWorker p) d w).1 = Continue ∧
  (if isTransient (Error err)
   then items (eventQueue (iteration (newStreamingWorker p) d w).2)
          = (rest ++ [{| payload := payload item;
                         notBefore := (nowAtRequeue d + 20 * Second)%Z;
                         tokenId := tokenId item |}])%list ∧
        fallbackLogger (iteration (newStreamingWorker p) d w).2 = fallbackLogger w
   else items (eventQueue (iteration (newStreamingWorker p) d w).2) = rest ∧
        fallbackLogger (iteration (newStreamingWorker p) d w).2
          = (fallbackLogger w ++
             [{| Event := Serialize (payload item); ErrorText := Error err;
                 EventID := ExtractEventID flattenObject |}])%list) ∧
  telemetry (iteration (newStreamingWorker p) d w).2
    = (telemetry w ++ [counters_ErrorEvents (name p) 1;
                       metrics_ErrorTokenEvent (tokenId item) (name p)])%list ∧
  eventsCache (iteration (newStreamingWorker p) d w).2
    = (eventsCache w ++
       [CacheError (name p) (ExtractEventID (payload item)) (Error err)])%list.
Proof.
  intros Hstaged Hclosed Hq Hdue Hproc Hex Hins.
  rewrite (iteration_reaches_insert p d w item rest header flattenObject) by done.
  cbn zeta.
  pose proof (Insert_untouched p (MapTableSchema (backend p) header) flattenObject
                (setQueue {| items := rest; queueClosed := false |} w))
    as (Uq & Uf & Uc & Ut & _ & _).
  destruct (Insert p _ flattenObject _) as [r w1]. simpl in Hins. subst r.
  simpl in Uq, Uf, Uc, Ut. cbn [fst snd]. split; [done|].
  pose proof (onInsertError_spec p (payload item) flattenObject (tokenId item)
                (nowAtRequeue d) err w1) as Hspec.
  cbn zeta in Hspec. rewrite Uq, Uf, Uc, Ut in Hspec. exact Hspec.
Qed.

(** The substrings that make an insert error transient. *)
Lemma isTransient_spec (text : string) :
  isTransient text = true ↔
  ∃ pattern, pattern ∈ ["connection refused"; "EOF"; "write: broken pipe";
                        "context deadline exceeded"; "connection reset by peer"] ∧
             ∃ before after, text = before +:+ pattern +:+ after.
Proof.
  unfold isTransient. rewrite !orb_true_iff, !Contains_spec. split.
  - intros [[[[Hc|Hc]|Hc]|Hc]|Hc]; eexists; (split; [|exact Hc]);
      repeat first [by left | right].
  - intros (pattern & Hin & Hc).
    repeat (apply elem_of_cons in Hin as [->|Hin]; [tauto|]).
    by apply elem_of_nil in Hin.
Qed.

(** *** StoreWithParseFunc *)

Lemma cacheFailedEvents_spec (p : Postgres S) failedEvents (w : World S) :
  eventsCache (cacheFailedEvents p failedEvents w)
    = (eventsCache w ++
       ((λ fe, CacheError (name p) (EventID fe) (ErrorText fe)) <$> failedEvents))%list ∧
  fallbackLogger (cacheFailedEvents p failedEvents w) = fallbackLogger w.
Proof.
  unfold cacheFailedEvents. revert w.
  induction failedEvents as [|fe rest IH]; intros w; simpl.
  - by rewrite app_nil_r.
  - destruct (IH (cache (CacheError (name p) (EventID fe) (ErrorText fe)) w)) as [-> ->].
    simpl. by rewrite <- app_assoc.
Qed.

Lemma cacheRows_spec (p : Postgres S) err table objects (w : World S) :
  eventsCache w `prefix_of` eventsCache (cacheRows p err table objects w) ∧
  fallbackLogger (cacheRows p err table objects w) = fallbackLogger w.
Proof.
  unfold cacheRows. revert w. induction objects as [|object rest IH]; intros w; simpl.
  - done.
  - match goal with |- context [foldl ?f ?w0 rest] =>
      destruct (IH w0) as [Hpre ->] end.
    split; [|by destruct err].
    etrans; [|exact Hpre]. destruct err; simpl; by apply prefix_app_r.
Qed.

Lemma storeTable_untouched (p : Postgres S) fdata table (w : World S) :
  untouched w (storeTable p fdata table w).2.
Proof.
  unfold storeTable.
  destruct (tableHelper_EnsureTable p table w) as [[e|dbSchema] w1] eqn:E1;
    apply EnsureTable_inv in E1 as [_ U1]; [done|].
  destruct (adapterBulkInsert p dbSchema (GetPayload fdata) w1) as [r w2] eqn:E2.
  apply adapterBulkInsert_inv in E2 as [_ U2]. by eapply untouched_trans.
Qed.

Lemma storeTables_spec (p : Postgres S) : ∀ flatData flag tableResults (w : World S),
  (storeTables p flatData flag tableResults w).1.1
    = flag && forallb isNil (storeErrors p flatData w) ∧
  (storeTables p flatData flag tableResults w).1.2
    = recorded p tableResults flatData (storeErrors p flatData w) ∧
  fallbackLogger (storeTables p flatData flag tableResults w).2 = fallbackLogger w ∧
  eventsCache w `prefix_of` eventsCache (storeTables p flatData flag tableResults w).2.
Proof.
  induction flatData as [|fdata rest IH]; intros flag tableResults w.
  - simpl. by rewrite andb_true_r.
  - cbn [storeTables storeErrors].
    pose proof (storeTable_untouched p fdata (MapTableSchema (backend p) (Header fdata)) w)
      as (_ & Uf & Uc & _).
    destruct (storeTable p fdata _ w) as [err w1]. simpl in Uf, Uc.
    pose proof (cacheRows_spec p err (MapTableSchema (backend p) (Header fdata))
                  (GetPayload fdata) w1) as [Cpre Cf].
    match goal with |- context [storeTables p rest ?f ?m ?w0] =>
      destruct (IH f m w0) as (-> & -> & -> & Hpre) end.
    rewrite Cf, Uf. split; [|split; [done|split; [done|]]].
    + destruct err; simpl; [by rewrite andb_false_r|done].
    + etrans; [|exact Hpre]. by rewrite <- Uc.
Qed.

Lemma recorded_lookup (p : Postgres S) : ∀ flatData errors tableResults i fdata e,
  NoDup (tableOf p <$> flatData) →
  flatData !! i = Some fdata → errors !! i = Some e →
  recorded p tableResults flatData errors !! tableOf p fdata
  = Some {| Err := e; RowsCount := GetPayloadLen fdata |}.
Proof.
  unfold recorded.
  induction flatData as [|g rest IH]; intros errors tableResults i fdata e Hnd Hi He;
    [done|].
  destruct errors as [|e0 errors]; [done|].
  rewrite fmap_cons in Hnd. apply NoDup_cons in Hnd as [Hfresh Hnd].
  cbn [zip_with foldl fst snd]. destruct i as [|i]; simpl in Hi, He.
  - injection Hi as ->. injection He as ->.
    assert (∀ (pairs : list (ProcessedFile * option error))
              (m : gmap string StoreResult),
              tableOf p fdata ∉ (tableOf p ∘ fst) <$> pairs →
              foldl (λ m ge, <[tableOf p ge.1 := {| Err := ge.2;
                                                   RowsCount := GetPayloadLen ge.1 |}]> m)
                m pairs !! tableOf p fdata = m !! tableOf p fdata) as Hkeep.
    { induction pairs as [|[g' e'] pairs IHp]; intros m Hout; [done|].
      rewrite fmap_cons in Hout. cbn [foldl fst snd]. rewrite IHp.
      - apply lookup_insert_ne. intros Heq. apply Hout, elem_of_cons. left.
        simpl. by rewrite <- Heq.
      - intros Hin. apply Hout, elem_of_cons. by right. }
    rewrite Hkeep; [apply lookup_insert_eq|].
    intros Hin. apply Hfresh. apply list_elem_of_fmap in Hin as ([g' e'] & Heq & Hin).
    apply list_elem_of_fmap. exists g'. split; [done|].
    apply elem_of_zip_l in Hin. done.
  - by apply (IH errors _ i).
Qed.

(** C1, as the code has it.  When [Insert] fails for a due event, the pass
    goes on to the next one and: the event is put back at the end of the
    queue with [notBefore] twenty seconds after the clock reading exactly
    when the error text contains one of "connection refused", "EOF",
    "write: broken pipe", "context deadline exceeded", "connection reset by
    peer"; otherwise one [FailedEvent] with the serialized event, the error
    text and the event id goes to the fallback logger.  In both cases the
    error counter and the token metric are bumped and the events cache
    gets the error under the event's id. *)
Theorem insert_failure_routing (p : Postgres S) d w item rest header flattenObject err :
  staged p = false → closed w = false →
  eventQueue w = {| items := item :: rest; queueClosed := false |} →
  (notBefore item ≤ nowAtDequeue d)%Z →
  ProcessEvent (processor p) (payload item) = inr (header, flattenObject) →
  Exists header = true →
  (Insert p (MapTableSchema (backend p) header) flattenObject
     (setQueue {| items := rest; queueClosed := false |} w)).1 = Some err →
  (isTransient (Error err) = true ↔
   ∃ pattern, pattern ∈ ["connection refused"; "EOF"; "write: broken pipe";
                         "context deadline exceeded"; "connection reset by peer"] ∧
              ∃ before after, Error err = before +:+ pattern +:+ after) ∧
  (iteration (newStreamingWorker p) d w).1 = Continue ∧
  (if isTransient (Error err)
   then items (eventQueue (iteration (newStreamingWorker p) d w).2)
          = (rest ++ [{| payload := payload item;
                         notBefore := (nowAtRequeue d + 20 * Second)%Z;
                         tokenId := tokenId item |}])%list ∧
        fallbackLogger (iteration (newStreamingWorker p) d w).2 = fallbackLogger w
   else items (eventQueue (iteration (newStreamingWorker p) d w).2) = rest ∧
        fallbackLogger (iteration (newStreamingWorker p) d w).2
          = (fallbackLogger w ++
             [{| Event := Serialize (payload item); ErrorText := Error err;
                 EventID := ExtractEventID flattenObject |}])%list) ∧
  telemetry (iteration (newStreamingWorker p) d w).2
    = (telemetry w ++ [counters_ErrorEvents (name p) 1;
                       metrics_ErrorTokenEvent (tokenId item) (name p)])%list ∧
  eventsCache (iteration (newStreamingWorker p) d w).2
    = (eventsCache w ++
       [CacheError (name p) (ExtractEventID (payload item)) (Error err)])%list.
Proof.
  intros. split; [apply isTransient_spec|].
  by apply (worker_routes_insert_error p d w item rest header flattenObject err).
Qed.

(** C8.  [Insert] ensures the table and calls the adapter; if that call
    fails it refreshes the schema, ensures the table again and calls the
    adapter once more, and no further: at most two adapter inserts.  The
    error returned is the one of the step that ended the sequence.  The
    worker that gets such an error puts the event back on the queue or
    sends it to the fallback logger. *)
Theorem insert_retries_once (p : Postgres S) table event w :
  (∃ trace,
      calls (Insert p table event w).2 = (calls w ++ trace)%list ∧
      insert_trace p table event (Insert p table event w).1 trace ∧
      (length (filter (λ c, isCallInsert c = true) trace) ≤ 2)%nat) ∧
  ∀ d w0 item rest header flattenObject err,
    staged p = false → closed w0 = false →
    eventQueue w0 = {| items := item :: rest; queueClosed := false |} →
    (notBefore item ≤ nowAtDequeue d)%Z →
    ProcessEvent (processor p) (payload item) = inr (header, flattenObject) →
    Exists header = true →
    (Insert p (MapTableSchema (backend p) header) flattenObject
       (setQueue {| items := rest; queueClosed := false |} w0)).1 = Some err →
    last (items (eventQueue (iteration (newStreamingWorker p) d w0).2))
      = Some {| payload := payload item;
                notBefore := (nowAtRequeue d + 20 * Second)%Z;
                tokenId := tokenId item |} ∨
    last (fallbackLogger (iteration (newStreamingWorker p) d w0).2)
      = Some {| Event := Serialize (payload item); ErrorText := Error err;
                EventID := ExtractEventID flattenObject |}.
Proof.
  split.
  - destruct (Insert_spec p table event w) as (trace & Hcalls & Htrace & _).
    exists trace. split; [done|]. split; [done|].
    destruct Htrace as [(e & -> & _)|[(t & -> & _)|[(t & e1 & e & -> & _)|
      [(t & e1 & e & -> & _)|(t & e1 & t' & ->)]]]]; simpl; lia.
  - intros d w0 item rest header flattenObject err Hs Hc Hq Hdue Hproc Hex Hins.
    destruct (worker_routes_insert_error p d w0 item rest header flattenObject err)
      as (_ & Hroute & _); try done.
    destruct (isTransient (Error err)); destruct Hroute as [Hitems Hlog].
    + left. rewrite Hitems. apply last_snoc.
    + right. rewrite Hlog. apply last_snoc.
Qed.

(** C10.  After the processor has split a file into table groups and
    failed events, [StoreWithParseFunc] returns no error and the count of
    failed events; the failed events reach the fallback logger exactly
    when every group stored without error, and not at all otherwise; their
    errors are in the events cache in both cases; and, the groups being of
    distinct tables, the result of each table carries the error of its
    group and its row count. *)
Theorem failed_events_persist_only_on_full_success (p : Postgres S)
    fileName payload alreadyUploadedTables parseFunc w flatData failedEvents :
  ProcessFilePayload (processor p) fileName payload alreadyUploadedTables parseFunc
    = inr (flatData, failedEvents) →
  let errors := storeErrors p flatData (cacheFailedEvents p failedEvents w) in
  let r := StoreWithParseFunc p fileName payload alreadyUploadedTables parseFunc w in
  r.1.2 = None ∧ r.1.1.2 = len failedEvents ∧
  fallbackLogger r.2
    = (if forallb isNil errors
       then (fallbackLogger w ++ failedEvents)%list
       else fallbackLogger w) ∧
  (eventsCache w ++
   ((λ fe, CacheError (name p) (EventID fe) (ErrorText fe)) <$> failedEvents))%list
    `prefix_of` eventsCache r.2 ∧
  (NoDup (tableOf p <$> flatData) →
   ∀ i fdata e,
     flatData !! i = Some fdata → errors !! i = Some e →
     r.1.1.1 !! tableOf p fdata
     = Some {| Err := e; RowsCount := GetPayloadLen fdata |}).
Proof.
  intros Hproc errors r. subst errors r. unfold StoreWithParseFunc. rewrite Hproc.
  destruct (cacheFailedEvents_spec p failedEvents w) as [Hcache Hlog].
  pose proof (storeTables_spec p flatData true ∅ (cacheFailedEvents p failedEvents w))
    as (Hflag & Hres & Hf & Hpre).
  destruct (storeTables p flatData true ∅ _) as [[flag results] w2].
  simpl in Hflag, Hres, Hf, Hpre. subst flag results. cbn [fst snd].
  split; [done|]. split; [done|]. split.
  - destruct (forallb isNil _).
    + destruct (Fallback_spec failedEvents w2) as (-> & _). by rewrite Hf, Hlog.
    + by rewrite Hf, Hlog.
  - split.
    + rewrite <- Hcache. destruct (forallb isNil _); [|done].
      destruct (Fallback_spec failedEvents w2) as (_ & _ & -> & _). done.
    + intros Hnd i fdata e Hi He. by apply (recorded_lookup p flatData _ ∅ i).
Qed.
End Facts.

End StoragesFacts.

(** *** The worker and the storage on sample inputs *)

Module StoragesExamples.
Import Storages StoragesFacts Samples.

(** "connection refused": the event is back on the queue, due twenty
    seconds later, and nothing is written to the fallback logger. *)
Lemma insert_failure_routing_witness :
  items (eventQueue (iteration (newStreamingWorker (postgres "dial tcp: connection refused"))
                       draw world).2)
    = [{| payload := click; notBefore := (120 * Second)%Z; tokenId := "t1" |}] ∧
  fallbackLogger (iteration (newStreamingWorker (postgres "dial tcp: connection refused"))
                    draw world).2 = [] ∧
  telemetry (iteration (newStreamingWorker (postgres "dial tcp: connection refused"))
               draw world).2
    = [counters_ErrorEvents "pg" 1; metrics_ErrorTokenEvent "t1" "pg"].
Proof.
  destruct (insert_failure_routing (postgres "dial tcp: connection refused") draw world
              queued [] (header "events") click (Errorf "dial tcp: connection refused"))
    as (_ & _ & Hroute & Htel & _).
  - reflexivity.
  - reflexivity.
  - reflexivity.
  - vm_compute. discriminate.
  - reflexivity.
  - reflexivity.
  - reflexivity.
  - change (isTransient (Error (Errorf "dial tcp: connection refused"))) with true in Hroute.
    destruct Hroute as [Hitems Hlog]. split; [exact Hitems|]. split; [exact Hlog|exact Htel].
Defined.

(** C1 as stated fails on an error text that has "broken pipe" in it but
    not "write: broken pipe": the specification's set matches it, the
    code's test does not, and the event goes to the fallback logger instead
    of back to the queue. *)
Lemma transient_set_claim_counterexample :
  specTransient "write |1: broken pipe" = true ∧
  items (eventQueue (iteration (newStreamingWorker (postgres "write |1: broken pipe"))
                       draw world).2) = [] ∧
  fallbackLogger (iteration (newStreamingWorker (postgres "write |1: broken pipe"))
                    draw world).2
    = [{| Event := "{event e1}"; ErrorText := "write |1: broken pipe";
          EventID := "e1" |}].
Proof. vm_compute. repeat split. Qed.

(** A permanent error: two adapter inserts were tried, and the event is on
    the fallback logger. *)
Lemma insert_retries_once_witness :
  last (items (eventQueue (iteration (newStreamingWorker (postgres "syntax error"))
                             draw world).2))
    = Some {| payload := click; notBefore := (100 * Second + 20 * Second)%Z;
              tokenId := "t1" |} ∨
  last (fallbackLogger (iteration (newStreamingWorker (postgres "syntax error"))
                          draw world).2)
    = Some {| Event := Serialize click; ErrorText := "syntax error";
              EventID := ExtractEventID click |}.
Proof.
  apply (proj2 (insert_retries_once (postgres "syntax error")
                  (MapTableSchema (backend "syntax error") (header "events")) click world)
           draw world queued [] (header "events") click (Errorf "syntax error")).
  - reflexivity.
  - reflexivity.
  - reflexivity.
  - vm_compute. discriminate.
  - reflexivity.
  - reflexivity.
  - reflexivity.
Defined.

Example insert_tried_twice :
  calls (Insert (postgres "syntax error")
           (MapTableSchema (backend "syntax error") (header "events")) click world).2
  = let table := MapTableSchema (backend "syntax error") (header "events") in
    [CallEnsureTable "pg" table None;
     CallInsert table click (Some (Errorf "syntax error"));
     CallRefreshTableSchema "pg" table None;
     CallEnsureTable "pg" table None;
     CallInsert table click (Some (Errorf "syntax error"))].
Proof. reflexivity. Qed.

(** A file with one storable group, one failing group and one failed
    line: the failed line is not written to the fallback logger, and the
    result of the failing table carries the error. *)
Lemma failed_events_persist_only_on_full_success_witness :
  fallbackLogger (StoreWithParseFunc (postgres "syntax error") "f.log" "" ∅
                    (λ _, inl (Errorf "unused")) world).2 = [] ∧
  (StoreWithParseFunc (postgres "syntax error") "f.log" "" ∅
     (λ _, inl (Errorf "unused")) world).1.1.1 !! "broken"
  = Some {| Err := Some (Errorf "syntax error"); RowsCount := 1 |}.
Proof.
  destruct (failed_events_persist_only_on_full_success (postgres "syntax error")
              "f.log" "" (∅ : gmap string bool) (λ _, inl (Errorf "unused")) world
              [{| Header := header "events"; GetPayload := [click] |};
               {| Header := header "broken"; GetPayload := [view] |}]
              [failedLine])
    as (_ & _ & Hlog & _ & Hres); [vm_compute; reflexivity|].
  split.
  - exact Hlog.
  - apply (λ Hnd, Hres Hnd 1%nat
                    {| Header := header "broken"; GetPayload := [view] |}
                    (Some (Errorf "syntax error")) eq_refl eq_refl).
    change (NoDup ["events"; "broken"]).
    apply NoDup_cons. split; [|apply NoDup_singleton].
    intros Hin%list_elem_of_singleton. discriminate.
Defined.

End StoragesExamples.

(* --------------------------------------------------------------------- *)
(** ** Replay of a fallback file                                          *)
(* --------------------------------------------------------------------- *)

Module FallbackFacts.
Import Fallback.

Lemma unlock_after_lock (name : string) (held : gset string) :
  name ∉ held → ({[name]} ∪ held) ∖ {[name]} = held.
Proof.
  intros Hout. apply set_eq. intros x.
  rewrite elem_of_difference, elem_of_union, elem_of_singleton.
  split; [tauto|]. intros Hin. split; [tauto|]. by intros ->.
Qed.

Section Facts.
Context {W : Type} `{Library} `{ErrorTexts}.


Lemma GetTablesStatuses_UpdateStatus (s : Service W) fileName destinationID t err t' :
  GetTablesStatuses (UpdateStatus fileName destinationID t err s) fileName destinationID !! t'
  = if decide (t = t') then Some (statusOf err)
    else GetTablesStatuses s fileName destinationID !! t'.
Proof.
  unfold GetTablesStatuses, UpdateStatus, statusOf. cbn [statusManager setStatuses].
  rewrite lookup_insert_eq. cbn [from_option id].
  rewrite lookup_insert_eq. cbn [from_option id].
  destruct (decide (t = t')) as [->|Hne].
  - by rewrite lookup_insert_eq.
  - by rewrite lookup_insert_ne.
Qed.



Lemma failures_cons tableName result rest :
  failures ((tableName, result) :: rest)
  = match Storages.Err result with
    | Some e => e :: failures rest
    | None => failures rest
    end.
Proof. unfold failures. simpl. by destruct (Storages.Err result). Qed.

Lemma recordResult_step fileName storageName multiErr (s : Service W) tableName result :
  recordResult fileName storageName (multiErr, s) (tableName, result)
  = (match Storages.Err result with
     | Some e => multierror_Append multiErr e
     | None => multiErr
     end,
     UpdateStatus fileName storageName tableName (Storages.Err result)
       (report (match Storages.Err result with
                | Some _ => ErrorTokenEvents fallbackIdentifier storageName
                              (Storages.RowsCount result)
                | None => SuccessTokenEvents fallbackIdentifier storageName
                            (Storages.RowsCount result)
                end) s)).
Proof. unfold recordResult. by destruct (Storages.Err result). Qed.

(** The loop over the results of the tables: it only reports metrics and
    updates statuses; the error it builds holds the errors of the failed
    tables, and the status of each table says whether it is uploaded. *)
Lemma recordResults_spec fileName storageName :
  ∀ entries multiErr (s : Service W),
    (foldl (recordResult fileName storageName) (multiErr, s) entries).1
      = foldl multierror_Append multiErr (failures entries) ∧
    files (foldl (recordResult fileName storageName) (multiErr, s) entries).2 = files s ∧
    archived (foldl (recordResult fileName storageName) (multiErr, s) entries).2
      = archived s ∧
    locks (foldl (recordResult fileName storageName) (multiErr, s) entries).2 = locks s ∧
    destinationService (foldl (recordResult fileName storageName) (multiErr, s) entries).2
      = destinationService s ∧
    fallbackDir (foldl (recordResult fileName storageName) (multiErr, s) entries).2
      = fallbackDir s ∧
    (∀ t, GetTablesStatuses (foldl (recordResult fileName storageName) (multiErr, s) entries).2
            fileName storageName !! t
          = foldl (λ status entry,
                     if decide (entry.1 = t) then Some (statusOf (Storages.Err entry.2))
                     else status)
              (GetTablesStatuses s fileName storageName !! t) entries).
Proof.
  induction entries as [|[tableName result] rest IH]; intros multiErr s; [done|].
  cbn [foldl]. rewrite recordResult_step.
  match goal with |- context [foldl _ (?m, ?s0) rest] =>
    destruct (IH m s0) as (-> & -> & -> & -> & -> & -> & Hst) end.
  split.
  { rewrite failures_cons. by destruct (Storages.Err result). }
  repeat split; try done.
  intros t. rewrite Hst. cbn [fst snd]. by rewrite GetTablesStatuses_UpdateStatus.
Qed.


Lemma GetTablesStatuses_setLocks l (s : Service W) fileName destinationID :
  GetTablesStatuses (setLocks l s) fileName destinationID
  = GetTablesStatuses s fileName destinationID.
Proof. reflexivity. Qed.

Lemma GetTablesStatuses_report m (s : Service W) fileName destinationID :
  GetTablesStatuses (report m s) fileName destinationID
  = GetTablesStatuses s fileName destinationID.
Proof. reflexivity. Qed.



End Facts.

End FallbackFacts.

(** *** Replay on sample inputs *)

Module FallbackExamples.
Import Fallback FallbackFacts Samples.

(** The first replay stores the table [events], fails on [broken] and
    keeps the file; the second one is told to skip [events], so the row
    of [events] is in the sink once. *)
Example replay_twice :
  let first := Replay None failedFile "" false (service (postgres "syntax error")) world in
  let second := Replay None failedFile "" false first.1.2 first.2 in
  first.1.1 = Some (MultiError [Errorf "syntax error"]) ∧
  Storages.sink first.2 = [("events", click)] ∧
  second.1.1 = Some (MultiError [Errorf "syntax error"]) ∧
  Storages.sink second.2 = [("events", click)] ∧
  files second.1.2 = files (service (postgres "syntax error")).
Proof.
  cbv zeta.
  split; [vm_compute; reflexivity|]. split; [vm_compute; reflexivity|].
  split; [vm_compute; reflexivity|]. split; vm_compute; reflexivity.
Qed.


End FallbackExamples.

(* --------------------------------------------------------------------- *)
(** ** Staged destinations                                                *)
(* --------------------------------------------------------------------- *)

Module StagedFacts.
Import Storages Fallback.

Section Facts.
Context {S W : Type} `{EventHelpers} `{ErrorTexts} `{Library}.

(** A replay whose destination is staged ends in an error before anything
    is stored. *)
Lemma Replay_staged archiveFails fileName destinationID rawFile
    (s : Service W) (w : W) (id : string) (storage : Storage W) :
  targetID destinationID (locate s fileName).2 = inr id →
  destinationService s !! id = Some (Some storage) →
  Fallback.IsStaging storage = true →
  (Replay archiveFails fileName destinationID rawFile s w).1.1 ≠ None ∧
  (Replay archiveFails fileName destinationID rawFile s w).2 = w ∧
  files (Replay archiveFails fileName destinationID rawFile s w).1.2 = files s ∧
  archived (Replay archiveFails fileName destinationID rawFile s w).1.2 = archived s ∧
  statusManager (Replay archiveFails fileName destinationID rawFile s w).1.2
    = statusManager s.
Proof.
  intros Htarget Hdest Hstaged. unfold Replay.
  destruct (decide (fileName = "")); [done|].
  destruct (locate s fileName) as [filePath name]. cbn [fst snd] in *.
  destruct (decide (name ∈ locks s)); [done|].
  unfold replayLocked. cbn [files setLocks destinationService].
  destruct (files s !! filePath); [|done].
  by rewrite Htarget, Hdest, Hstaged.
Qed.

(** C9.  The worker of a staged storage leaves its loop at the first test,
    before reading the queue: whatever the draws, the run has exited and
    the world is the one it started from.  A replay that resolves to a
    staged destination returns an error, and the sinks, the files, the
    archive and the statuses are as before. *)
Theorem staged_destination_gets_no_writes :
  (∀ (sw : StreamingWorker S) d draws (w : World S),
      Storages.IsStaging (streamingStorage sw) = true →
      start sw (d :: draws) w = (Exited, w)) ∧
  (∀ archiveFails fileName destinationID rawFile (s : Service W) (w : W)
     (id : string) (storage : Storage W),
      targetID destinationID (locate s fileName).2 = inr id →
      destinationService s !! id = Some (Some storage) →
      Fallback.IsStaging storage = true →
      (Replay archiveFails fileName destinationID rawFile s w).1.1 ≠ None ∧
      (Replay archiveFails fileName destinationID rawFile s w).2 = w ∧
      files (Replay archiveFails fileName destinationID rawFile s w).1.2 = files s ∧
      archived (Replay archiveFails fileName destinationID rawFile s w).1.2
        = archived s ∧
      statusManager (Replay archiveFails fileName destinationID rawFile s w).1.2
        = statusManager s).
Proof.
  split.
  - intros sw d draws w Hstaged. cbn [start]. unfold iteration. by rewrite Hstaged.
  - intros. by eapply Replay_staged.
Qed.
End Facts.

End StagedFacts.

Module StagedExamples.
Import Storages Fallback StagedFacts Samples.

Lemma staged_destination_gets_no_writes_witness :
  start (newStreamingWorker stagedPostgres) [draw; draw] world = (Exited, world) ∧
  (Replay None failedFile "" false
     (service stagedPostgres) world).2 = world.
Proof.
  split.
  - apply (proj1 (staged_destination_gets_no_writes (S := Sink) (W := World Sink))
             (newStreamingWorker stagedPostgres) draw [draw] world).
    reflexivity.
  - apply (proj2 (staged_destination_gets_no_writes (S := Sink) (W := World Sink))
             None failedFile "" false
             (service stagedPostgres) world "pg" (storage stagedPostgres)).
    + vm_compute. reflexivity.
    + vm_compute. reflexivity.
    + reflexivity.
Defined.

End StagedExamples.

(* --------------------------------------------------------------------- *)
(** ** The BigQuery batch loop                                            *)
(* --------------------------------------------------------------------- *)

Module BigQueryBatchFacts.
Import BigQueryBatch.

Lemma filter_ext_in {A} (P Q : A → Prop) `{!∀ x, Decision (P x)} `{!∀ x, Decision (Q x)}
    (l : list A) :
  (∀ x, x ∈ l → P x ↔ Q x) → filter P l = filter Q l.
Proof.
  induction l as [|a l IH]; intros Hext; [done|].
  rewrite !filter_cons.
  assert (P a ↔ Q a) as Ha by (apply Hext; by left).
  rewrite IH by (intros x Hx; apply Hext; by right).
  destruct (decide (P a)), (decide (Q a)); tauto.
Qed.

Lemma filter_all {A} (P : A → Prop) `{!∀ x, Decision (P x)} (l : list A) :
  (∀ x, x ∈ l → P x) → filter P l = l.
Proof.
  induction l as [|a l IH]; intros Hall; [done|].
  rewrite filter_cons_True by (apply Hall; by left).
  rewrite IH; [done|]. intros x Hx. apply Hall. by right.
Qed.

Lemma omap_cons_match {A B} (f : A → option B) (x : A) (l : list A) :
  omap f (x :: l) = match f x with Some y => y :: omap f l | None => omap f l end.
Proof. reflexivity. Qed.

Section Facts.
Context `{FileNames}.

Lemma count_frame t w :
  bucket (count t w) = bucket w ∧ loads (count t w) = loads w ∧ closed (count t w) = closed w.
Proof. done. Qed.

(** The objects left in the bucket after the deletes of a pass over
    [filesKeys]. *)
Lemma processFiles_spec name o :
  (∀ k, diesAfterCopy o k = false) →
  ∀ filesKeys w,
    (processFiles name o filesKeys w).1 = true ∧
    loads (processFiles name o filesKeys w).2
      = (loads w ++ omap (loaded o) filesKeys)%list ∧
    bucket (processFiles name o filesKeys w).2
      = filter (λ k, ¬ (k ∈ filesKeys ∧ removed o k = true)) (bucket w).
Proof.
  intros Halive. induction filesKeys as [|fileKey rest IH]; intros w.
  - cbn [processFiles fst snd omap]. rewrite app_nil_r. split; [done|]. split; [done|].
    symmetry. apply filter_all. intros k _ [Hin _]. by apply elem_of_nil in Hin.
  - cbn [processFiles]. unfold removed, loaded.
    assert (∀ (b : list string) (dropped : bool),
              (dropped = true ↔ removed o fileKey = true) →
              filter (λ k, ¬ (k ∈ rest ∧ removed o k = true))
                (if dropped then filter (λ k, k ≠ fileKey) b else b)
              = filter (λ k, ¬ (k ∈ fileKey :: rest ∧ removed o k = true)) b) as Hbucket.
    { intros b dropped Hdrop. destruct dropped.
      - rewrite list_filter_filter. apply list_filter_iff. intros k.
        rewrite elem_of_cons. split.
        + intros [Hrest Hne] [[->|Hin] Hrem]; [done|]. apply Hrest. done.
        + intros Hnot. split.
          * intros [Hin Hrem]. apply Hnot. split; [by right|done].
          * intros ->. apply Hnot. split; [by left|]. by apply Hdrop.
      - apply list_filter_iff. intros k. rewrite elem_of_cons. split.
        + intros Hnot [[->|Hin] Hrem]; [|by apply Hnot].
          destruct Hdrop as [_ Hdrop]. by specialize (Hdrop Hrem).
        + intros Hnot [Hin Hrem]. apply Hnot. split; [by right|done]. }
    rewrite omap_cons_match. fold (loaded o fileKey).
    destruct (extractDataFromFileName fileKey) as [e|[[tableName tokenId] rowsCount]] eqn:Hparse.
    { destruct (IH w) as (-> & -> & ->). split; [done|]. split.
      - unfold loaded. by rewrite Hparse.
      - apply (Hbucket (bucket w) false). unfold removed, loaded. rewrite Hparse. done. }
    destruct (copyFails o fileKey tableName) as [e|] eqn:Hcopy.
    { match goal with |- context [processFiles name o rest ?w0] =>
        destruct (IH w0) as (-> & -> & ->) end.
      split; [done|]. split.
      - unfold loaded. by rewrite Hparse, Hcopy.
      - apply (Hbucket (bucket w) false). unfold removed, loaded.
        rewrite Hparse, Hcopy. done. }
    rewrite Halive.
    destruct (deleteFails o fileKey) as [e|] eqn:Hdelete.
    + match goal with |- context [processFiles name o rest ?w0] =>
        destruct (IH w0) as (-> & -> & ->) end.
      split; [done|]. split.
      * unfold loaded. rewrite Hparse, Hcopy. cbn [loads count Copy]. by rewrite <- app_assoc.
      * apply (Hbucket (bucket w) false). unfold removed, loaded.
        rewrite Hparse, Hcopy, Hdelete. done.
    + match goal with |- context [processFiles name o rest ?w0] =>
        destruct (IH w0) as (-> & -> & ->) end.
      split; [done|]. split.
      * unfold loaded. rewrite Hparse, Hcopy. cbn [loads count Copy DeleteObject].
        by rewrite <- app_assoc.
      * apply (Hbucket (bucket w) true). unfold removed, loaded.
        rewrite Hparse, Hcopy, Hdelete. done.
Qed.

(** C2, as the code has it.  A pass that can list the bucket runs one load
    job for every listed file whose name parses and whose load call
    succeeds, whatever was loaded before: no status is read.  It removes
    from the bucket exactly the files it loaded and then deleted; a file
    that was loaded but not deleted stays listed for the next pass. *)
Theorem batch_loads_every_listed_file name o w :
  closed w = false → listFails o = None → (∀ k, diesAfterCopy o k = false) →
  (tick name o w).1 = Continue ∧
  loads (tick name o w).2 = (loads w ++ omap (loaded o) (bucket w))%list ∧
  bucket (tick name o w).2 = filter (λ k, removed o k = false) (bucket w).
Proof.
  intros Hopen Hlist Halive. unfold tick. rewrite Hopen, Hlist.
  cbn [bucket Sleep]. destruct (decide _) as [Hempty|_].
  - cbn [fst snd loads bucket Sleep]. destruct (bucket w) as [|k ks].
    + change (omap (loaded o) []) with (@nil (string * string)).
      by rewrite app_nil_r.
    + unfold len in Hempty. simpl in Hempty. lia.
  - destruct (processFiles_spec name o Halive (bucket w) (Sleep 30 w)) as (Hok & Hloads & Hbucket).
    destruct (processFiles name o (bucket w) (Sleep 30 w)) as [alive w1].
    cbn [fst snd] in *. subst alive. cbn [fst snd]. split; [done|]. split; [done|].
    rewrite Hbucket. cbn [bucket Sleep]. apply filter_ext_in.
    intros k Hin. split.
    + intros Hnot. destruct (removed o k); [|done]. exfalso. by apply Hnot.
    + intros Hrem [_ Hrem']. congruence.
Qed.
End Facts.

End BigQueryBatchFacts.

Module BigQueryBatchExamples.
Import BigQueryBatch BigQueryBatchFacts Samples.

Lemma batch_loads_every_listed_file_witness :
  (tick "bq" smooth staging).1 = Continue ∧
  loads (tick "bq" smooth staging).2
    = (loads staging ++ omap (loaded smooth) (bucket staging))%list ∧
  bucket (tick "bq" smooth staging).2
    = filter (λ k, removed smooth k = false) (bucket staging).
Proof.
  apply (batch_loads_every_listed_file "bq" smooth staging).
  - reflexivity.
  - reflexivity.
  - intros k. reflexivity.
Defined.

(** C2 as stated fails.  The process dies right after the load of the
    staged file; the file is still in the bucket; the pass after the
    restart loads it again, so the table has received its rows twice.
    The same happens without a crash when the delete fails. *)
Lemma batch_resume_claim_counterexample :
  let file := "events-t1-5-2021-03-01T10-00-00.ndjson" in
  (tick "bq" crashing staging).1 = Died ∧
  loads (tick "bq" crashing staging).2 = [(file, "events")] ∧
  bucket (tick "bq" crashing staging).2 = [file] ∧
  loads (startBatch "bq" [smooth] (tick "bq" crashing staging).2)
    = [(file, "events"); (file, "events")] ∧
  loads (startBatch "bq" [undeletable; smooth] staging)
    = [(file, "events"); (file, "events")].
Proof. vm_compute. repeat split. Qed.

End BigQueryBatchExamples.

(* --------------------------------------------------------------------- *)
(** ** Locks and versions of the in-memory service                       *)
(* --------------------------------------------------------------------- *)

Module CoordinationMoreFacts.
Import Coordination CoordinationVersions CoordinationFacts.

Lemma append_assoc (a b c : string) : (a +:+ b) +:+ c = a +:+ (b +:+ c).
Proof.
  induction a as [|x a IH]; [done|]. rewrite !append_cons. by rewrite IH.
Qed.

Lemma getIdentifier_assoc (system middle collection : string) :
  getIdentifier (system +:+ "_" +:+ middle) collection
  = getIdentifier system (middle +:+ "_" +:+ collection).
Proof. unfold getIdentifier. by rewrite !append_assoc. Qed.

Lemma lock_free env system collection retryCount ims :
  getIdentifier system collection ∉ locks ims →
  lockWithRetry env system collection retryCount ims
  = (Acquired (getIdentifier system collection),
     {| locks := {[getIdentifier system collection]} ∪ locks ims;
        sleeps := sleeps ims; attempts := S (attempts ims) |}).
Proof.
  intros Hfree. rewrite lockWithRetry_unfold. by destruct (decide _).
Qed.

(** X1.  A lock that is free is taken by [Lock] at the first attempt,
    without sleeping.  While it is held [IsLocked] answers true and
    [TryLock] is refused as already locked; [Unlock] puts the lock map back
    as it was, and [IsLocked] answers false again. *)
Theorem lock_unlock_round_trip env system collection ims :
  getIdentifier system collection ∉ locks ims →
  (Lock env system collection ims).1 = Acquired (getIdentifier system collection) ∧
  sleeps (Lock env system collection ims).2 = sleeps ims ∧
  attempts (Lock env system collection ims).2 = S (attempts ims) ∧
  IsLocked system collection (Lock env system collection ims).2 = true ∧
  (TryLock env system collection (Lock env system collection ims).2).1
    = AlreadyLocked system collection ∧
  locks (Unlock (getIdentifier system collection) (Lock env system collection ims).2)
    = locks ims ∧
  IsLocked system collection
    (Unlock (getIdentifier system collection) (Lock env system collection ims).2) = false.
Proof.
  intros Hfree. unfold Lock, TryLock. rewrite lock_free by done. cbn [fst snd sleeps attempts].
  split; [done|]. split; [done|]. split; [done|].
  unfold IsLocked, Unlock. cbn [locks].
  split; [apply bool_decide_eq_true; set_solver|].
  split.
  - rewrite lockWithRetry_unfold. cbn [locks]. rewrite decide_True by set_solver.
    destruct (le_lt_dec 3 3); [done|lia].
  - split; [by apply FallbackFacts.unlock_after_lock|].
    apply bool_decide_eq_false. rewrite FallbackFacts.unlock_after_lock; done.
Qed.

(** X2.  The identifier of a lock is the system and the collection joined
    by an underscore, so two pairs that join to the same text share one
    lock: once [Lock] holds the pair (system_middle, collection), the pair
    (system, middle_collection) reads as locked and [TryLock] on it is
    refused. *)
Theorem lock_identifiers_alias env system middle collection ims :
  (Lock env (system +:+ "_" +:+ middle) collection ims).1
    = Acquired (getIdentifier (system +:+ "_" +:+ middle) collection) →
  IsLocked system (middle +:+ "_" +:+ collection)
    (Lock env (system +:+ "_" +:+ middle) collection ims).2 = true ∧
  (TryLock env system (middle +:+ "_" +:+ collection)
     (Lock env (system +:+ "_" +:+ middle) collection ims).2).1
    = AlreadyLocked system (middle +:+ "_" +:+ collection).
Proof.
  intros Hgot.
  destruct (lockWithRetry_bounded env (system +:+ "_" +:+ middle) collection 3 0 ims eq_refl)
    as (k & _ & _ & _ & Hres).
  fold (Lock env (system +:+ "_" +:+ middle) collection ims) in Hres.
  rewrite Hgot in Hres. destruct Hres as [_ Hin].
  rewrite getIdentifier_assoc in Hin.
  split.
  - unfold IsLocked. by apply bool_decide_eq_true.
  - unfold TryLock. rewrite lockWithRetry_unfold. rewrite decide_True by done.
    destruct (le_lt_dec 3 3); [done|lia].
Qed.

Lemma wrap64_id z : (- 2 ^ 63 ≤ z < 2 ^ 63)%Z → wrap64 z = z.
Proof. intros Hz. unfold wrap64. rewrite Z.mod_small; lia. Qed.

Lemma wrap64_range z : (- 2 ^ 63 ≤ wrap64 z < 2 ^ 63)%Z.
Proof. unfold wrap64. pose proof (Z.mod_pos_bound (z + 2 ^ 63) (2 ^ 64)). lia. Qed.

Lemma GetVersion_IncrementVersion system collection system' collection' ims :
  (GetVersion system' collection' (IncrementVersion system collection ims).2).1
  = if decide (getIdentifier system collection = getIdentifier system' collection')
    then wrap64 ((GetVersion system collection ims).1 + 1)
    else (GetVersion system' collection' ims).1.
Proof.
  unfold GetVersion, IncrementVersion. cbn [snd systemCollectionVersions].
  destruct (decide _) as [Heq|Hne].
  - rewrite <- Heq, lookup_insert_eq. cbn [fst].
    by destruct (systemCollectionVersions ims !! getIdentifier system collection).
  - rewrite lookup_insert_ne by done. done.
Qed.

Lemma versions_iter system collection ims : ∀ n : nat,
  (- 2 ^ 63 ≤ (GetVersion system collection ims).1)%Z →
  ((GetVersion system collection ims).1 + Z.of_nat n < 2 ^ 63)%Z →
  (GetVersion system collection
     (Nat.iter n (λ i, (IncrementVersion system collection i).2) ims)).1
    = ((GetVersion system collection ims).1 + Z.of_nat n)%Z ∧
  (∀ system' collection',
      getIdentifier system collection ≠ getIdentifier system' collection' →
      GetVersion system' collection'
        (Nat.iter n (λ i, (IncrementVersion system collection i).2) ims)
      = GetVersion system' collection' ims) ∧
  serverNameSingleArray (Nat.iter n (λ i, (IncrementVersion system collection i).2) ims)
    = serverNameSingleArray ims.
Proof.
  induction n as [|n IH]; intros Hlo Hhi; [by rewrite Z.add_0_r|].
  destruct IH as (Hv & Hothers & Hnames); [done|lia|].
  rewrite Nat.iter_succ. split; [|split].
  - rewrite GetVersion_IncrementVersion, decide_True by done.
    rewrite Hv, wrap64_id; lia.
  - intros system' collection' Hne. rewrite <- Hothers by done.
    unfold GetVersion, IncrementVersion. cbn [snd systemCollectionVersions].
    by rewrite lookup_insert_ne.
  - done.
Qed.

(** X3.  Versions count the increments.  From version [v] of a pair, [n]
    calls of [IncrementVersion] that stay within [int64] return [v + 1],
    ..., [v + n] in turn; [GetVersion] then reads [v + n] and returns no
    error; the version of every pair with another identifier is
    unchanged. *)
Theorem versions_count_increments system collection (n : nat) ims :
  (- 2 ^ 63 ≤ (GetVersion system collection ims).1)%Z →
  ((GetVersion system collection ims).1 + Z.of_nat n < 2 ^ 63)%Z →
  let after := Nat.iter n (λ i, (IncrementVersion system collection i).2) ims in
  GetVersion system collection after
    = (((GetVersion system collection ims).1 + Z.of_nat n)%Z, None) ∧
  (∀ k : nat, (k < n)%nat →
     (IncrementVersion system collection
        (Nat.iter k (λ i, (IncrementVersion system collection i).2) ims)).1
     = (((GetVersion system collection ims).1 + Z.of_nat k + 1)%Z, None)) ∧
  (∀ system' collection',
      getIdentifier system collection ≠ getIdentifier system' collection' →
      GetVersion system' collection' after = GetVersion system' collection' ims).
Proof.
  intros Hlo Hhi after. subst after.
  destruct (versions_iter system collection ims n Hlo Hhi) as (Hv & Hothers & _).
  split; [|split; [|done]].
  - rewrite <- Hv. unfold GetVersion. by destruct (_ !! _).
  - intros k Hk.
    destruct (versions_iter system collection ims k Hlo ltac:(lia)) as (Hk' & _ & _).
    pose proof (GetVersion_IncrementVersion system collection system collection
                  (Nat.iter k (λ i, (IncrementVersion system collection i).2) ims)) as Hstep.
    rewrite decide_True, Hk', wrap64_id in Hstep by (done || lia).
    unfold IncrementVersion, GetVersion in *. cbn [fst snd systemCollectionVersions] in *.
    rewrite lookup_insert_eq in Hstep. cbn [fst] in Hstep. by rewrite Hstep.
Qed.

End CoordinationMoreFacts.

(* --------------------------------------------------------------------- *)
(** ** The other branches of the streaming worker                        *)
(* --------------------------------------------------------------------- *)

Module WorkerFacts.
Import Storages StoragesFacts StreamingAccounts.

Section Facts.
Context {S : Type} `{EventHelpers} `{ErrorTexts}.

Lemma setQueue_setQueue q q' (w : World S) : setQueue q (setQueue q' w) = setQueue q w.
Proof. done. Qed.

Lemma item_eta (item : QueuedEvent) :
  {| payload := payload item; notBefore := notBefore item; tokenId := tokenId item |} = item.
Proof. by destruct item. Qed.

(** One pass over a queue whose head is not due yet. *)
Lemma iteration_not_due (sw : StreamingWorker S) d w item rest :
  IsStaging (streamingStorage sw) = false → closed w = false →
  eventQueue w = {| items := item :: rest; queueClosed := false |} →
  (nowAtDequeue d < notBefore item)%Z →
  iteration sw d w
  = (Continue, setQueue {| items := rest ++ [item]; queueClosed := false |} w).
Proof.
  intros Hlive Hopen Hq Hearly. unfold iteration. rewrite Hlive, Hopen.
  unfold DequeueBlock. rewrite Hq. cbn [queueClosed items].
  apply Z.ltb_lt in Hearly. rewrite Hearly.
  unfold ConsumeTimed. cbn [eventQueue setQueue items queueClosed].
  by rewrite item_eta.
Qed.

Lemma rotate_cons_snoc {A} (n : nat) (x : A) (l : list A) :
  rotate (Datatypes.S n) (x :: l) = rotate n (l ++ [x]).
Proof.
  unfold rotate. rewrite length_app. cbn [length]. rewrite Nat.add_1_r.
  change (Datatypes.S n) with (1 + n)%nat.
  rewrite <- Nat.Div0.add_mod_idemp_r.
  pose proof (Nat.mod_upper_bound n (Datatypes.S (length l)) ltac:(lia)) as Hm.
  set (m := (n mod Datatypes.S (length l))%nat) in *.
  destruct (decide (Datatypes.S m = Datatypes.S (length l))) as [Heq|Hne].
  - replace (1 + m)%nat with (Datatypes.S (length l)) by lia.
    rewrite Nat.Div0.mod_same. assert (m = length l) as -> by lia.
    rewrite drop_app_length, take_app_length. cbn [drop take]. by rewrite app_nil_r.
  - rewrite Nat.mod_small by lia. cbn [Nat.add drop take].
    rewrite drop_app_le, take_app_le by lia. by rewrite <- app_assoc.
Qed.

(** X4.  A worker whose queue holds only events that are not due yet
    stores nothing: each pass takes the event at the head and puts it back
    at the end with its time unchanged.  After [k] passes the queue is the
    initial one rotated by [k], and nothing else in the world has
    changed. *)
Theorem events_wait_for_their_time (sw : StreamingWorker S) :
  ∀ draws its (w : World S),
    IsStaging (streamingStorage sw) = false → closed w = false →
    eventQueue w = {| items := its; queueClosed := false |} → its ≠ [] →
    Forall (λ d, Forall (λ item, (nowAtDequeue d < notBefore item)%Z) its) draws →
    start sw draws w
    = (Running,
       setQueue {| items := rotate (length draws) its; queueClosed := false |} w).
Proof.
  induction draws as [|d draws IH]; intros its w Hlive Hopen Hq Hne Hearly.
  - cbn [start length]. unfold rotate. rewrite Nat.Div0.mod_0_l.
    rewrite drop_0, take_0, app_nil_r, <- Hq. by destruct w.
  - destruct its as [|item rest]; [done|].
    apply Forall_cons in Hearly as [Hd Hearly].
    pose proof Hd as Hitem. apply Forall_cons in Hitem as [Hitem _].
    cbn [start]. rewrite (iteration_not_due sw d w item rest) by done.
    rewrite (IH (rest ++ [item])%list); try done.
    + by rewrite setQueue_setQueue, <- rotate_cons_snoc.
    + by destruct rest.
    + eapply Forall_impl; [exact Hearly|]. intros d' Hall.
      apply Forall_cons in Hall as [Hi Hr]. apply Forall_app. split; [done|].
      by constructor.
Qed.

(** X5.  A due event that the processor rejects leaves the queue and is
    never inserted.  For the skip sentinel it is only counted as skipped;
    for any other error it goes to the fallback logger with the serialized
    event, the error text and the event id, and is counted as an error for
    its token.  In both cases the events cache records the error. *)
Theorem process_error_routing (p : Postgres S) d w item rest err :
  staged p = false → closed w = false →
  eventQueue w = {| items := item :: rest; queueClosed := false |} →
  (notBefore item ≤ nowAtDequeue d)%Z →
  ProcessEvent (processor p) (payload item) = inl err →
  let r := iteration (newStreamingWorker p) d w in
  r.1 = Continue ∧
  eventQueue r.2 = {| items := rest; queueClosed := false |} ∧
  calls r.2 = calls w ∧ sink r.2 = sink w ∧ archiveLogger r.2 = archiveLogger w ∧
  eventsCache r.2
    = (eventsCache w ++
       [CacheError (name p) (ExtractEventID (payload item)) (Error err)])%list ∧
  if is_sentinel SkipObject err
  then fallbackLogger r.2 = fallbackLogger w ∧
       telemetry r.2 = (telemetry w ++ [counters_SkipEvents (name p) 1])%list
  else fallbackLogger r.2
         = (fallbackLogger w ++
            [{| Event := Serialize (payload item); ErrorText := Error err;
                EventID := ExtractEventID (payload item) |}])%list ∧
       telemetry r.2
         = (telemetry w ++ [metrics_ErrorTokenEvent (tokenId item) (name p);
                            counters_ErrorEvents (name p) 1])%list.
Proof.
  intros Hlive Hopen Hq Hdue Hproc r. subst r. unfold iteration.
  cbn [streamingStorage newStreamingWorker asStreaming IsStaging worker_processor].
  rewrite Hlive, Hopen. unfold DequeueBlock. rewrite Hq. cbn [queueClosed items].
  destruct (Z.ltb_spec (nowAtDequeue d) (notBefore item)) as [Hlt|_]; [lia|].
  rewrite Hproc. unfold onProcessError.
  cbn [streamingStorage newStreamingWorker asStreaming Name storage_Fallback fst snd].
  destruct (is_sentinel SkipObject err); simpl; rewrite <- ?app_assoc; done.
Qed.

(** X6.  A due event whose insert succeeds leaves the queue, is written
    to the archive logger with its token and counted as a success, and the
    events cache records the flattened object with the table it went to;
    nothing goes to the fallback logger. *)
Theorem stored_event_is_archived (p : Postgres S) d w item rest header flattenObject :
  staged p = false → closed w = false →
  eventQueue w = {| items := item :: rest; queueClosed := false |} →
  (notBefore item ≤ nowAtDequeue d)%Z →
  ProcessEvent (processor p) (payload item) = inr (header, flattenObject) →
  Exists header = true →
  (Insert p (MapTableSchema (backend p) header) flattenObject
     (setQueue {| items := rest; queueClosed := false |} w)).1 = None →
  let r := iteration (newStreamingWorker p) d w in
  r.1 = Continue ∧
  eventQueue r.2 = {| items := rest; queueClosed := false |} ∧
  fallbackLogger r.2 = fallbackLogger w ∧
  archiveLogger r.2 = (archiveLogger w ++ [(payload item, tokenId item)])%list ∧
  telemetry r.2
    = (telemetry w ++ [counters_SuccessEvents (name p) 1;
                       metrics_SuccessTokenEvent (tokenId item) (name p)])%list ∧
  eventsCache r.2
    = (eventsCache w ++
       [CacheSucceed (name p) (ExtractEventID (payload item)) flattenObject
          (MapTableSchema (backend p) header)])%list.
Proof.
  intros Hlive Hopen Hq Hdue Hproc Hex Hins r. subst r.
  rewrite (iteration_reaches_insert p d w item rest header flattenObject) by done.
  cbn zeta.
  pose proof (Insert_untouched p (MapTableSchema (backend p) header) flattenObject
                (setQueue {| items := rest; queueClosed := false |} w))
    as (Uq & Uf & Uc & Ut & Ua & _).
  destruct (Insert p _ flattenObject _) as [res w1]. simpl in Hins. subst res.
  simpl in Uq, Uf, Uc, Ut, Ua. cbn [fst snd]. unfold onInsertSuccess.
  cbn [streamingStorage newStreamingWorker asStreaming Name]. simpl.
  rewrite Uq, Uf, Uc, Ut, Ua, <- app_assoc. done.
Qed.

(** X7.  A due event for which the processor derives a header without
    fields is taken from the queue and dropped: no insert, no fallback, no
    archive, no counter and no cache entry. *)
Theorem empty_event_is_dropped (sw : StreamingWorker S) d w item rest header flattenObject :
  IsStaging (streamingStorage sw) = false → closed w = false →
  eventQueue w = {| items := item :: rest; queueClosed := false |} →
  (notBefore item ≤ nowAtDequeue d)%Z →
  ProcessEvent (worker_processor sw) (payload item) = inr (header, flattenObject) →
  Exists header = false →
  iteration sw d w = (Continue, setQueue {| items := rest; queueClosed := false |} w).
Proof.
  intros Hlive Hopen Hq Hdue Hproc Hex. unfold iteration.
  rewrite Hlive, Hopen. unfold DequeueBlock. rewrite Hq. cbn [queueClosed items].
  destruct (Z.ltb_spec (nowAtDequeue d) (notBefore item)) as [Hlt|_]; [lia|].
  by rewrite Hproc, Hex.
Qed.

Lemma skipped_snoc ts t :
  skipped (ts ++ [t]) = (skipped ts + if isSkip t then 1 else 0)%nat.
Proof.
  unfold skipped. rewrite filter_app, length_app. f_equal.
  rewrite filter_cons, filter_nil. by destruct (isSkip t).
Qed.

Lemma accounted_iteration (p : Postgres S) d (w : World S) :
  (iteration (newStreamingWorker p) d w).1 ≠ Panics ∧
  (accounted (iteration (newStreamingWorker p) d w).2 ≤ accounted w)%nat ∧
  ((∀ fact header object,
       ProcessEvent (processor p) fact = inr (header, object) → Exists header = true) →
   accounted (iteration (newStreamingWorker p) d w).2 = accounted w).
Proof.
  unfold iteration.
  cbn [streamingStorage newStreamingWorker asStreaming IsStaging worker_processor
       storage_Insert].
  destruct (staged p); [by split|].
  destruct (closed w); [by split|].
  unfold DequeueBlock.
  destruct (eventQueue w) as [its qclosed] eqn:Hq. cbn [queueClosed items].
  destruct qclosed; [by split|].
  destruct its as [|item rest]; [by split|].
  assert (accounted w = Datatypes.S (length rest + length (fallbackLogger w) +
            length (archiveLogger w) + skipped (telemetry w))) as Hw.
  { unfold accounted. rewrite Hq. cbn [items length]. lia. }
  destruct (nowAtDequeue d <? notBefore item)%Z.
  { cbn [fst snd]. rewrite Hw. unfold accounted.
    cbn [setQueue ConsumeTimed eventQueue items fallbackLogger archiveLogger telemetry].
    rewrite length_app. cbn [length].
    split; [done|]. split; [lia|]. intros _; lia. }
  destruct (ProcessEvent (processor p) (payload item)) as [err|[header object]] eqn:Hproc.
  { cbn [fst snd]. rewrite Hw. unfold accounted, onProcessError.
    cbn [streamingStorage newStreamingWorker asStreaming Name storage_Fallback].
    destruct (is_sentinel SkipObject err);
      cbn [setQueue cache tell Fallback foldl ConsumeAny eventQueue items fallbackLogger
           archiveLogger telemetry];
      rewrite ?skipped_snoc, ?length_app; cbn [isSkip length];
      (split; [done|]; split; [lia|]; intros _; lia). }
  destruct (Exists header) eqn:Hex; cbn [negb].
  2:{ cbn [fst snd]. rewrite Hw. unfold accounted.
      cbn [setQueue eventQueue items fallbackLogger archiveLogger telemetry].
      split; [done|]. split; [lia|]. intros Hall.
      apply Hall in Hproc. congruence. }
  rewrite getTableHelper_new.
  pose proof (Insert_untouched p (MapTableSchema (backend p) header) object
                (setQueue {| items := rest; queueClosed := false |} w))
    as (Uq & Uf & _ & Ut & Ua & _).
  destruct (Insert p _ object _) as [[err|] w1]; cbn [fst snd] in *.
  - rewrite Hw. unfold accounted, onInsertError.
    cbn [streamingStorage newStreamingWorker asStreaming Name storage_Fallback].
    destruct (isTransient (Error err));
      cbn [setQueue cache tell Fallback foldl ConsumeAny ConsumeTimed eventQueue items
           fallbackLogger archiveLogger telemetry];
      rewrite ?skipped_snoc, ?length_app, Uq, Uf, Ut, Ua;
      cbn [setQueue eventQueue items fallbackLogger archiveLogger telemetry isSkip length];
      (split; [done|]; split; [lia|]; intros _; lia).
  - rewrite Hw. unfold accounted, onInsertSuccess.
    cbn [streamingStorage newStreamingWorker asStreaming Name storage_Fallback].
    cbn [setQueue cache tell archive eventQueue items fallbackLogger archiveLogger telemetry];
      rewrite ?skipped_snoc, ?length_app, Uq, Uf, Ut, Ua;
      cbn [setQueue eventQueue items fallbackLogger archiveLogger telemetry isSkip length];
      (split; [done|]; split; [lia|]; intros _; lia).
Qed.

(** X8.  The worker of a Postgres storage never panics for lack of a
    table helper, and it makes no event up: the number of events on the
    queue, on the fallback logger, on the archive logger and counted as
    skipped never grows.  It stays the same when the processor never
    derives an empty header: every event taken from the queue then ends in
    exactly one of these places. *)
Theorem no_event_is_lost (p : Postgres S) : ∀ draws (w : World S),
  (start (newStreamingWorker p) draws w).1 ≠ Panicked ∧
  (accounted (start (newStreamingWorker p) draws w).2 ≤ accounted w)%nat ∧
  ((∀ fact header object,
       ProcessEvent (processor p) fact = inr (header, object) → Exists header = true) →
   accounted (start (newStreamingWorker p) draws w).2 = accounted w).
Proof.
  induction draws as [|d draws IH]; intros w; [by split|].
  cbn [start]. destruct (accounted_iteration p d w) as (Hsafe & Hle & Heq).
  destruct (iteration (newStreamingWorker p) d w) as [[] w1]; cbn [fst snd] in *;
    try by split.
  destruct (IH w1) as (Hsafe' & Hle' & Heq').
  split; [done|]. split; [lia|]. intros Hall. rewrite Heq', Heq; done.
Qed.

End Facts.
End WorkerFacts.

(* --------------------------------------------------------------------- *)
(** ** The asynchronous logger                                           *)
(* --------------------------------------------------------------------- *)

Module LoggingFacts.
Import Logging.

Section Facts.
Context {A W : Type} `{Json A} `{ErrorTexts} (io : WriteCloser W).

Lemma drainLoop_writer : ∀ (pending : list A) (w : W) show log,
  (drainLoop io pending w show log).1
  = foldl (λ w line, (Write io line w).2) w (omap lineOf pending).
Proof.
  induction pending as [|event rest IH]; intros w show log; [done|].
  cbn [drainLoop omap list_omap]. unfold logEvent, lineOf.
  destruct (Marshal event) as [e|bts].
  - apply IH.
  - destruct (Write io _ w) as [[e|] w'] eqn:Hw; rewrite IH; cbn [foldl]; by rewrite Hw.
Qed.

(** X9.  An open [AsyncLogger] writes the events in the order in which
    they were consumed: draining the channel empties it and writes one
    line per event, its JSON followed by a line feed, skipping the events
    that cannot be marshalled and going on after a write that fails.
    [ConsumeAny] fits only while fewer than 20000 events are pending; the
    event it adds is written after all the pending ones. *)
Theorem logger_writes_in_order (al : AsyncLogger A W) :
  loggerClosed al = false →
  logCh (drain io al) = [] ∧
  loggerClosed (drain io al) = false ∧
  writer (drain io al)
  = foldl (λ w line, (Write io line w).2) (writer al) (omap lineOf (logCh al)) ∧
  ∀ object,
    match ConsumeAny object al with
    | Some al' =>
        (len (logCh al) < 20000)%Z ∧
        logCh al' = (logCh al ++ [object])%list ∧
        writer (drain io al')
        = match lineOf object with
          | Some line => (Write io line (writer (drain io al))).2
          | None => writer (drain io al)
          end
    | None => (20000 ≤ len (logCh al))%Z
    end.
Proof.
  intros Hopen.
  assert (∀ al0 : AsyncLogger A W, loggerClosed al0 = false →
            logCh (drain io al0) = [] ∧ loggerClosed (drain io al0) = false ∧
            writer (drain io al0)
            = foldl (λ w line, (Write io line w).2) (writer al0) (omap lineOf (logCh al0)))
    as Hdrain.
  { intros al0 Hal0. unfold drain. rewrite Hal0.
    pose proof (drainLoop_writer (logCh al0) (writer al0) (showInGlobalLogger al0)
                  (globalLog al0)) as Hd.
    by destruct (drainLoop io _ _ _ _) as [w' log']. }
  destruct (Hdrain al Hopen) as (Hch & Hcl & Hw).
  split; [done|]. split; [done|]. split; [done|].
  intros object. unfold ConsumeAny, logChCapacity.
  destruct (decide _) as [Hroom|Hfull]; [|lia].
  split; [done|]. split; [done|].
  match goal with |- writer (drain io ?al0) = _ =>
    destruct (Hdrain al0 Hopen) as (_ & _ & ->) end.
  cbn [writer logCh]. rewrite omap_app, foldl_app, <- Hw.
  cbn. by destruct (lineOf object).
Qed.
End Facts.
End LoggingFacts.

(* --------------------------------------------------------------------- *)
(** ** SyncStore, Update and Close of the Postgres storage               *)
(* --------------------------------------------------------------------- *)

Module StoragesSyncFacts.
Import Storages StoragesSync.

Section Facts.
Context {S : Type} `{SyncHelpers} `{EventHelpers} `{ErrorTexts}.

Lemma ensureAndUpdate_spec (p : Postgres S) b table data dc (st : SyncState) :
  ∃ new,
    (ensureAndUpdate p b table data dc st).2.2 = (st.2 ++ new)%list ∧
    ensured new = [table] ∧
    updates new = (if (ensureAndUpdate p b table data dc st).1 is None then [data] else []) ∧
    Forall (λ c, ∀ dc', conditionsOf c = Some dc' → dc' = dc) new.
Proof.
  unfold ensureAndUpdate.
  destruct (EnsureTable (backend p) (name p) table st.1) as [[e|dbSchema] s1].
  - eexists. split; [done|]. cbn. split; [done|]. split; [done|].
    repeat constructor. done.
  - destruct (adapter_BulkUpdate b dbSchema data dc s1) as [err s2].
    eexists. cbn [fst snd]. rewrite <- app_assoc. split; [done|]. cbn.
    split; [done|]. split; [by destruct err|].
    repeat constructor; [done|]. by intros dc' [= <-].
Qed.

Lemma countRows_concat (flatData : list ProcessedFile) :
  countRows flatData = len (concat (GetPayload <$> flatData)).
Proof.
  unfold countRows.
  assert (∀ start, foldl (λ rowsCount fdata, (rowsCount + GetPayloadLen fdata)%Z) start flatData
                   = (start + len (concat (GetPayload <$> flatData)))%Z) as Hgen.
  { induction flatData as [|fdata rest IH]; intros start.
    - unfold len. simpl. lia.
    - cbn [foldl]. rewrite IH, fmap_cons. cbn [concat]. unfold GetPayloadLen, len.
      rewrite length_app. lia. }
  by rewrite Hgen.
Qed.

Lemma gathered_spec (overridden : BatchHeader) (flatData : list ProcessedFile) :
  (gathered overridden flatData).1 = concat (GetPayload <$> flatData) ∧
  TableName (gathered overridden flatData).2 = TableName overridden.
Proof.
  unfold gathered.
  assert (∀ acc : list Object * BatchHeader,
            (foldl (λ acc fdata,
                      ((acc.1 ++ GetPayload fdata)%list,
                       {| TableName := TableName acc.2;
                          Fields := Fields_Add (Fields acc.2) (Fields (Header fdata)) |}))
               acc flatData).1 = (acc.1 ++ concat (GetPayload <$> flatData))%list ∧
            TableName (foldl (λ acc fdata,
                      ((acc.1 ++ GetPayload fdata)%list,
                       {| TableName := TableName acc.2;
                          Fields := Fields_Add (Fields acc.2) (Fields (Header fdata)) |}))
               acc flatData).2 = TableName acc.2) as Hgen.
  { induction flatData as [|fdata rest IH]; intros acc.
    - simpl. by rewrite app_nil_r.
    - cbn [foldl]. destruct (IH ((acc.1 ++ GetPayload fdata)%list,
                                {| TableName := TableName acc.2;
                                   Fields := Fields_Add (Fields acc.2) (Fields (Header fdata)) |}))
        as [-> ->].
      rewrite fmap_cons. cbn [concat fst snd TableName]. by rewrite <- app_assoc. }
  apply (Hgen ([], overridden)).
Qed.

(** The loop of the plain flow stores the groups in order and stops at the
    first one that fails. *)
Lemma plainFlow_spec (p : Postgres S) b overriddenDataSchema dc :
  ∀ flatData (st : SyncState),
    ∃ new (k : nat),
      (plainFlow p b overriddenDataSchema dc flatData st).2.2 = (st.2 ++ new)%list ∧
      updates new = GetPayload <$> take k flatData ∧
      Forall (λ c, ∀ dc', conditionsOf c = Some dc' → dc' = dc) new ∧
      match (plainFlow p b overriddenDataSchema dc flatData st).1 with
      | None =>
          k = length flatData ∧
          ensured new = plainTable p overriddenDataSchema <$> flatData
      | Some _ =>
          (k < length flatData)%nat ∧
          ensured new = plainTable p overriddenDataSchema <$> take (Datatypes.S k) flatData
      end.
Proof.
  induction flatData as [|fdata rest IH]; intros st.
  - exists [], 0%nat. cbn. rewrite app_nil_r. repeat split; constructor.
  - cbn [plainFlow].
    destruct (ensureAndUpdate_spec p b (plainTable p overriddenDataSchema fdata)
                (GetPayload fdata) dc st) as (new & Hlog & Hens & Hupd & Hdc).
    destruct (ensureAndUpdate p b _ (GetPayload fdata) dc st) as [[err|] st1];
      cbn [fst snd] in *.
    + exists new, 0%nat. split; [done|]. split; [done|]. split; [done|].
      cbn [length take fmap list_fmap]. split; [lia|]. by rewrite take_0.
    + destruct (IH st1) as (new' & k & Hlog' & Hupd' & Hdc' & Hres).
      exists (new ++ new')%list, (Datatypes.S k).
      rewrite Hlog', Hlog, <- app_assoc. split; [done|].
      unfold updates, ensured in *. rewrite !omap_app, Hupd, Hupd', Hens.
      cbn [take fmap list_fmap app]. split; [done|].
      split; [by apply Forall_app|].
      destruct (plainFlow p b overriddenDataSchema dc rest st1).1 as [err|].
      * destruct Hres as [Hk ->]. cbn [length]. split; [lia|done].
      * destruct Hres as [-> ->]. done.
Qed.

(** X10.  [SyncStore] without overriding fields returns the total number
    of rows of the processed groups, whatever happens next.  It stores the
    groups in order, each with one [EnsureTable] on the table mapped from
    its header (renamed when the override names a table), followed by one
    [BulkUpdate] under the delete condition of the time interval, and it
    stops at the first group that fails: on success every group was
    updated, on error exactly the groups before the failing one. *)
Theorem sync_store_plain (p : Postgres S) b overriddenDataSchema objects
    timeIntervalValue (st : SyncState) flatData :
  ProcessObjects b objects = inr flatData →
  (∀ overridden, overriddenDataSchema = Some overridden →
                 size (Fields overridden) = 0%nat) →
  let r := SyncStore p b overriddenDataSchema objects timeIntervalValue st in
  r.1.1 = len (concat (GetPayload <$> flatData)) ∧
  ∃ new (k : nat),
    r.2.2 = (st.2 ++ new)%list ∧
    updates new = GetPayload <$> take k flatData ∧
    Forall (λ c, ∀ dc, conditionsOf c = Some dc →
                       dc = DeleteByTimeChunkCondition timeIntervalValue) new ∧
    match r.1.2 with
    | None =>
        k = length flatData ∧
        ensured new = plainTable p overriddenDataSchema <$> flatData
    | Some _ =>
        (k < length flatData)%nat ∧
        ensured new = plainTable p overriddenDataSchema <$> take (Datatypes.S k) flatData
    end.
Proof.
  intros Hproc Hplain r. subst r. unfold SyncStore. rewrite Hproc.
  pose proof (plainFlow_spec p b overriddenDataSchema
                (DeleteByTimeChunkCondition timeIntervalValue) flatData st) as Hflow.
  destruct overriddenDataSchema as [overridden|].
  - rewrite (Hplain overridden eq_refl). destruct (decide _) as [Hpos|_]; [lia|].
    destruct (plainFlow _ _ _ _ _ _) as [err st']. cbn [fst snd] in *.
    split; [apply countRows_concat|done].
  - destruct (plainFlow _ _ _ _ _ _) as [err st']. cbn [fst snd] in *.
    split; [apply countRows_concat|done].
Qed.

(** X11.  [SyncStore] with an overridden schema that has fields ignores
    the split into tables: it ensures one table, mapped from the
    overridden header enriched with the fields of every group (the table
    name stays the overridden one), and makes at most one [BulkUpdate],
    which carries the rows of all groups in order.  The count returned is
    the total number of rows. *)
Theorem sync_store_overridden (p : Postgres S) b overridden objects
    timeIntervalValue (st : SyncState) flatData :
  ProcessObjects b objects = inr flatData →
  size (Fields overridden) ≠ 0%nat →
  let r := SyncStore p b (Some overridden) objects timeIntervalValue st in
  r.1.1 = len (concat (GetPayload <$> flatData)) ∧
  TableName (gathered overridden flatData).2 = TableName overridden ∧
  ∃ new,
    r.2.2 = (st.2 ++ new)%list ∧
    ensured new = [MapTableSchema (backend p) (gathered overridden flatData).2] ∧
    updates new = (if r.1.2 is None then [concat (GetPayload <$> flatData)] else []) ∧
    Forall (λ c, ∀ dc, conditionsOf c = Some dc →
                       dc = DeleteByTimeChunkCondition timeIntervalValue) new.
Proof.
  intros Hproc Hfields r. subst r. unfold SyncStore. rewrite Hproc.
  destruct (decide _) as [_|Hzero]; [|lia].
  destruct (gathered_spec overridden flatData) as [Hdata Hname].
  destruct (gathered overridden flatData) as [data enriched]. cbn [fst snd] in *.
  subst data.
  destruct (ensureAndUpdate_spec p b (MapTableSchema (backend p) enriched)
              (concat (GetPayload <$> flatData))
              (DeleteByTimeChunkCondition timeIntervalValue) st) as (new & Hlog & Hrest).
  destruct (ensureAndUpdate _ _ _ _ _ _) as [err st']. cbn [fst snd] in *.
  split; [apply countRows_concat|]. split; [done|]. by exists new.
Qed.

(** [Update] is [SyncStore] of one object with no override. *)
Lemma Update_spec (p : Postgres S) b object (st : SyncState) :
  Update p b object st
  = ((SyncStore p b None [object] "" st).1.2, (SyncStore p b None [object] "" st).2).
Proof. unfold Update. by destruct (SyncStore p b None [object] "" st) as [[n err] st']. Qed.

(** X12.  [Close] tries every part even when an earlier one fails: the
    adapter, the streaming worker when there is one, then the fallback
    logger.  It returns nil exactly when none of them failed, and
    otherwise a multi-error with one entry per failure.  In stream mode
    the [closed] flag of the worker is raised, so that its loop exits at
    the next pass; the queue, the fallback log, the archive log and the
    sink are not touched. *)
Theorem postgres_close_is_thorough (p : Postgres S) streamMode o (w : World S) :
  let r := Close p streamMode o w in
  r.1.2 = (TheAdapter :: (if streamMode then [TheStreamingWorker] else []) ++
           [TheFallbackLogger])%list ∧
  (r.1.1 = None ↔
   adapterClose o = None ∧ (streamMode = true → archiveWriterClose o = None) ∧
   fallbackWriterClose o = None) ∧
  (∀ e, r.1.1 = Some e →
        ∃ errs, e = MultiError errs ∧
          length errs
          = (length (filter (λ c, isNil c = false)
                       [adapterClose o;
                        if streamMode then archiveWriterClose o else None;
                        fallbackWriterClose o]))) ∧
  closed r.2 = (streamMode || closed w) ∧
  (streamMode = true →
   ∀ (sw : StreamingWorker S) d draws, start sw (d :: draws) r.2 = (Exited, r.2)) ∧
  eventQueue r.2 = eventQueue w ∧ fallbackLogger r.2 = fallbackLogger w ∧
  archiveLogger r.2 = archiveLogger w ∧ sink r.2 = sink w.
Proof.
  intros r. subst r. unfold Close, StreamingWorker_Close, Logging.closeResult.
  split; [by destruct streamMode, (adapterClose o), (archiveWriterClose o),
             (fallbackWriterClose o)|].
  split.
  { destruct streamMode, (adapterClose o), (archiveWriterClose o),
      (fallbackWriterClose o); cbn; split; try done;
      try (intros (? & ? & ?); done); try (intros (? & Hw & ?); by specialize (Hw eq_refl)). }
  split.
  { intros e. destruct streamMode, (adapterClose o), (archiveWriterClose o),
      (fallbackWriterClose o); cbn; intros [= <-]; by eexists. }
  split; [by destruct streamMode, (adapterClose o), (archiveWriterClose o),
             (fallbackWriterClose o)|].
  split.
  { intros -> sw d draws. cbn [start]. unfold iteration.
    destruct (adapterClose o), (archiveWriterClose o), (fallbackWriterClose o); cbn;
      by destruct (IsStaging (streamingStorage sw)). }
  by destruct streamMode, (adapterClose o), (archiveWriterClose o),
       (fallbackWriterClose o).
Qed.
End Facts.
End StoragesSyncFacts.

(* --------------------------------------------------------------------- *)
(** ** Schema changes of the MySQL adapter                               *)
(* --------------------------------------------------------------------- *)

Module AdaptersTablesFacts.
Import Adapters AdaptersTables.

(** *** The order of [sort.Strings] *)

Lemma Ascii_compare_Lt_trans x y z :
  Ascii.compare x y = Lt → Ascii.compare y z = Lt → Ascii.compare x z = Lt.
Proof.
  unfold Ascii.compare. rewrite !N.compare_lt_iff. lia.
Qed.

Lemma String_compare_trans_le (a : string) : ∀ b c,
  String.compare a b ≠ Gt → String.compare b c ≠ Gt → String.compare a c ≠ Gt.
Proof.
  induction a as [|x a IH]; intros [|y b] [|z c]; simpl; try done.
  destruct (Ascii.compare x y) eqn:Exy; [| |done].
  - apply Ascii.compare_eq_iff in Exy as ->.
    destruct (Ascii.compare y z); [apply IH|done|done].
  - intros _. destruct (Ascii.compare y z) eqn:Eyz; [| |done].
    + apply Ascii.compare_eq_iff in Eyz as <-. by rewrite Exy.
    + by rewrite (Ascii_compare_Lt_trans x y z).
Qed.

Lemma String_le_trans : Transitive String_le.
Proof.
  intros a b c. unfold String_le, String.leb. intros Hab Hbc.
  pose proof (String_compare_trans_le a b c) as Ht.
  destruct (String.compare a b), (String.compare b c), (String.compare a c);
    try done; exfalso; by apply Ht.
Qed.

Lemma String_le_total : Total String_le.
Proof. intros a b. apply String.leb_total. Qed.

Lemma String_le_antisym : AntiSymm (=) String_le.
Proof. intros a b. apply String.leb_antisym. Qed.

(** Sorting forgets the order it was given. *)
Lemma sort_Strings_Permutation (l k : list string) :
  l ≡ₚ k → sort_Strings l = sort_Strings k.
Proof.
  intros Hperm. unfold sort_Strings.
  apply (@Sorted_unique _ String_le String_le_trans String_le_antisym).
  - apply (@Sorted_merge_sort _ String_le _ String_le_total).
  - apply (@Sorted_merge_sort _ String_le _ String_le_total).
  - by rewrite !merge_sort_Permutation.
Qed.

Section Facts.
Context `{Helpers} `{ErrorTexts}.










(** X14.  What [CreateTable] does is independent of the order in which
    the columns of the table are enumerated: the column definitions are
    sorted before they are joined into the statement. *)
Theorem create_table_ignores_map_order eng p (columns columns' : list (string * Column))
    table log :
  columns ≡ₚ columns' →
  CreateTable eng p columns table log = CreateTable eng p columns' table log.
Proof.
  intros Hperm. unfold CreateTable, createTableInTransaction.
  rewrite (sort_Strings_Permutation
             ((λ nc, columnDDL p nc.1 nc.2 (PKFields table)) <$> columns)
             ((λ nc, columnDDL p nc.1 nc.2 (PKFields table)) <$> columns')); [done|].
  by apply fmap_Permutation.
Qed.
End Facts.
End AdaptersTablesFacts.

(* --------------------------------------------------------------------- *)
(** ** Catalog reads and single inserts of the MySQL adapter             *)
(* --------------------------------------------------------------------- *)

Module AdaptersReadsFacts.
Import Adapters AdaptersReads.

Section Reads.
Context `{ErrorTexts}.

Lemma scanColumns_spec (rows : list (Scan (string * string))) :
  ∀ columns columns',
    scanColumns rows columns = inr columns' →
    (∀ n c, columns' !! n = Some c →
            columns !! n = Some c ∨
            (SQLType c ≠ "-" ∧ Scanned (n, SQLType c) ∈ rows)) ∧
    (∀ n, is_Some (columns !! n) → is_Some (columns' !! n)) ∧
    (∀ n ty, Scanned (n, ty) ∈ rows → ty ≠ "-" → is_Some (columns' !! n)).
Proof.
  induction rows as [|[[name ty]|e] rest IH]; intros columns columns' Hscan;
    cbn [scanColumns] in Hscan.
  - injection Hscan as <-. split; [by left|]. split; [done|].
    intros n ty Hin. by apply elem_of_nil in Hin.
  - destruct (decide (ty = "-")) as [->|Hlive].
    + destruct (IH _ _ Hscan) as (Hfrom & Hkeep & Hall). split; [|split; [done|]].
      * intros n c Hc. destruct (Hfrom n c Hc) as [?|[? ?]]; [by left|].
        right. split; [done|]. by right.
      * intros n ty' [ [= <- <-] | Hin]%elem_of_cons Hne; [done|]. by eapply Hall.
    + destruct (IH _ _ Hscan) as (Hfrom & Hkeep & Hall). split; [|split].
      * intros n c Hc. destruct (Hfrom n c Hc) as [Hold|[? ?]].
        -- destruct (decide (name = n)) as [->|Hne].
           ++ rewrite lookup_insert_eq in Hold. injection Hold as <-.
              right. split; [done|]. by left.
           ++ rewrite lookup_insert_ne in Hold by done. by left.
        -- right. split; [done|]. by right.
      * intros n Hn. apply Hkeep. destruct (decide (name = n)) as [->|Hne].
        -- rewrite lookup_insert_eq. by eexists.
        -- by rewrite lookup_insert_ne.
      * intros n ty' [ [= <- <-] | Hin]%elem_of_cons Hne.
        -- apply Hkeep. rewrite lookup_insert_eq. by eexists.
        -- by eapply Hall.
  - done.
Qed.

Lemma scanFields_spec (rows : list (Scan string)) :
  ∀ pkFields pkFields',
    scanFields rows pkFields = inr pkFields' →
    ∀ f, f ∈ pkFields' ↔ f ∈ pkFields ∨ Scanned f ∈ rows.
Proof.
  induction rows as [|[name|e] rest IH]; intros pkFields pkFields' Hscan f;
    cbn [scanFields] in Hscan.
  - injection Hscan as <-. split; [by left|]. intros [?|Hin]; [done|].
    by apply elem_of_nil in Hin.
  - rewrite (IH _ _ Hscan), elem_of_app, list_elem_of_singleton, elem_of_cons.
    split; [intros [[?| ->]|?]; auto|intros [?|[ [= ->] |?]]; auto].
  - done.
Qed.

Lemma primaryKeys_lookup (pkFields : list string) : ∀ (start : gmap string bool) f,
  foldl (λ primaryKeys field, <[field := true]> primaryKeys) start pkFields !! f
  = if decide (f ∈ pkFields) then Some true else start !! f.
Proof.
  induction pkFields as [|g rest IH]; intros start f; cbn [foldl].
  - rewrite decide_False; [done|]. apply not_elem_of_nil.
  - rewrite IH. destruct (decide (f ∈ rest)) as [Hin|Hout].
    + rewrite decide_True; [done|]. by right.
    + destruct (decide (g = f)) as [->|Hne].
      * rewrite lookup_insert_eq, decide_True; [done|]. by left.
      * rewrite lookup_insert_ne by done. rewrite decide_False; [done|].
        intros [->|?]%elem_of_cons; done.
Qed.

(** X15.  When [GetTableSchema] succeeds, the table carries the name
    asked for; its columns are exactly the scanned ones whose type is not
    the dash that marks a dropped column; the primary keys are queried
    only when the table has a column, and the primary-key fields are then
    exactly the scanned names. *)
Theorem table_schema_read cat p tableName t :
  (GetTableSchema cat p tableName).1 = inr t →
  ∃ rows,
    tableSchemaQuery cat (Schema p) tableName = inr rows ∧
    Name t = tableName ∧
    (∀ n c, Columns t !! n = Some c →
            SQLType c ≠ "-" ∧ Scanned (n, SQLType c) ∈ fetched rows) ∧
    (∀ n ty, Scanned (n, ty) ∈ fetched rows → ty ≠ "-" → is_Some (Columns t !! n)) ∧
    if decide (Columns t = ∅)
    then PKFields t = ∅ ∧
         (GetTableSchema cat p tableName).2 = [AskedTableSchema (Schema p) tableName]
    else ∃ pkRows,
           primaryKeyFieldsQuery cat (Schema p +:+ "." +:+ tableName) (Schema p)
             = inr pkRows ∧
           (GetTableSchema cat p tableName).2
             = [AskedTableSchema (Schema p) tableName;
                AskedPrimaryKeyFields (Schema p +:+ "." +:+ tableName) (Schema p)] ∧
           ∀ f b, PKFields t !! f = Some b ↔ b = true ∧ Scanned f ∈ fetched pkRows.
Proof.
  unfold GetTableSchema, getTable.
  destruct (tableSchemaQuery cat (Schema p) tableName) as [e|rows]; [done|].
  destruct (scanColumns (fetched rows) ∅) as [e|columns] eqn:Hscan; [done|].
  destruct (rowsErr rows) as [e|]; [done|].
  apply scanColumns_spec in Hscan as (Hfrom & _ & Hall).
  cbn [Columns Name DeletePkFields].
  destruct (decide (Z.of_nat (size columns) = 0)%Z) as [Hzero|Hsome].
  - cbn [fst snd]. intros [= <-]. exists rows. cbn [Columns Name PKFields].
    split; [done|]. split; [done|]. split.
    { intros n c Hc. destruct (Hfrom n c Hc) as [Hempty|?]; [|done].
      by rewrite lookup_empty in Hempty. }
    split; [done|].
    rewrite decide_True; [done|]. apply map_size_empty_iff. lia.
  - unfold getPrimaryKeys.
    destruct (primaryKeyFieldsQuery cat _ _) as [e|pkRows]; [done|].
    destruct (scanFields (fetched pkRows) []) as [e|pkFields] eqn:Hpk; [done|].
    destruct (rowsErr pkRows) as [e|]; [done|].
    cbn [fst snd]. intros [= <-]. exists rows. cbn [Columns Name PKFields].
    split; [done|]. split; [done|]. split.
    { intros n c Hc. destruct (Hfrom n c Hc) as [Hempty|?]; [|done].
      by rewrite lookup_empty in Hempty. }
    split; [done|].
    rewrite decide_False.
    2:{ intros ->. by rewrite map_size_empty in Hsome. }
    exists pkRows. split; [done|]. split; [done|].
    intros f b. rewrite primaryKeys_lookup, lookup_empty.
    pose proof (scanFields_spec _ _ _ Hpk f) as Hf.
    destruct (decide (f ∈ pkFields)) as [Hin|Hout].
    + split; [intros [= <-]|intros [-> _]; done]. split; [done|].
      apply Hf in Hin as [Hnil|?]; [by apply elem_of_nil in Hnil|done].
    + split; [done|]. intros [_ Hs]. exfalso. apply Hout, Hf. by right.
Qed.
End Reads.
End AdaptersReadsFacts.

Module AdaptersRowsFacts.
Import Adapters AdaptersReads AdaptersFacts.

Section Facts.
Context `{Helpers} `{ErrorTexts}.

Lemma payloadLoop_spec p : ∀ (entries : list (string * Value)) (i : nat),
  (payloadLoop p i entries).1.1 = entries.*1 ∧
  (payloadLoop p i entries).2 = entries.*2 ∧
  length (payloadLoop p i entries).1.2 = length entries ∧
  ∀ k name, entries.*1 !! k = Some name →
    (payloadLoop p i entries).1.2 !! k
    = Some ("$" +:+ pretty (i + k + 1)%nat +:+ castClause p name).
Proof.
  induction entries as [|[name value] rest IH]; intros i; [done|].
  cbn [payloadLoop]. destruct (IH (S i)) as (Hh & Hv & Hl & Hp).
  destruct (payloadLoop p (S i) rest) as [[header placeholders] values].
  cbn [fst snd] in *. rewrite !fmap_cons. cbn [fst snd length]. subst header values.
  split; [done|]. split; [done|]. split; [by rewrite Hl|].
  intros [|k] name' Hk; simpl in Hk; simpl.
  - injection Hk as <-. by rewrite Nat.add_0_r.
  - rewrite (Hp k name' Hk).
    by replace (S i + k + 1)%nat with (i + S k + 1)%nat by lia.
Qed.

Lemma rowValues_own (valuesMap : Object) :
  rowValues (map_to_list valuesMap).*1 valuesMap = (map_to_list valuesMap).*2.
Proof.
  unfold rowValues. rewrite <- list_fmap_compose.
  apply list_fmap_ext. intros k [name value] Hk. cbn.
  apply list_elem_of_lookup_2, elem_of_map_to_list in Hk.
  unfold rowValue. by rewrite Hk.
Qed.

Lemma stored_own (valuesMap : Object) :
  stored (map_to_list valuesMap).*1 valuesMap = valuesMap.
Proof.
  unfold stored, toRow. rewrite rowValues_own, zip_fst_snd.
  apply list_to_map_to_list.
Qed.

(** X16.  [buildQueryPayload] lines up its three results: the header
    holds every key of the object once, the placeholder at position [k] is
    [$k+1] followed by the cast of the column at that position, and the
    value at position [k] is the value of that column. *)
Theorem insert_payload_binds_each_field p (valuesMap : Object) :
  let header := (buildQueryPayload p valuesMap).1.1 in
  let placeholders := (buildQueryPayload p valuesMap).1.2 in
  let values := (buildQueryPayload p valuesMap).2 in
  NoDup header ∧
  (list_to_map (zip header values) : Object) = valuesMap ∧
  length placeholders = size valuesMap ∧
  ∀ k name, header !! k = Some name →
    placeholders !! k = Some ("$" +:+ pretty (k + 1)%nat +:+ castClause p name) ∧
    values !! k = valuesMap !! name.
Proof.
  intros header placeholders values. subst header placeholders values.
  unfold buildQueryPayload.
  destruct (payloadLoop_spec p (map_to_list valuesMap) 0) as (-> & -> & Hl & Hp).
  split; [apply NoDup_fst_map_to_list|].
  split; [rewrite zip_fst_snd; apply list_to_map_to_list|].
  split; [by rewrite Hl, length_map_to_list|].
  intros k name Hk. split; [by rewrite (Hp k name Hk)|].
  apply list_lookup_fmap_Some in Hk as ([name' value] & -> & Hentry).
  rewrite (list_lookup_fmap_Some_2 snd _ _ _ Hentry).
  apply list_elem_of_lookup_2, elem_of_map_to_list in Hentry. cbn [fst snd].
  by rewrite Hentry.
Qed.

Lemma Insert_unfold eng p table (valuesMap : Object) conn :
  Insert eng p table valuesMap conn
  = match connExec eng
            (insertQueryJoined p (GetPKFields table) (Name table)
               (map_to_list valuesMap).*1 (Join (map_to_list valuesMap).*1 ", ")
               ("(" +:+ Join (buildQueryPayload p valuesMap).1.2 ", " +:+ ")"))
            (map_to_list valuesMap).*2 conn with
    | (Some err, conn') =>
        (Some (Wrap ("Error inserting in " +:+ Name table +:+
                     " table with statement: ") err), conn')
    | (None, conn') => (None, conn')
    end.
Proof.
  unfold Insert, buildQueryPayload.
  destruct (payloadLoop_spec p (map_to_list valuesMap) 0) as (Hh & Hv & _).
  destruct (payloadLoop p 0 (map_to_list valuesMap)) as [[header placeholders] values].
  cbn [fst snd] in *. by subst.
Qed.

Lemma header_nonempty (valuesMap : Object) :
  valuesMap ≠ ∅ → (map_to_list valuesMap).*1 ≠ [].
Proof.
  intros Hne Hnil. apply Hne, map_to_list_empty_iff.
  by destruct (map_to_list valuesMap).
Qed.

Lemma own_values_as_batch (valuesMap : Object) :
  (map_to_list valuesMap).*2 = flatValues (map_to_list valuesMap).*1 [valuesMap].
Proof. unfold flatValues. simpl. by rewrite app_nil_r, rowValues_own. Qed.

(** One insert into a table without primary key, on an engine without
    faults of its own. *)
Lemma Insert_plain eng p table (valuesMap : Object) conn t :
  (∀ q args, execFails eng q args = None) →
  PKFields table = ∅ → valuesMap ≠ ∅ →
  db conn !! Name table = Some t → pkConstraint t = [] →
  (Insert eng p table valuesMap conn).1 = None ∧
  db (Insert eng p table valuesMap conn).2
  = <[Name table := {| pkConstraint := []; rows := (rows t ++ [valuesMap])%list |}]>
      (db conn).
Proof.
  intros Hok Hpk Hne Ht Hnopk. rewrite Insert_unfold.
  unfold insertQueryJoined, GetPKFields. rewrite Hpk, map_to_list_empty.
  rewrite decide_True by done. unfold connExec. rewrite Hok.
  rewrite own_values_as_batch.
  rewrite (applyQuery_insert _ _ _ _ _ _ _ t); [|done|done|by apply header_nonempty|done].
  cbn [fst snd db fmap list_fmap]. by rewrite stored_own.
Qed.

Lemma applyQuery_merge_own eng schema name ph c u (valuesMap : Object) d t :
  valuesMap ≠ ∅ → d !! name = Some t → pkConstraint t ≠ [] →
  applyQuery eng (mergeTemplate schema name (map_to_list valuesMap).*1 ph c u)
    (map_to_list valuesMap).*2 d
  = Some (<[name := {| pkConstraint := pkConstraint t;
                       rows := upsert (pkConstraint t) valuesMap (rows t) |}]> d).
Proof.
  intros Hne Ht Hhaspk. unfold applyQuery. rewrite Ht. cbn [mbind option_bind].
  pose proof (header_nonempty valuesMap Hne) as Hh.
  assert (0 < length (map_to_list valuesMap).*1)%nat as Hlen
    by (destruct ((map_to_list valuesMap).*1); [done|simpl; lia]).
  rewrite bool_decide_eq_false_2.
  2:{ rewrite !length_fmap. intros [?|[Hnil|Hmod]]; [done| |].
      - apply (f_equal length) in Hnil. rewrite length_fmap in Hnil.
        rewrite length_fmap in Hlen. simpl in Hnil. lia.
      - by rewrite Nat.Div0.mod_same in Hmod. }
  rewrite own_values_as_batch.
  rewrite tuples_flatValues; [|done|done].
  cbn [fmap list_fmap applyRows]. fold (stored (map_to_list valuesMap).*1 valuesMap).
  rewrite stored_own. unfold mergeRow.
  destruct (pkConstraint t) as [|k ks] eqn:Hk; [done|]. done.
Qed.

(** One insert into a table with primary key. *)
Lemma Insert_merge eng p table (valuesMap : Object) conn t :
  (∀ q args, execFails eng q args = None) →
  PKFields table ≠ ∅ → valuesMap ≠ ∅ →
  db conn !! Name table = Some t → pkConstraint t ≠ [] →
  (Insert eng p table valuesMap conn).1 = None ∧
  db (Insert eng p table valuesMap conn).2
  = <[Name table := {| pkConstraint := pkConstraint t;
                       rows := upsert (pkConstraint t) valuesMap (rows t) |}]> (db conn).
Proof.
  intros Hok Hpk Hne Ht Hhaspk. rewrite Insert_unfold.
  unfold insertQueryJoined.
  rewrite decide_False.
  2:{ unfold GetPKFields, len. rewrite length_fmap, length_map_to_list.
      intros Hz. apply Hpk, map_size_empty_iff. lia. }
  unfold connExec. rewrite Hok.
  by rewrite (applyQuery_merge_own _ _ _ _ _ _ _ _ t).
Qed.

Lemma length_upsert pk row (storedRows : list Object) :
  length (upsert pk row storedRows)
  = (length storedRows +
     if decide (keyOf pk row ∈ keyOf pk <$> storedRows) then 0 else 1)%nat.
Proof.
  pose proof (upsert_keys pk row storedRows) as Hkeys.
  apply (f_equal length) in Hkeys. rewrite length_fmap in Hkeys. rewrite Hkeys.
  destruct (decide _); rewrite ?length_app, !length_fmap; simpl; lia.
Qed.

(** X17.  [Insert] of the same object [n] times on an engine that refuses
    no statement.  Into a table without primary key the object is appended
    [n] times.  Into a table with primary key it is stored once: after the
    first insert its key is present, and the table has one row more if the
    key was new and as many rows as before otherwise, however often the
    insert is repeated. *)
Theorem repeated_insert_merges_or_appends eng p table (valuesMap : Object) conn t (n : nat) :
  (∀ q args, execFails eng q args = None) →
  valuesMap ≠ ∅ →
  db conn !! Name table = Some t →
  let after := Nat.iter n (λ c, (Insert eng p table valuesMap c).2) conn in
  (PKFields table = ∅ → pkConstraint t = [] →
   db after !! Name table
   = Some {| pkConstraint := []; rows := (rows t ++ replicate n valuesMap)%list |}) ∧
  (PKFields table ≠ ∅ → pkConstraint t ≠ [] → (0 < n)%nat →
   ∃ t', db after !! Name table = Some t' ∧
         pkConstraint t' = pkConstraint t ∧
         keyOf (pkConstraint t) valuesMap ∈ keyOf (pkConstraint t) <$> rows t' ∧
         length (rows t')
         = (length (rows t) +
            if decide (keyOf (pkConstraint t) valuesMap
                         ∈ keyOf (pkConstraint t) <$> rows t) then 0 else 1)%nat).
Proof.
  intros Hok Hne Ht after. subst after. split.
  - intros Hpk Hnopk. revert conn t Ht Hnopk.
    induction n as [|n IH]; intros conn t Ht Hnopk.
    + cbn. rewrite app_nil_r, Ht, <- Hnopk. by destruct t.
    + rewrite Nat.iter_succ_r.
      destruct (Insert_plain eng p table valuesMap conn t Hok Hpk Hne Ht Hnopk) as [_ Hdb].
      rewrite (IH _ {| pkConstraint := []; rows := (rows t ++ [valuesMap])%list |});
        [|rewrite Hdb; apply lookup_insert_eq|done].
      cbn [rows replicate]. by rewrite <- app_assoc.
  - intros Hpk Hhaspk Hn.
    assert (∀ m conn t0,
              db conn !! Name table = Some t0 → pkConstraint t0 = pkConstraint t →
              keyOf (pkConstraint t) valuesMap ∈ keyOf (pkConstraint t) <$> rows t0 →
              ∃ t', db (Nat.iter m (λ c, (Insert eng p table valuesMap c).2) conn)
                      !! Name table = Some t' ∧
                    pkConstraint t' = pkConstraint t ∧
                    keyOf (pkConstraint t) valuesMap
                      ∈ keyOf (pkConstraint t) <$> rows t' ∧
                    length (rows t') = length (rows t0)) as Hstable.
    { induction m as [|m IH]; intros conn0 t0 Ht0 Hsame Hin; [by exists t0|].
      rewrite Nat.iter_succ_r.
      destruct (Insert_merge eng p table valuesMap conn0 t0 Hok Hpk Hne Ht0) as [_ Hdb];
        [by rewrite Hsame|].
      destruct (IH (Insert eng p table valuesMap conn0).2
                  {| pkConstraint := pkConstraint t0;
                     rows := upsert (pkConstraint t0) valuesMap (rows t0) |})
        as (t' & Ht' & Hpk' & Hin' & Hlen').
      - rewrite Hdb. apply lookup_insert_eq.
      - done.
      - cbn [rows]. rewrite Hsame. apply upsert_elem_of. by left.
      - exists t'. split; [done|]. split; [done|]. split; [done|].
        rewrite Hlen'. cbn [rows]. rewrite length_upsert, Hsame.
        rewrite decide_True by done. lia. }
    destruct n as [|n]; [lia|]. rewrite Nat.iter_succ_r.
    destruct (Insert_merge eng p table valuesMap conn t Hok Hpk Hne Ht Hhaspk) as [_ Hdb].
    destruct (Hstable n (Insert eng p table valuesMap conn).2
                {| pkConstraint := pkConstraint t;
                   rows := upsert (pkConstraint t) valuesMap (rows t) |})
      as (t' & Ht' & Hpk' & Hin' & Hlen').
    + rewrite Hdb. apply lookup_insert_eq.
    + done.
    + cbn [rows]. apply upsert_elem_of. by left.
    + exists t'. split; [done|]. split; [done|]. split; [done|].
      rewrite Hlen'. cbn [rows]. apply length_upsert.
Qed.
End Facts.
End AdaptersRowsFacts.

(* --------------------------------------------------------------------- *)
(** ** BulkUpdate of the MySQL adapter                                   *)
(* --------------------------------------------------------------------- *)

Module AdaptersUpdateFacts.
Import Adapters AdaptersFacts.

Section Facts.
Context `{Helpers} `{ErrorTexts}.

Lemma deleteClauses_spec p : ∀ (conditions : list DeleteCondition) (i : nat),
  (deleteClauses p i conditions).2 = CondValue <$> conditions ∧
  length (deleteClauses p i conditions).1 = length conditions ∧
  ∀ k c, conditions !! k = Some c →
    (deleteClauses p i conditions).1 !! k
    = Some (Field c +:+ " " +:+ Clause c +:+ " $" +:+ pretty (i + k + 1)%nat +:+
            castClause p (Field c)).
Proof.
  induction conditions as [|condition rest IH]; intros i; [done|].
  cbn [deleteClauses]. destruct (IH (S i)) as (Hv & Hl & Hc).
  destruct (deleteClauses p (S i) rest) as [queryConditions values].
  cbn [fst snd] in *. rewrite fmap_cons. cbn [length]. subst values.
  split; [done|]. split; [by rewrite Hl|].
  intros [|k] c Hk; simpl in Hk; simpl.
  - injection Hk as <-. by rewrite Nat.add_0_r.
  - rewrite (Hc k c Hk).
    by replace (S i + k + 1)%nat with (i + S k + 1)%nat by lia.
Qed.

(** X18.  [toDeleteQuery] numbers its placeholders from [$1] in the order
    of the conditions and returns the values in the same order, so that
    the value at position [k] is bound to the clause at position [k]. *)
Theorem delete_query_binds_in_order p (conditions : DeleteConditions) :
  (toDeleteQuery p conditions).2 = CondValue <$> Conditions conditions ∧
  ∃ clauses,
    (toDeleteQuery p conditions).1 = Join clauses (JoinCondition conditions) ∧
    length clauses = length (Conditions conditions) ∧
    ∀ k c, Conditions conditions !! k = Some c →
      clauses !! k
      = Some (Field c +:+ " " +:+ Clause c +:+ " $" +:+ pretty (k + 1)%nat +:+
              castClause p (Field c)).
Proof.
  unfold toDeleteQuery.
  destruct (deleteClauses_spec p (Conditions conditions) 0) as (Hv & Hl & Hc).
  destruct (deleteClauses p 0 (Conditions conditions)) as [queryConditions values].
  cbn [fst snd] in *. split; [done|]. by exists queryConditions.
Qed.

Lemma bulkInsert_rows eng p tx table objects tx' t :
  PKFields table = ∅ →
  (len (columnNames table) ≤ mysqlValuesLimit)%Z →
  work tx !! Name table = Some t → pkConstraint t = [] →
  bulkStoreInTransaction eng p tx table objects = (None, tx') →
  work tx' !! Name table
  = Some {| pkConstraint := [];
            rows := (rows t ++
                     (if decide (columnNames table = []) then []
                      else stored (columnNames table) <$> objects))%list |}.
Proof.
  intros Hpk Hh Ht Hnopk. destruct (decide (columnNames table = [])) as [Hbare|Hcols].
  - rewrite bulkStoreInTransaction_bare by done. intros [= <-].
    rewrite Ht, app_nil_r, <- Hnopk. by destruct t.
  - unfold bulkStoreInTransaction.
    rewrite Hpk, map_size_empty. destruct (decide _) as [_|Hne]; [|done].
    intros Hrun. apply bulkInsertInTransaction_spec in Hrun
      as (new & batches & Hev & Hwork & Hf2 & Hfa & Hok & Hcat).
    assert (0 < len (columnNames table))%Z as Hpos.
    { unfold len. destruct (columnNames table); [done|]. cbn [length]. lia. }
    rewrite Hwork, <- Hcat by lia.
    apply (replay_inserts eng p table); try done.
    eapply Forall_impl; [apply Hfa; lia|]. by intros b [? _].
Qed.

(** X19.  A [BulkUpdate] that returns nil on a table without primary key
    and with at most [mysqlValuesLimit] columns leaves the table with the
    rows that do not match the delete conditions (all of them when there
    is no condition), followed by the new objects when the table has a
    column; for a table without columns nothing is added. *)
Theorem bulk_update_replaces_rows eng p table objects dc conn t conn' :
  PKFields table = ∅ →
  (len (columnNames table) ≤ mysqlValuesLimit)%Z →
  db conn !! Name table = Some t → pkConstraint t = [] →
  BulkUpdate eng p table objects dc conn = (None, conn') →
  db conn' !! Name table
  = Some {| pkConstraint := [];
            rows := ((if IsEmpty dc then rows t
                      else filter (λ r, deleteMatches eng (toDeleteQuery p dc).1
                                          (toDeleteQuery p dc).2 r = false) (rows t))
                     ++ (if decide (columnNames table = []) then []
                         else stored (columnNames table) <$> objects))%list |}.
Proof.
  intros Hpk Hh Ht Hnopk. unfold BulkUpdate, OpenTx.
  destruct (beginFails eng) as [e|]; [done|].
  set (tx := {| work := db conn; txEvents := (events conn ++ [EvBegin])%list |}).
  destruct (IsEmpty dc); cbn [negb].
  - destruct (bulkStoreInTransaction eng p tx table objects) as [[e|] tx'] eqn:Hstore;
      [done|].
    unfold DirectCommit. destruct (commitFails eng); [done|]. intros [= <-]. cbn [db].
    by apply (bulkInsert_rows eng p tx table objects tx' t).
  - unfold deleteInTransaction.
    destruct (toDeleteQuery p dc) as [cond values]. cbn [fst snd].
    unfold txPrepare. destruct (prepareFails eng _); [done|].
    unfold txExec. cbn [work txEvents]. destruct (execFails eng _ _); [done|].
    unfold applyQuery at 1. subst tx. cbn [work]. rewrite Ht. cbn [mbind option_bind].
    set (tx1 := {| work := _; txEvents := _ |}).
    destruct (bulkStoreInTransaction eng p tx1 table objects) as [[e|] tx'] eqn:Hstore;
      [done|].
    unfold DirectCommit. destruct (commitFails eng); [done|]. intros [= <-]. cbn [db].
    rewrite (bulkInsert_rows eng p tx1 table objects tx'
               {| pkConstraint := pkConstraint t;
                  rows := filter (λ r, deleteMatches eng cond values r = false) (rows t) |});
      try done.
    subst tx1. cbn [work]. apply lookup_insert_eq.
Qed.
End Facts.
End AdaptersUpdateFacts.

(* --------------------------------------------------------------------- *)
(** ** The files waiting for a replay                                    *)
(* --------------------------------------------------------------------- *)

Module FallbackFilesFacts.
Import Fallback FallbackFiles.

Section Facts.
Context {W : Type} `{Library}.

Lemma empty_content (b : string) : String.length b = 0 ↔ b = "".
Proof. destruct b; simpl; split; done. Qed.

Lemma GetTablesStatuses_same (s s' : Service W) fileName destinationID :
  statusManager s' !! fileName = statusManager s !! fileName →
  GetTablesStatuses s' fileName destinationID = GetTablesStatuses s fileName destinationID.
Proof. unfold GetTablesStatuses. by intros ->. Qed.

Lemma GetTablesStatuses_cleaned (s' : Service W) fileName destinationID :
  statusManager s' !! fileName = None →
  GetTablesStatuses s' fileName destinationID = ∅.
Proof. unfold GetTablesStatuses. by intros ->. Qed.

Lemma omap_one {A B} (f : A → option B) (x : A) :
  omap f [x] = match f x with Some y => [y] | None => [] end.
Proof. cbn. by destruct (f x). Qed.

Lemma Remove_spec removes filePath (s : Service W) :
  (∀ path, files (Remove removes filePath s) !! path
           = if decide (path = filePath ∧ removes filePath = true) then None
             else files s !! path) ∧
  statusManager (Remove removes filePath s) = statusManager s ∧
  locks (Remove removes filePath s) = locks s ∧
  destinationService (Remove removes filePath s) = destinationService s ∧
  archived (Remove removes filePath s) = archived s ∧
  metrics (Remove removes filePath s) = metrics s ∧
  fallbackDir (Remove removes filePath s) = fallbackDir s.
Proof.
  unfold Remove. destruct (removes filePath) eqn:E; (split; [|done]); intros path.
  - cbn [files]. destruct (decide (path = filePath)) as [->|Hne].
    + rewrite lookup_delete_eq. by rewrite decide_True.
    + rewrite lookup_delete_ne by done. rewrite decide_False; [done|]. by intros [? _].
  - rewrite decide_False; [done|]. by intros [_ ?].
Qed.

(** A path that changes neither the list nor the service. *)
Lemma surveyed_skip removes destinationsFilter (s : Service W) paths acc filePath :
  surveyed removes destinationsFilter s paths acc →
  listed s destinationsFilter filePath = None →
  (files s !! filePath = Some "" →
   (removes filePath = true → files acc.2 !! filePath = None) ∧
   statusManager acc.2 !! filepath_Base filePath = None) →
  surveyed removes destinationsFilter s (paths ++ [filePath])%list acc.
Proof.
  intros (Hnames & Htables & Hfiles & Hgone & Hstat & Hclean & Hrest) Hnone Hnew.
  unfold surveyed. rewrite omap_app, omap_one, Hnone, app_nil_r.
  split; [done|]. split.
  { intros status Hst. destruct (Htables status Hst) as [?|(? & path & ? & ? & ?)];
      [by left|right]. split; [done|]. exists path. split; [|done].
    apply elem_of_app. by left. }
  split.
  { intros path. destruct (Hfiles path) as [?|(? & ? & ? & ?)]; [by left|right].
    split; [done|]. split; [done|]. split; [|done]. apply elem_of_app. by left. }
  split.
  { intros path [Hin| ->%list_elem_of_singleton]%elem_of_app Hempty Hr;
      [by apply Hgone|]. by apply Hnew. }
  split.
  { intros name. destruct (Hstat name) as [?|(? & path & ? & ? & ?)]; [by left|right].
    split; [done|]. exists path. split; [|done]. apply elem_of_app. by left. }
  split; [|done].
  intros path [Hin| ->%list_elem_of_singleton]%elem_of_app Hempty;
    [by apply Hclean|]. by apply Hnew.
Qed.

Lemma surveyed_step removes destinationsFilter (s : Service W) paths acc filePath :
  surveyed removes destinationsFilter s paths acc →
  surveyed removes destinationsFilter s (paths ++ [filePath])%list
    (fileStatus removes destinationsFilter acc filePath).
Proof.
  intros Hinv.
  pose proof Hinv as (Hnames & Htables & Hfiles & Hgone & Hstat & Hclean &
                      Hl & Hd & Ha & Hm & Hdir).
  unfold fileStatus.
  destruct (files acc.2 !! filePath) as [b|] eqn:Hread.
  2:{ destruct acc as [statuses s']. apply surveyed_skip; [done| |].
      - unfold listed. destruct (Hfiles filePath) as [E|(_ & E & _)].
        + cbn [snd] in *. by rewrite <- E, Hread.
        + by rewrite E.
      - intros Hempty. split; [done|].
        destruct (Hfiles filePath) as [E|(_ & _ & Hin & _)]; [cbn [snd] in *; congruence|].
        by apply Hclean. }
  assert (files s !! filePath = Some b) as Hs.
  { destruct (Hfiles filePath) as [E|(E & _)]; congruence. }
  destruct (decide (String.length b = 0)) as [Hlen|Hlen].
  - apply empty_content in Hlen. subst b.
    destruct (Remove_spec removes filePath acc.2) as (Hrm & Hrs & Hl' & Hd' & Ha' & Hm' & Hdir').
    assert (filePath ∈ (paths ++ [filePath])%list) as Hlast
      by (apply elem_of_app; right; by apply list_elem_of_singleton).
    unfold surveyed. rewrite omap_app, omap_one.
    assert (listed s destinationsFilter filePath = None) as ->
      by (unfold listed; by rewrite Hs).
    cbn [fst snd CleanUp setStatuses files statusManager locks destinationService archived
         metrics fallbackDir].
    rewrite app_nil_r, Hrs, Hl', Hd', Ha', Hm', Hdir'.
    split; [done|]. split.
    { intros status Hst. destruct (Htables status Hst) as [?|(? & path & ? & ? & ?)];
        [by left|right]. split; [done|]. exists path. split; [|done].
      apply elem_of_app. by left. }
    split.
    { intros path. rewrite Hrm. destruct (decide _) as [[-> Hr]|_].
      - by right.
      - destruct (Hfiles path) as [?|(? & ? & ? & ?)]; [by left|right].
        split; [done|]. split; [done|]. split; [|done]. apply elem_of_app. by left. }
    split.
    { intros path Hin Hempty Hr. rewrite Hrm. destruct (decide _) as [|Hno]; [done|].
      apply elem_of_app in Hin as [Hin| ->%list_elem_of_singleton]; [by apply Hgone|].
      exfalso. by apply Hno. }
    split.
    { intros name. destruct (decide (name = filepath_Base filePath)) as [->|Hne].
      - right. split; [apply lookup_delete_eq|]. by exists filePath.
      - rewrite lookup_delete_ne by done.
        destruct (Hstat name) as [?|(? & path & ? & ? & ?)]; [by left|right].
        split; [done|]. exists path. split; [|done]. apply elem_of_app. by left. }
    split; [|done].
    intros path Hin Hempty.
    destruct (decide (filepath_Base path = filepath_Base filePath)) as [->|Hne];
      [apply lookup_delete_eq|].
    rewrite lookup_delete_ne by done.
    apply elem_of_app in Hin as [Hin| ->%list_elem_of_singleton]; [by apply Hclean|done].
  - assert (b ≠ "") as Hb by (intros ->; by apply Hlen).
    assert (listed s destinationsFilter filePath
            = match FindStringSubmatch (filepath_Base filePath) with
              | [_; destinationID] =>
                  if decide (destinationsFilter = ∅ ∨
                             is_Some (destinationsFilter !! destinationID))
                  then Some (filepath_Base filePath, destinationID) else None
              | _ => None
              end) as Hlisted
      by (unfold listed; rewrite Hs; by destruct (decide (b = ""))).
    assert (files s !! filePath = Some "" →
            (removes filePath = true → files acc.2 !! filePath = None) ∧
            statusManager acc.2 !! filepath_Base filePath = None) as Hnew by congruence.
    destruct (FindStringSubmatch (filepath_Base filePath))
      as [|whole [|destinationID [|]]] eqn:Hname.
    1,2,4: (destruct acc; by apply surveyed_skip).
    destruct (decide ((Z.of_nat (size destinationsFilter) > 0)%Z ∧
                      destinationsFilter !! destinationID = None)) as [[Hsize Hout]|Hin].
    { destruct acc. apply surveyed_skip; [done| |done]. rewrite Hlisted.
      rewrite decide_False; [done|].
      intros [->|Hsome]; [rewrite map_size_empty in Hsize; lia|].
      rewrite Hout in Hsome. by destruct Hsome. }
    assert (destinationsFilter = ∅ ∨ is_Some (destinationsFilter !! destinationID)) as Hpass.
    { destruct (decide (destinationsFilter = ∅)) as [?|Hne]; [by left|right].
      destruct (destinationsFilter !! destinationID) eqn:E; [done|].
      exfalso. apply Hin. split; [|done].
      assert (size destinationsFilter ≠ 0) by (by intros ?%map_size_empty_iff). lia. }
    rewrite decide_True in Hlisted by done.
    unfold surveyed. rewrite omap_app, omap_one, Hlisted. cbn [fst snd].
    split; [by rewrite fmap_app, Hnames|]. split.
    { intros status [Hst| ->%list_elem_of_singleton]%elem_of_app.
      - destruct (Htables status Hst) as [?|(? & path & ? & ? & ?)]; [by left|right].
        split; [done|]. exists path. split; [|done]. apply elem_of_app. by left.
      - cbn [TablesStatus FileName DestinationID].
        destruct (Hstat (filepath_Base filePath)) as [E|(E & path & ? & ? & ?)].
        + left. by apply GetTablesStatuses_same.
        + right. split; [by apply GetTablesStatuses_cleaned|].
          exists path. split; [|done]. apply elem_of_app. by left. }
    split.
    { intros path. destruct (Hfiles path) as [?|(? & ? & ? & ?)]; [by left|right].
      split; [done|]. split; [done|]. split; [|done]. apply elem_of_app. by left. }
    split.
    { intros path [Hp| ->%list_elem_of_singleton]%elem_of_app Hempty Hr;
        [by apply Hgone|congruence]. }
    split.
    { intros name. destruct (Hstat name) as [?|(? & path & ? & ? & ?)]; [by left|right].
      split; [done|]. exists path. split; [|done]. apply elem_of_app. by left. }
    split; [|done].
    intros path [Hp| ->%list_elem_of_singleton]%elem_of_app Hempty;
      [by apply Hclean|congruence].
Qed.

Lemma GetFileStatuses_surveyed removes destinationsFilter (s : Service W) paths :
  surveyed removes destinationsFilter s paths
    (GetFileStatuses removes (inr paths) destinationsFilter s).
Proof.
  unfold GetFileStatuses. induction paths as [|filePath paths IH] using rev_ind.
  - cbn. unfold surveyed. cbn [fst snd omap fmap list_fmap].
    split; [done|]. split; [by intros ? ?%elem_of_nil|]. split; [by left|].
    split; [by intros ? ?%elem_of_nil|]. split; [by left|].
    split; [by intros ? ?%elem_of_nil|]. done.
  - rewrite foldl_app. cbn [foldl]. by apply surveyed_step.
Qed.

(** X20.  [GetFileStatuses] lists, in the order of the glob, exactly the
    files that can be read, are not empty, have a name that encodes a
    destination and pass the filter (an empty filter lets every
    destination pass).  Each entry carries the table statuses the status
    manager holds for the file and the destination; they read as empty
    only if an empty file of the same name was cleaned earlier in the same
    listing.  When the glob fails the list is empty and nothing
    changes. *)
Theorem fallback_files_are_listed removes destinationsFilter (s : Service W) paths :
  let r := GetFileStatuses removes (inr paths) destinationsFilter s in
  entryOf <$> r.1 = omap (listed s destinationsFilter) paths ∧
  (∀ status, status ∈ r.1 →
     TablesStatus status = GetTablesStatuses s (FileName status) (DestinationID status) ∨
     (TablesStatus status = ∅ ∧
      ∃ path, path ∈ paths ∧ files s !! path = Some "" ∧
              filepath_Base path = FileName status)) ∧
  ∀ err, GetFileStatuses removes (inl err) destinationsFilter s = ([], s).
Proof.
  intros r. subst r.
  destruct (GetFileStatuses_surveyed removes destinationsFilter s paths)
    as (Hnames & Htables & _).
  split; [done|]. split; [done|]. done.
Qed.

(** X21.  [GetFileStatuses] removes nothing but empty files it was given
    by the glob: every other file stays as it is.  For each empty file the
    status of its name is cleaned, whether or not the removal worked, and
    no other status is touched.  Locks, destinations, the archive and the
    metrics are left alone. *)
Theorem empty_fallback_files_are_cleaned removes destinationsFilter (s : Service W) paths :
  let r := GetFileStatuses removes (inr paths) destinationsFilter s in
  (∀ path, files r.2 !! path = files s !! path ∨
           (files r.2 !! path = None ∧ files s !! path = Some "" ∧
            path ∈ paths ∧ removes path = true)) ∧
  (∀ path, path ∈ paths → files s !! path = Some "" →
           (removes path = true → files r.2 !! path = None) ∧
           statusManager r.2 !! filepath_Base path = None) ∧
  (∀ name, statusManager r.2 !! name = statusManager s !! name ∨
           (statusManager r.2 !! name = None ∧
            ∃ path, path ∈ paths ∧ files s !! path = Some "" ∧
                    filepath_Base path = name)) ∧
  locks r.2 = locks s ∧ destinationService r.2 = destinationService s ∧
  archived r.2 = archived s ∧ metrics r.2 = metrics s.
Proof.
  intros r. subst r.
  destruct (GetFileStatuses_surveyed removes destinationsFilter s paths)
    as (_ & _ & Hfiles & Hgone & Hstat & Hclean & Hl & Hd & Ha & Hm & _).
  split; [done|]. split.
  { intros path Hin Hempty. split; [by apply Hgone|by apply Hclean]. }
  done.
Qed.

End Facts.
End FallbackFilesFacts.

(* --------------------------------------------------------------------- *)
(** ** What a replay leaves behind                                        *)
(* --------------------------------------------------------------------- *)

Module ReplayFacts.
Import Fallback FallbackFiles FallbackFacts.

Section Facts.
Context {W : Type} `{Library} `{ErrorTexts}.

Lemma setLocks_same (s : Service W) : setLocks (locks s) s = s.
Proof. by destruct s. Qed.

Lemma lock_released (name : string) (s : Service W) :
  name ∉ locks s →
  setLocks (locks (setLocks ({[name]} ∪ locks s) s) ∖ {[name]})
    (setLocks ({[name]} ∪ locks s) s) = s.
Proof.
  intros Hfree. destruct s as [d l st ds f a m]. unfold setLocks. cbn in *.
  f_equal. by apply unlock_after_lock.
Qed.

(** X22.  A replay that is turned down before it reaches a storage (no
    file name, file being processed, file that cannot be read, name that
    encodes no destination when none is given, destination unknown, not
    initialised or staged) returns an error and leaves the service, its
    lock map included, and the storages exactly as they were. *)
Theorem refused_replay_changes_nothing archiveFails fileName destinationID rawFile
    (s : Service W) (w : W) :
  refused s fileName destinationID →
  ∃ err, Replay archiveFails fileName destinationID rawFile s w = (Some err, s, w).
Proof.
  intros Href. unfold Replay.
  destruct (decide (fileName = "")) as [?|Hname]; [by eexists|].
  destruct Href as [?|Href]; [done|].
  destruct (locate s fileName) as [filePath name]. cbn [fst snd] in Href.
  destruct (decide (name ∈ locks s)) as [?|Hfree]; [by eexists|].
  destruct Href as [?|Href]; [done|].
  unfold replayLocked. cbn [files setLocks destinationService].
  destruct (files s !! filePath) as [b|].
  2: { eexists. by rewrite (lock_released name s Hfree). }
  destruct Href as [?|Href]; [done|].
  destruct (targetID destinationID name) as [err|id].
  { eexists. by rewrite (lock_released name s Hfree). }
  destruct (destinationService s !! id) as [[storage|]|].
  2,3: (eexists; by rewrite (lock_released name s Hfree)).
  rewrite Href. eexists. by rewrite (lock_released name s Hfree).
Qed.

(** X23.  Whatever its outcome, [Replay] leaves the lock map as it found
    it, and the destinations and the fallback directory unchanged.  The
    files and the archive are unchanged too, unless the replay returned
    nil and the archiver worked: then the replayed file, and no other, has
    moved to the archive and its status is cleaned. *)
Theorem replay_leaves_locks_as_found archiveFails fileName destinationID rawFile
    (s : Service W) (w : W) :
  let r := Replay archiveFails fileName destinationID rawFile s w in
  locks r.1.2 = locks s ∧
  destinationService r.1.2 = destinationService s ∧
  fallbackDir r.1.2 = fallbackDir s ∧
  ((files r.1.2 = files s ∧ archived r.1.2 = archived s) ∨
   (r.1.1 = None ∧ archiveFails = None ∧
    files r.1.2 = delete (locate s fileName).1 (files s) ∧
    archived r.1.2 = (archived s ++ [(locate s fileName).1])%list ∧
    statusManager r.1.2 !! (locate s fileName).2 = None)).
Proof.
  intros r. subst r. unfold Replay.
  destruct (decide (fileName = "")) as [?|Hname]; [by (repeat split; try left)|].
  destruct (locate s fileName) as [filePath name]. cbn [fst snd].
  destruct (decide (name ∈ locks s)) as [?|Hfree]; [by (repeat split; try left)|].
  unfold replayLocked. cbn [files setLocks destinationService].
  destruct (files s !! filePath) as [b|].
  2: { cbn. split; [by apply unlock_after_lock|]. split; [done|]. split; [done|]. by left. }
  destruct (targetID destinationID name) as [err|id].
  { cbn. split; [by apply unlock_after_lock|]. split; [done|]. split; [done|]. by left. }
  destruct (destinationService s !! id) as [[storage|]|].
  2,3: (cbn; split; [by apply unlock_after_lock|]; split; [done|]; split; [done|]; by left).
  destruct (IsStaging storage).
  { cbn. split; [by apply unlock_after_lock|]. split; [done|]. split; [done|]. by left. }
  rewrite GetTablesStatuses_setLocks.
  destruct (StoreWithParseFunc storage name b _ _ w) as [[[results errRows] err] w'].
  set (s1 := if decide (errRows > 0)%Z then _ else _).
  assert (files s1 = files s ∧ archived s1 = archived s ∧
          locks s1 = {[name]} ∪ locks s ∧ destinationService s1 = destinationService s ∧
          fallbackDir s1 = fallbackDir s) as (Hf1 & Ha1 & Hl1 & Hd1 & Hdir1).
  { subst s1. by destruct (decide _). }
  destruct err as [e|].
  { cbn [fst snd locks setLocks files archived destinationService fallbackDir].
    rewrite Hl1, Hf1, Ha1, Hd1, Hdir1.
    split; [by apply unlock_after_lock|]. split; [done|]. split; [done|]. by left. }
  pose proof (recordResults_spec name (Name storage) (map_to_list results) None s1)
    as (Herr & Hf2 & Ha2 & Hl2 & Hd2 & Hdir2 & _).
  destruct (foldl (recordResult name (Name storage)) (None, s1) (map_to_list results))
    as [multiErr s2].
  cbn [fst snd] in Herr, Hf2, Ha2, Hl2, Hd2, Hdir2.
  destruct multiErr as [e|].
  { cbn [fst snd locks setLocks files archived destinationService fallbackDir].
    rewrite Hl2, Hl1, Hf2, Hf1, Ha2, Ha1, Hd2, Hd1, Hdir2, Hdir1.
    split; [by apply unlock_after_lock|]. split; [done|]. split; [done|]. by left. }
  unfold ArchiveByPath. destruct archiveFails as [e|];
    cbn [fst snd locks setLocks CleanUp setStatuses files archived statusManager
         destinationService fallbackDir];
    rewrite Hl2, Hl1, Hf2, Hf1, Ha2, Ha1, Hd2, Hd1, Hdir2, Hdir1.
  - split; [by apply unlock_after_lock|]. split; [done|]. split; [done|]. by left.
  - split; [by apply unlock_after_lock|]. split; [done|]. split; [done|]. right.
    split; [done|]. split; [done|]. split; [done|]. split; [done|]. apply lookup_delete_eq.
Qed.

End Facts.
End ReplayFacts.

(* --------------------------------------------------------------------- *)
(** ** Storing a file in BigQuery                                        *)
(* --------------------------------------------------------------------- *)

Module BigQueryStoreFacts.
Import Storages BigQueryStore.

Section Facts.
Context {S : Type} `{EventHelpers} `{ErrorTexts} `{FileBuilder}.

Lemma bq_EnsureTable_spec (bq : BigQuery S) dataSchema (w : Warehouse S) :
  quiet w (EnsureTable bq dataSchema w).2 ∧
  clientCalls (EnsureTable bq dataSchema w).2
  = (clientCalls w ++
     [EnsuredTable (name bq) dataSchema (errOf (EnsureTable bq dataSchema w).1)])%list.
Proof.
  unfold EnsureTable. by destruct (tableHelper_EnsureTable _ _ _ _) as [r s].
Qed.

Lemma UploadBytes_spec (bq : BigQuery S) fileName b (w : Warehouse S) :
  quiet w (UploadBytes bq fileName b w).2 ∧
  clientCalls (UploadBytes bq fileName b w).2
  = (clientCalls w ++ [UploadedBytes fileName b (UploadBytes bq fileName b w).1])%list.
Proof.
  unfold UploadBytes. by destruct (gcsAdapter_UploadBytes _ _ _ _) as [r s].
Qed.

(** The first loop makes no upload; when it ends without error it has
    ensured the table of every group. *)
Lemma ensureTables_spec (bq : BigQuery S) : ∀ flatData (w : Warehouse S),
  quiet w (ensureTables bq flatData w).2 ∧
  length (ensureTables bq flatData w).1.2 = length flatData ∧
  ∃ cs, clientCalls (ensureTables bq flatData w).2 = (clientCalls w ++ cs)%list ∧
        uploadsIn cs = [] ∧
        ((ensureTables bq flatData w).1.1 = None →
         cs = (λ fdata, EnsuredTable (name bq) (DataSchema fdata) None) <$> flatData).
Proof.
  induction flatData as [|fdata rest IH]; intros w.
  - cbn. split; [done|]. split; [done|]. exists []. by rewrite app_nil_r.
  - cbn [ensureTables].
    destruct (bq_EnsureTable_spec bq (DataSchema fdata) w) as (Hq & Hc).
    destruct (EnsureTable bq (DataSchema fdata) w) as [[err|dbSchema] w1];
      cbn [fst snd errOf] in Hq, Hc.
    + cbn [fst snd]. split; [done|]. split; [done|]. eexists. split; [exact Hc|]. done.
    + destruct (ApplyDBTyping (schemaProcessor bq) dbSchema fdata) as [[e|] fdata'].
      * cbn [fst snd]. split; [done|]. split; [done|]. eexists. split; [exact Hc|]. done.
      * destruct (IH w1) as (Hq' & Hlen & cs & Hc' & Hup & Hok).
        destruct (ensureTables bq rest w1) as [[err rest'] w2]. cbn [fst snd] in *.
        split. { destruct Hq as (? & ? & ?), Hq' as (? & ? & ?). unfold quiet. by split_and!; congruence. }
        split; [cbn [length]; by rewrite Hlen|].
        exists (EnsuredTable (name bq) (DataSchema fdata) None :: cs).
        split; [by rewrite Hc', Hc, <- app_assoc|]. split; [done|].
        intros Herr. by rewrite (Hok Herr).
Qed.

(** The second loop uploads the groups in order and stops at the first
    upload that fails. *)
Lemma uploadFiles_spec (bq : BigQuery S) : ∀ flatData (w : Warehouse S),
  quiet w (uploadFiles bq flatData w).2 ∧
  ∃ cs, clientCalls (uploadFiles bq flatData w).2 = (clientCalls w ++ cs)%list ∧
        match (uploadFiles bq flatData w).1 with
        | None => uploadsIn cs = (λ fdata, (fileOf fdata, None)) <$> flatData
        | Some (fileRows, e) =>
            ∃ k fdata, flatData !! k = Some fdata ∧
              uploadsIn cs = (((λ fdata, (fileOf fdata, None)) <$> take k flatData) ++
                              [(fileOf fdata, Some e)])%list ∧
              fileRows = (GetPayloadBytes fdata).2
        end ∧
        Forall (λ c, isUpload c = true) cs.
Proof.
  induction flatData as [|fdata rest IH]; intros w.
  - cbn. split; [done|]. exists []. by rewrite app_nil_r.
  - cbn [uploadFiles]. destruct (GetPayloadBytes fdata) as [b fileRows] eqn:Hbytes.
    destruct (UploadBytes_spec bq (buildDataIntoFileName fdata fileRows) b w) as (Hq & Hc).
    destruct (UploadBytes bq (buildDataIntoFileName fdata fileRows) b w) as [[e|] w1];
      cbn [fst snd] in Hq, Hc.
    + cbn [fst snd]. split; [done|]. eexists. split; [exact Hc|]. split.
      * exists 0, fdata. split; [done|]. unfold fileOf. rewrite Hbytes. by cbn.
      * by repeat constructor.
    + destruct (IH w1) as (Hq' & cs & Hc' & Hres & Hall).
      split. { destruct Hq as (? & ? & ?), Hq' as (? & ? & ?). unfold quiet. by split_and!; congruence. }
      exists (UploadedBytes (buildDataIntoFileName fdata fileRows) b None :: cs).
      split; [by rewrite Hc', Hc, <- app_assoc|]. split; [|by constructor].
      destruct (uploadFiles bq rest w1).1 as [[rows e]|].
      * destruct Hres as (k & fd & Hk & Hup & Hrows). exists (Datatypes.S k), fd.
        split; [done|]. split; [|done]. unfold uploadsIn in *. cbn. rewrite Hup.
        unfold fileOf. by rewrite Hbytes.
      * unfold uploadsIn in *. cbn. rewrite Hres. unfold fileOf. by rewrite Hbytes.
Qed.

Lemma cacheObjects_spec (bq : BigQuery S) : ∀ flatData (w : Warehouse S),
  eventsCache (cacheObjects bq None flatData w)
  = (eventsCache w ++ concat (succeeded bq <$> flatData))%list ∧
  fallbackLogger (cacheObjects bq None flatData w) = fallbackLogger w ∧
  telemetry (cacheObjects bq None flatData w) = telemetry w ∧
  remote (cacheObjects bq None flatData w) = remote w ∧
  clientCalls (cacheObjects bq None flatData w) = clientCalls w.
Proof.
  assert (∀ table objects (w : Warehouse S),
            let w' := foldl (λ w object,
                               cache (CacheSucceed (name bq) (ExtractEventID object)
                                           object table) w) w objects in
            eventsCache w'
            = (eventsCache w ++
               ((λ object, CacheSucceed (name bq) (ExtractEventID object) object table)
                  <$> objects))%list ∧
            fallbackLogger w' = fallbackLogger w ∧ telemetry w' = telemetry w ∧
            remote w' = remote w ∧ clientCalls w' = clientCalls w) as Hrows.
  { intros table objects. induction objects as [|o objects IH]; intros w.
    - cbn. by rewrite app_nil_r.
    - cbn [foldl]. destruct (IH (cache (CacheSucceed (name bq) (ExtractEventID o) o table) w))
        as (-> & -> & -> & -> & ->). cbn. by rewrite <- app_assoc. }
  unfold cacheObjects. induction flatData as [|fdata rest IH]; intros w.
  - cbn. by rewrite app_nil_r.
  - cbn [foldl]. destruct (IH (foldl (λ w object,
                               cache (CacheSucceed (name bq) (ExtractEventID object)
                                           object (DataSchema fdata)) w) w (GetPayload fdata)))
      as (-> & -> & -> & -> & ->).
    destruct (Hrows (DataSchema fdata) (GetPayload fdata) w) as (-> & -> & -> & -> & ->).
    cbn. unfold succeeded at 2. by rewrite <- app_assoc.
Qed.

Lemma bq_Fallback_spec (failedFacts : list FailedEvent) : ∀ w : Warehouse S,
  fallbackLogger (Fallback failedFacts w) = (fallbackLogger w ++ failedFacts)%list ∧
  eventsCache (Fallback failedFacts w) = eventsCache w ∧
  telemetry (Fallback failedFacts w) = telemetry w ∧
  remote (Fallback failedFacts w) = remote w ∧
  clientCalls (Fallback failedFacts w) = clientCalls w.
Proof.
  unfold Fallback. induction failedFacts as [|f rest IH]; intros w.
  - cbn. by rewrite app_nil_r.
  - cbn [foldl]. match goal with |- context [foldl _ ?w0 rest] =>
      destruct (IH w0) as (-> & -> & -> & -> & ->) end.
    cbn. by rewrite <- app_assoc.
Qed.

Lemma cacheFailed_spec (bq : BigQuery S) (failedEvents : list FailedEvent) :
  ∀ w : Warehouse S,
  let w' := foldl (λ w failedFact,
                     cache (CacheError (name bq) (EventID failedFact)
                                 (ErrorText failedFact)) w) w failedEvents in
  eventsCache w' = (eventsCache w ++ (failed bq <$> failedEvents))%list ∧
  fallbackLogger w' = fallbackLogger w ∧ telemetry w' = telemetry w ∧
  remote w' = remote w ∧ clientCalls w' = clientCalls w.
Proof.
  induction failedEvents as [|f rest IH]; intros w.
  - cbn. by rewrite app_nil_r.
  - cbn [foldl]. match goal with |- context [foldl _ ?w0 rest] =>
      destruct (IH w0) as (-> & -> & -> & -> & ->) end.
    cbn. by rewrite <- app_assoc.
Qed.

Lemma StoreWithParseFunc_unfold (bq : BigQuery S) fileName payload parseFunc
    (w : Warehouse S) flatData failedEvents :
  ProcessFilePayload (schemaProcessor bq) fileName payload (breakOnError bq) parseFunc
  = inr (flatData, failedEvents) →
  StoreWithParseFunc bq fileName payload parseFunc w
  = match ensureTables bq flatData w with
    | (Some e, flatData', w1) =>
        ((rowsCount flatData, Some e), cacheObjects bq None flatData' w1)
    | (None, flatData', w1) =>
        match uploadFiles bq flatData' w1 with
        | (Some (fileRows, e), w2) => ((fileRows, Some e), cacheObjects bq None flatData' w2)
        | (None, w2) =>
            ((0%Z, None),
             cacheObjects bq None flatData'
               (foldl (λ w failedFact,
                         cache (CacheError (name bq) (EventID failedFact)
                                     (ErrorText failedFact)) w)
                  (tell (counters_ErrorEvents (name bq) (len failedEvents))
                     (Fallback failedEvents w2)) failedEvents))
        end
    end.
Proof. intros Hp. unfold StoreWithParseFunc. by rewrite Hp. Qed.

(** X24.  [StoreWithParseFunc] of the BigQuery storage works in two
    phases.  No file is uploaded before the table of every group is
    ensured and the group typed: if one of these fails nothing is uploaded
    and the count returned is the number of rows of all groups.  The files
    are then uploaded in order up to the first upload that fails; the
    count returned is then the number of rows of the failing file, and the
    files uploaded before it stay uploaded.  Only when every upload went
    through are the failed events sent to the fallback logger and counted
    as errors, and the result is 0 and nil.  When the payload cannot be
    processed the result is the number of lines and nothing happens. *)
Theorem bigquery_store_two_phases (bq : BigQuery S) fileName payload parseFunc
    (w : Warehouse S) :
  let r := StoreWithParseFunc bq fileName payload parseFunc w in
  match ProcessFilePayload (schemaProcessor bq) fileName payload (breakOnError bq) parseFunc with
  | inl err => r = ((linesCount payload, Some err), w)
  | inr (flatData, failedEvents) =>
      let typed := typedData bq flatData w in
      ∃ ensures uploads,
        clientCalls r.2 = (clientCalls w ++ ensures ++ uploads)%list ∧
        uploadsIn ensures = [] ∧
        Forall (λ c, isUpload c = true) uploads ∧
        (uploads ≠ [] →
         ensures = (λ fdata, EnsuredTable (name bq) (DataSchema fdata) None) <$> flatData) ∧
        match r.1.2 with
        | None =>
            r.1.1 = 0%Z ∧
            uploadsIn uploads = (λ fdata, (fileOf fdata, None)) <$> typed ∧
            fallbackLogger r.2 = (fallbackLogger w ++ failedEvents)%list ∧
            telemetry r.2
            = (telemetry w ++ [counters_ErrorEvents (name bq) (len failedEvents)])%list
        | Some e =>
            fallbackLogger r.2 = fallbackLogger w ∧
            telemetry r.2 = telemetry w ∧
            ((uploads = [] ∧ r.1.1 = rowsCount flatData) ∨
             ∃ k fdata, typed !! k = Some fdata ∧
               uploadsIn uploads
               = (((λ fdata, (fileOf fdata, None)) <$> take k typed) ++
                  [(fileOf fdata, Some e)])%list ∧
               r.1.1 = (GetPayloadBytes fdata).2)
        end
  end.
Proof.
  intros r. subst r.
  destruct (ProcessFilePayload _ _ _ _ _) as [err|[flatData failedEvents]] eqn:Hp.
  { unfold StoreWithParseFunc. by rewrite Hp. }
  intros typed. subst typed. unfold typedData.
  rewrite (StoreWithParseFunc_unfold _ _ _ _ _ _ _ Hp).
  destruct (ensureTables_spec bq flatData w) as ((Hf1 & _ & Ht1) & _ & ensures & Hc1 & Hup1 & Hok).
  destruct (ensureTables bq flatData w) as [[[e|] typed] w1]; cbn [fst snd] in *.
  { destruct (cacheObjects_spec bq typed w1) as (_ & -> & -> & _ & ->).
    exists ensures, []. rewrite app_nil_r. split; [done|]. split; [done|].
    split; [constructor|]. split; [done|]. split; [done|]. split; [done|]. by left. }
  destruct (uploadFiles_spec bq typed w1) as ((Hf2 & _ & Ht2) & uploads & Hc2 & Hres & Hall).
  destruct (uploadFiles bq typed w1) as [[[fileRows e]|] w2]; cbn [fst snd] in *.
  - destruct (cacheObjects_spec bq typed w2) as (_ & -> & -> & _ & ->).
    exists ensures, uploads. split; [by rewrite Hc2, Hc1, <- app_assoc|]. split; [done|].
    split; [done|]. split; [by intros _; apply Hok|].
    split; [congruence|]. split; [congruence|]. right.
    destruct Hres as (k & fdata & Hk & Hup & Hrows). by exists k, fdata.
  - match goal with |- context [cacheObjects bq None typed ?w0] =>
      destruct (cacheObjects_spec bq typed w0) as (_ & -> & -> & _ & ->) end.
    match goal with |- context [foldl ?f ?w0 failedEvents] =>
      destruct (cacheFailed_spec bq failedEvents w0) as (_ & -> & -> & _ & ->) end.
    cbn [tell fallbackLogger telemetry clientCalls].
    destruct (bq_Fallback_spec failedEvents w2) as (-> & _ & -> & _ & ->).
    exists ensures, uploads. split; [by rewrite Hc2, Hc1, <- app_assoc|]. split; [done|].
    split; [done|]. split; [by intros _; apply Hok|].
    split; [done|]. split; [done|]. split; congruence.
Qed.

(** X25.  Once the payload is processed, the events cache records every
    row of every group as succeeded, in order, whether the store then
    fails or not: the deferred loop tests the [err] of the processing
    step, which is nil when the loop runs.  The failed events are recorded
    as errors before them, and only when the store succeeded. *)
Theorem bigquery_store_caches_rows_as_succeeded (bq : BigQuery S) fileName payload
    parseFunc (w : Warehouse S) :
  let r := StoreWithParseFunc bq fileName payload parseFunc w in
  match ProcessFilePayload (schemaProcessor bq) fileName payload (breakOnError bq) parseFunc with
  | inl err => eventsCache r.2 = eventsCache w
  | inr (flatData, failedEvents) =>
      eventsCache r.2
      = (eventsCache w ++
         (if isNil r.1.2 then failed bq <$> failedEvents else []) ++
         concat (succeeded bq <$> typedData bq flatData w))%list
  end.
Proof.
  intros r. subst r.
  destruct (ProcessFilePayload _ _ _ _ _) as [err|[flatData failedEvents]] eqn:Hp.
  { unfold StoreWithParseFunc. by rewrite Hp. }
  unfold typedData. rewrite (StoreWithParseFunc_unfold _ _ _ _ _ _ _ Hp).
  destruct (ensureTables_spec bq flatData w) as ((_ & He1 & _) & _).
  destruct (ensureTables bq flatData w) as [[[e|] typed] w1]; cbn [fst snd] in *.
  { destruct (cacheObjects_spec bq typed w1) as (-> & _). cbn. by rewrite He1. }
  destruct (uploadFiles_spec bq typed w1) as ((_ & He2 & _) & _).
  destruct (uploadFiles bq typed w1) as [[[fileRows e]|] w2]; cbn [fst snd] in *.
  - destruct (cacheObjects_spec bq typed w2) as (-> & _). cbn. by rewrite He2, He1.
  - match goal with |- context [cacheObjects bq None typed ?w0] =>
      destruct (cacheObjects_spec bq typed w0) as (-> & _) end.
    match goal with |- context [foldl ?f ?w0 failedEvents] =>
      destruct (cacheFailed_spec bq failedEvents w0) as (-> & _) end.
    cbn [tell eventsCache isNil].
    destruct (bq_Fallback_spec failedEvents w2) as (_ & -> & _).
    by rewrite He2, He1, <- app_assoc.
Qed.

End Facts.
End BigQueryStoreFacts.

(* --------------------------------------------------------------------- *)
(** ** The default mappings of a destination                             *)
(* --------------------------------------------------------------------- *)

Module StoragesFactoryFacts.
Import StoragesFactory.

Section Facts.
Context `{DestinationTypes} {Action : Type} (MOVE : Action).

Lemma configured_spec (fields : list (MappingField Action)) :
  configured fields = (existsb mapsEventId fields, existsb mapsTimestamp fields).
Proof.
  unfold configured.
  assert (∀ a b, foldl (λ '(configuredEventId, configuredTimestamp) (f : MappingField Action),
           (if bool_decide (Src f = "/eventn_ctx/event_id") &&
               (bool_decide (Dst f = "/eventn_ctx/event_id") ||
                bool_decide (Dst f = "/eventn_ctx_event_id"))
            then true else configuredEventId,
            if bool_decide (Src f = "/_timestamp") && bool_decide (Dst f = "/_timestamp")
            then true else configuredTimestamp)) (a, b) fields
          = (a || existsb mapsEventId fields, b || existsb mapsTimestamp fields)) as Hgen.
  { induction fields as [|f rest IH]; intros a b.
    - cbn. by rewrite !orb_false_r.
    - cbn [foldl existsb]. rewrite IH. unfold mapsEventId, mapsTimestamp.
      destruct (bool_decide (Src f = "/eventn_ctx/event_id") && _),
               (bool_decide (Src f = "/_timestamp") && _), a, b; reflexivity. }
  apply Hgen.
Qed.

Lemma enrich_strict destinationID destinationType (m : Mapping Action) :
  strict destinationType m = true →
  (enrichAndLogMappings MOVE destinationID destinationType (Some m)).1
  = Some {| KeepUnmapped := Some false;
            Fields := (Fields m ++
                       (if existsb mapsEventId (Fields m) then [] else [eventIdMapping MOVE]) ++
                       (if existsb mapsTimestamp (Fields m) then []
                        else [timestampMapping MOVE]))%list |}.
Proof.
  unfold strict. intros Hs. apply andb_prop in Hs as [Hs Hne]. apply andb_prop in Hs as [Hsql Hk].
  apply bool_decide_eq_true in Hk. apply negb_true_iff, bool_decide_eq_false in Hne.
  unfold enrichAndLogMappings.
  destruct (decide (len (Fields m) = 0)%Z) as [Hz|_].
  { exfalso. apply Hne. unfold len in Hz. destruct (Fields m); [done|]. cbn in Hz. lia. }
  rewrite Hk, Hsql, configured_spec. cbn [negb andb].
  destruct (existsb mapsEventId (Fields m)), (existsb mapsTimestamp (Fields m));
    cbn [negb fst snd app]; by rewrite ?app_nil_r, <- ?app_assoc.
Qed.

Lemma enrich_lax destinationID destinationType (m : Mapping Action) :
  strict destinationType m = false →
  (enrichAndLogMappings MOVE destinationID destinationType (Some m)).1 = Some m.
Proof.
  unfold strict, enrichAndLogMappings. intros Hs.
  destruct (decide (len (Fields m) = 0)%Z) as [Hz|Hz]; [done|].
  assert (Fields m ≠ []) as Hne by (intros E; rewrite E in Hz; by apply Hz).
  rewrite (bool_decide_eq_false_2 _ Hne) in Hs. cbn [negb] in Hs. rewrite andb_true_r in Hs.
  destruct m as [[[|]|] fields]; cbn [KeepUnmapped Fields negb] in *.
  - by rewrite andb_false_r.
  - destruct (isSQLType destinationType); [|done]. by vm_compute in Hs.
  - by rewrite andb_false_r.
Qed.

Lemma existsb_added (fields : list (MappingField Action)) :
  let fields' := (fields ++
                  (if existsb mapsEventId fields then [] else [eventIdMapping MOVE]) ++
                  (if existsb mapsTimestamp fields then [] else [timestampMapping MOVE]))%list in
  existsb mapsEventId fields' = true ∧ existsb mapsTimestamp fields' = true.
Proof.
  cbn zeta. rewrite !existsb_app.
  destruct (existsb mapsEventId fields), (existsb mapsTimestamp fields); cbn; done.
Qed.

Lemma enrich_log destinationID destinationType (m : Mapping Action) :
  Fields m ≠ [] →
  ∃ m', (enrichAndLogMappings MOVE destinationID destinationType (Some m)).1 = Some m' ∧
    (enrichAndLogMappings MOVE destinationID destinationType (Some m)).2
    = ((AddedDefault destinationID <$> drop (length (Fields m)) (Fields m')) ++
       [MappingMode destinationID
          (if KeepUnmapped m is Some false then "remove unmapped fields"
           else "keep unmapped fields")] ++
       (MappingRule destinationID <$> Fields m'))%list.
Proof.
  intros Hne. unfold enrichAndLogMappings.
  destruct (decide (len (Fields m) = 0)%Z) as [Hz|_].
  { exfalso. apply Hne. unfold len in Hz. destruct (Fields m); [done|]. cbn in Hz. lia. }
  rewrite configured_spec.
  destruct m as [keep fields]. cbn [KeepUnmapped Fields] in *.
  destruct (isSQLType destinationType), keep as [[|]|]; cbn [negb andb];
    try (eexists; split; [reflexivity|]; cbn [Fields fst snd];
         by rewrite drop_all).
  destruct (existsb mapsEventId fields), (existsb mapsTimestamp fields); cbn [negb];
    (eexists; split; [reflexivity|]; cbn [Fields fst snd];
     rewrite <- ?app_assoc, ?drop_app_length, ?drop_all; reflexivity).
Qed.

(** X26.  [enrichAndLogMappings] adds the default mappings of the event
    id and of the timestamp only to a mapping of an SQL destination that
    has fields and does not keep unmapped fields, only those that are not
    configured already, and after the configured fields, which keep their
    order; any other mapping is left as it is.  Afterwards both system
    fields are mapped, so a second call adds nothing.  Every default that
    was added is logged, then the mode and every rule of the mapping in
    order; a mapping without fields is only reported as having no
    rules. *)
Theorem default_mappings_are_added_once destinationID destinationType
    (m : Mapping Action) :
  let r := enrichAndLogMappings MOVE destinationID destinationType (Some m) in
  ∃ m', r.1 = Some m' ∧
    KeepUnmapped m' = KeepUnmapped m ∧
    (if strict destinationType m
     then Fields m'
          = (Fields m ++
             (if existsb mapsEventId (Fields m) then [] else [eventIdMapping MOVE]) ++
             (if existsb mapsTimestamp (Fields m) then [] else [timestampMapping MOVE]))%list ∧
          existsb mapsEventId (Fields m') = true ∧
          existsb mapsTimestamp (Fields m') = true
     else m' = m) ∧
    (enrichAndLogMappings MOVE destinationID destinationType (Some m')).1 = Some m' ∧
    (Fields m = [] → r.2 = [NoMappingRules destinationID]) ∧
    (Fields m ≠ [] →
     r.2 = ((AddedDefault destinationID <$> drop (length (Fields m)) (Fields m')) ++
            [MappingMode destinationID
               (if KeepUnmapped m is Some false then "remove unmapped fields"
                else "keep unmapped fields")] ++
            (MappingRule destinationID <$> Fields m'))%list).
Proof.
  intros r. subst r.
  destruct (strict destinationType m) eqn:Hs.
  - pose proof (enrich_strict destinationID destinationType m Hs) as Hm.
    eexists. split; [exact Hm|]. cbn [KeepUnmapped Fields].
    pose proof (existsb_added (Fields m)) as [He Ht]. cbn zeta in He, Ht.
    assert (KeepUnmapped m = Some false ∧ Fields m ≠ []) as [Hk Hne].
    { unfold strict in Hs. apply andb_prop in Hs as [Hs Hne]. apply andb_prop in Hs as [_ Hk].
      apply bool_decide_eq_true in Hk. by apply negb_true_iff, bool_decide_eq_false in Hne. }
    split; [done|]. split; [done|]. split.
    + set (m' := {| KeepUnmapped := Some false; Fields := _ |}).
      assert (strict destinationType m' = true) as Hs'.
      { unfold strict in *. apply andb_prop in Hs as [Hs _]. apply andb_prop in Hs as [-> _].
        cbn. destruct (Fields m); [done|]. done. }
      rewrite (enrich_strict destinationID destinationType m' Hs').
      subst m'. cbn [Fields]. rewrite He, Ht. by rewrite !app_nil_r.
    + split; [done|]. intros _.
      destruct (enrich_log destinationID destinationType m Hne) as (m' & Hm' & Hlog).
      rewrite Hm in Hm'. injection Hm' as <-. exact Hlog.
  - pose proof (enrich_lax destinationID destinationType m Hs) as Hm.
    exists m. split; [exact Hm|]. split; [done|]. split; [done|]. split; [exact Hm|].
    split.
    + intros Hnil. unfold enrichAndLogMappings. rewrite Hnil. done.
    + intros Hne. destruct (enrich_log destinationID destinationType m Hne) as (m' & Hm' & Hlog).
      rewrite Hm in Hm'. injection Hm' as <-. exact Hlog.
Qed.

End Facts.
End StoragesFactoryFacts.

(* --------------------------------------------------------------------- *)
(** ** Runs of the properties above on the sample values                  *)
(* --------------------------------------------------------------------- *)

Module CoordinationMoreExamples.
Import Coordination CoordinationVersions CoordinationMoreFacts MoreSamples.

Lemma lock_unlock_round_trip_witness :
  (Lock idle "destinations" "pg" fresh).1 = Acquired "destinations_pg" ∧
  sleeps (Lock idle "destinations" "pg" fresh).2 = [] ∧
  IsLocked "destinations" "pg" (Lock idle "destinations" "pg" fresh).2 = true ∧
  (TryLock idle "destinations" "pg" (Lock idle "destinations" "pg" fresh).2).1
    = AlreadyLocked "destinations" "pg" ∧
  IsLocked "destinations" "pg"
    (Unlock "destinations_pg" (Lock idle "destinations" "pg" fresh).2) = false.
Proof.
  destruct (lock_unlock_round_trip idle "destinations" "pg" fresh)
    as (Hgot & Hsleeps & _ & Hheld & Htry & _ & Hfree).
  - apply not_elem_of_empty.
  - split; [exact Hgot|]. split; [exact Hsleeps|]. split; [exact Hheld|].
    split; [exact Htry|exact Hfree].
Defined.

Lemma lock_identifiers_alias_witness :
  IsLocked "sources" "pg_users"
    (Lock idle "sources_pg" "users" fresh).2 = true ∧
  (TryLock idle "sources" "pg_users" (Lock idle "sources_pg" "users" fresh).2).1
    = AlreadyLocked "sources" "pg_users".
Proof.
  apply (lock_identifiers_alias idle "sources" "pg" "users" fresh).
  vm_compute. reflexivity.
Defined.

Lemma versions_count_increments_witness :
  GetVersion "sources" "users"
    (Nat.iter 3 (λ i, (IncrementVersion "sources" "users" i).2) versions)
  = (3%Z, None) ∧
  GetVersion "sources" "orders"
    (Nat.iter 3 (λ i, (IncrementVersion "sources" "users" i).2) versions)
  = (0%Z, None).
Proof.
  destruct (versions_count_increments "sources" "users" 3 versions)
    as (Hversion & _ & Hothers).
  - vm_compute. discriminate.
  - vm_compute. reflexivity.
  - split; [exact Hversion|]. rewrite Hothers; [reflexivity|]. discriminate.
Defined.

End CoordinationMoreExamples.

Module WorkerExamples.
Import Storages StreamingAccounts WorkerFacts Samples MoreSamples.

Lemma events_wait_for_their_time_witness :
  start (newStreamingWorker (postgres "")) [draw; draw; draw]
    (queueing [later "t1"; later "t2"])
  = (Running, queueing [later "t2"; later "t1"]).
Proof.
  apply (events_wait_for_their_time (newStreamingWorker (postgres "")) [draw; draw; draw]
           [later "t1"; later "t2"] (queueing [later "t1"; later "t2"])).
  - reflexivity.
  - reflexivity.
  - reflexivity.
  - discriminate.
  - repeat constructor.
Defined.

Lemma process_error_routing_witness :
  let r := iteration (newStreamingWorker (postgresOf (backend "") (rejecting (Errorf "no table"))))
             draw world in
  eventQueue r.2 = {| items := []; queueClosed := false |} ∧
  calls r.2 = [] ∧
  fallbackLogger r.2
  = [{| Event := "{event e1}"; ErrorText := "no table"; EventID := "e1" |}] ∧
  telemetry r.2 = [metrics_ErrorTokenEvent "t1" "pg"; counters_ErrorEvents "pg" 1].
Proof.
  intros r.
  destruct (process_error_routing (postgresOf (backend "") (rejecting (Errorf "no table")))
              draw world queued [] (Errorf "no table"))
    as (_ & Hqueue & Hcalls & _ & _ & _ & Hfallback & Htelemetry).
  - reflexivity.
  - reflexivity.
  - reflexivity.
  - vm_compute. discriminate.
  - reflexivity.
  - split; [exact Hqueue|]. split; [exact Hcalls|]. split; [exact Hfallback|exact Htelemetry].
Defined.

Lemma stored_event_is_archived_witness :
  let r := iteration (newStreamingWorker (postgresOf accepting processor)) draw world in
  eventQueue r.2 = {| items := []; queueClosed := false |} ∧
  fallbackLogger r.2 = [] ∧
  archiveLogger r.2 = [(click, "t1")] ∧
  telemetry r.2 = [counters_SuccessEvents "pg" 1; metrics_SuccessTokenEvent "t1" "pg"].
Proof.
  intros r.
  destruct (stored_event_is_archived (postgresOf accepting processor) draw world queued []
              (header "events") click)
    as (_ & Hqueue & Hfallback & Harchive & Htelemetry & _).
  - reflexivity.
  - reflexivity.
  - reflexivity.
  - vm_compute. discriminate.
  - reflexivity.
  - vm_compute. reflexivity.
  - vm_compute. reflexivity.
  - split; [exact Hqueue|]. split; [exact Hfallback|]. split; [exact Harchive|exact Htelemetry].
Defined.

Lemma empty_event_is_dropped_witness :
  iteration (newStreamingWorker (postgresOf (backend "") blank)) draw world
  = (Continue, queueing []).
Proof.
  apply (empty_event_is_dropped (newStreamingWorker (postgresOf (backend "") blank))
           draw world queued [] blankHeader click).
  - reflexivity.
  - reflexivity.
  - reflexivity.
  - vm_compute. discriminate.
  - reflexivity.
  - reflexivity.
Defined.

End WorkerExamples.

Module LoggingExamples.
Import Logging LoggingFacts Samples MoreSamples.

Lemma logger_writes_in_order_witness :
  logCh (drain lines logger) = [] ∧
  writer (drain lines logger) = ["{a}" +:+ lineFeed; "{b}" +:+ lineFeed].
Proof.
  destruct (logger_writes_in_order lines logger) as (Hempty & _ & Hwritten & _).
  - reflexivity.
  - split; [exact Hempty|exact Hwritten].
Defined.

End LoggingExamples.

Module StoragesSyncExamples.
Import Storages StoragesSync StoragesSyncFacts Samples MoreSamples.

Lemma sync_store_plain_witness :
  let r := SyncStore (postgres "") syncBackend None [click; view] "2021-03" ([], []) in
  r.1.1 = 2%Z ∧
  ∃ new (k : nat),
    r.2.2 = new ∧
    updates new = GetPayload <$> take k [{| Header := header "events";
                                            GetPayload := [click; view] |}].
Proof.
  intros r.
  destruct (sync_store_plain (postgres "") syncBackend None [click; view] "2021-03"
              (([] : Sink), [])
              [{| Header := header "events"; GetPayload := [click; view] |}])
    as (Hcount & new & k & Hlog & Hupdates & _).
  - reflexivity.
  - discriminate.
  - split; [exact Hcount|]. exists new, k. split; [exact Hlog|exact Hupdates].
Defined.

Lemma sync_store_overridden_witness :
  let r := SyncStore (postgres "") syncBackend (Some (header "users")) [click; view]
             "2021-03" ([], []) in
  r.1.1 = 2%Z ∧
  ∃ new,
    r.2.2 = new ∧
    updates new = [[click; view]].
Proof.
  intros r.
  destruct (sync_store_overridden (postgres "") syncBackend (header "users") [click; view]
              "2021-03" (([] : Sink), [])
              [{| Header := header "events"; GetPayload := [click; view] |}])
    as (Hcount & _ & new & Hlog & _ & Hupdates & _).
  - reflexivity.
  - vm_compute. discriminate.
  - split; [exact Hcount|]. exists new. split; [exact Hlog|exact Hupdates].
Defined.

End StoragesSyncExamples.

Module AdaptersTablesExamples.
Import Adapters AdaptersTables AdaptersTablesFacts Samples MoreSamples.

Lemma create_table_ignores_map_order_witness :
  CreateTable schemaEngine mysql
    [("id", {| SQLType := "bigint" |}); ("name", text)] events_table []
  = CreateTable schemaEngine mysql
      [("name", text); ("id", {| SQLType := "bigint" |})] events_table [].
Proof.
  apply (create_table_ignores_map_order schemaEngine mysql
           [("id", {| SQLType := "bigint" |}); ("name", text)]
           [("name", text); ("id", {| SQLType := "bigint" |})] events_table []).
  apply perm_swap.
Defined.

End AdaptersTablesExamples.

Module AdaptersReadsExamples.
Import Adapters AdaptersReads AdaptersReadsFacts AdaptersRowsFacts AdaptersUpdateFacts.
Import Samples MoreSamples.

Lemma table_schema_read_witness :
  (GetTableSchema catalog mysql "events").1 = inr events_schema ∧
  (∀ n c, Columns events_schema !! n = Some c → SQLType c ≠ "-") ∧
  (GetTableSchema catalog mysql "events").2
  = [AskedTableSchema "public" "events"; AskedPrimaryKeyFields "public.events" "public"].
Proof.
  assert ((GetTableSchema catalog mysql "events").1 = inr events_schema) as Hread
    by (vm_compute; reflexivity).
  split; [exact Hread|].
  destruct (table_schema_read catalog mysql "events" events_schema Hread)
    as (rows & _ & _ & Hlive & _ & Hkeys).
  split; [intros n c Hc; exact (proj1 (Hlive n c Hc))|].
  destruct (decide (Columns events_schema = ∅)) as [Hnone|_].
  - vm_compute in Hnone. discriminate.
  - destruct Hkeys as (pkRows & _ & Hasked & _). exact Hasked.
Defined.

Lemma repeated_insert_merges_or_appends_witness :
  ∃ t',
    db (Nat.iter 3 (λ c, (Insert reliable mysql users_table user1 c).2) connection)
      !! "users" = Some t' ∧
    length (rows t') = 1.
Proof.
  destruct (repeated_insert_merges_or_appends reliable mysql users_table user1 connection
              {| pkConstraint := ["email"]; rows := [] |} 3)
    as [_ Hmerge].
  - reflexivity.
  - intros Hempty. apply (f_equal size) in Hempty. vm_compute in Hempty. discriminate.
  - vm_compute. reflexivity.
  - destruct Hmerge as (t' & Hlook & _ & _ & Hlen).
    + intros Hempty. apply (f_equal size) in Hempty. vm_compute in Hempty. discriminate.
    + discriminate.
    + lia.
    + exists t'. split; [exact Hlook|exact Hlen].
Defined.

Lemma bulk_update_replaces_rows_witness :
  rows <$> (db (BulkUpdate reliable mysql events_table [event1] noConditions connection).2
              !! "events")
  = Some [stored (columnNames events_table) event1] ∧
  rows <$> (db (BulkUpdate reliable mysql bare_table [event1] noConditions connection).2
              !! "events")
  = Some [].
Proof.
  split.
  - rewrite (bulk_update_replaces_rows reliable mysql events_table [event1] noConditions
               connection {| pkConstraint := []; rows := [] |}
               (BulkUpdate reliable mysql events_table [event1] noConditions connection).2).
    + reflexivity.
    + reflexivity.
    + vm_compute. discriminate.
    + vm_compute. reflexivity.
    + reflexivity.
    + vm_compute. reflexivity.
  - rewrite (bulk_update_replaces_rows reliable mysql bare_table [event1] noConditions
               connection {| pkConstraint := []; rows := [] |}
               (BulkUpdate reliable mysql bare_table [event1] noConditions connection).2).
    + reflexivity.
    + reflexivity.
    + vm_compute. discriminate.
    + vm_compute. reflexivity.
    + reflexivity.
    + vm_compute. reflexivity.
Defined.

End AdaptersReadsExamples.

Module ReplayExamples.
Import Fallback FallbackFiles ReplayFacts Samples MoreSamples.

Lemma refused_replay_changes_nothing_witness :
  ∃ err,
    Replay None failedFile "nowhere" false (service (postgres "")) world
    = (Some err, service (postgres ""), world).
Proof.
  apply (refused_replay_changes_nothing None failedFile "nowhere" false
           (service (postgres "")) world).
  right. right. right. vm_compute. exact I.
Defined.

End ReplayExamples.

Module BigQueryStoreExamples.
Import Storages BigQueryStore Samples MoreSamples.

(** An upload fails: the error is returned with the rows of the file, the
    failed line is not sent to the fallback logger, and the row is in the
    events cache as succeeded. *)
Example failed_upload_is_cached_as_succeeded :
  let r := StoreWithParseFunc bigQuery "events.log" "{}" Fallback.ParseJSON warehouse in
  r.1 = (1%Z, Some (Errorf "googleapi: Error 503")) ∧
  fallbackLogger r.2 = [] ∧
  eventsCache r.2 = [CacheSucceed "bq" "e1" click events_table] ∧
  clientCalls r.2
  = [EnsuredTable "bq" events_table None;
     UploadedBytes "events.ndjson" "{rows}" (Some (Errorf "googleapi: Error 503"))].
Proof. vm_compute. repeat split. Qed.

End BigQueryStoreExamples.

Module FallbackFilesExamples.
Import Fallback FallbackFiles Samples MoreSamples.

(** Of the three paths of the glob, the readable file with content is
    listed under the destination its name encodes; the empty file is
    removed and its status cleaned; a filter for another destination
    leaves the list empty. *)
Example one_file_listed :
  let r := GetFileStatuses (λ _, true) (inr [failedFile; "empty.log"; "gone.log"]) ∅ inbox in
  entryOf <$> r.1 = [(failedFile, "pg")] ∧
  files r.2 !! "empty.log" = None ∧
  statusManager r.2 !! "empty.log" = None ∧
  files r.2 !! failedFile = Some "{not json" ∧
  (GetFileStatuses (λ _, true) (inr [failedFile]) {["other" := true]} inbox).1 = [].
Proof. vm_compute. repeat split. Qed.

End FallbackFilesExamples.

Module StoragesFactoryExamples.
Import StoragesFactory MoreSamples.

(** The event id is mapped already, under its flat name: only the
    timestamp is added, and only for an SQL destination. *)
Example timestamp_added :
  Fields <$> (enrichAndLogMappings "move" "pg" "postgres" (Some strictMapping)).1
  = Some (Fields strictMapping ++ [timestampMapping "move"])%list ∧
  (enrichAndLogMappings "move" "ga" "google_analytics" (Some strictMapping)).1
  = Some strictMapping.
Proof. vm_compute. repeat split. Qed.

End StoragesFactoryExamples.
